(** * VAJointSurv: basis expansions and the expected cumulative hazard

    A shallow embedding of [src/bases.h] (the basis families behind
    [joint_bases::basisMixin]) and of the data of
    [src/test-survival-term.cpp], together with the properties stated
    about them.

    Conventions of the embedding.
    - A finite [double] is a rational ([Q]); arithmetic is exact, so
      rounding and overflow are not represented. A cell that may hold the
      result of a division is a [dbl]: either a finite rational or
      [NonFin], standing for an infinity or a NaN. Every divisor in
      [bases.h] is a finite number that comes from the configuration or
      from the evaluation point, so a non-finite value is never a divisor
      and stays non-finite through [+], [-], [*] and [/]. The
      antiderivative of a raw polynomial, whose result at the lower limit
      is decided by overflow, is modelled a second time over the binary64
      numbers (module [binary64]).
    - [vajoint_uint] counters are [nat]; the subtractions that can pass
      below zero are written with [usub], which wraps as the unsigned
      type does. [int ders] is a [Z].
    - The output pointer [out] is a finite map from offsets to cells,
      starting empty, so that its domain is the set of cells written.
      The scratch segments carved out of [wk_mem] do not overlap and are
      modelled by local arrays.
    - A read outside an array or of a cell that was never written is
      undefined behaviour in C++ and is the outcome [Fault]; a C++
      exception is the outcome [Throw]. *)

From Stdlib Require Import ZArith QArith Qround Qabs Reals Qreals Lra Lia.
From Stdlib Require Import Qpower.
From Stdlib Require Floats.
From Bignums Require Import BigZ.
From stdpp Require Import gmap list strings.

(** ** Numbers *)

Definition Qltb (a b : Q) : bool := negb (Qle_bool b a).
Definition Qneqb (a b : Q) : bool := negb (Qeq_bool a b).

(** A cell of type [double], idealised: [Fin q] stands for the real number
    [q], and the arithmetic below is the arithmetic of the rationals, so
    the rounding and the overflow of binary64 are left out; [NonFin] is
    what a division by zero leaves in the cell, and it spreads through
    every operation. The statements below are about the formula the code
    evaluates; where the overflow decides the result, the binary64 model
    of the module [binary64] is used instead. *)
Inductive dbl : Type :=
| Fin (q : Q)
| NonFin.

Definition dadd (a b : dbl) : dbl :=
  match a, b with
  | Fin p, Fin q => Fin (p + q)
  | _, _ => NonFin
  end.

Definition dsub (a b : dbl) : dbl :=
  match a, b with
  | Fin p, Fin q => Fin (p - q)
  | _, _ => NonFin
  end.

Definition dmul (a b : dbl) : dbl :=
  match a, b with
  | Fin p, Fin q => Fin (p * q)
  | _, _ => NonFin
  end.

(** [a / den] for a finite divisor: [x / 0] is an infinity or a NaN. *)
Definition ddiv (a : dbl) (den : Q) : dbl :=
  match a with
  | Fin p => if Qeq_bool den 0 then NonFin else Fin (p / den)
  | NonFin => NonFin
  end.

(** [p / den] for two finite operands. *)
Definition qdiv (p den : Q) : dbl := ddiv (Fin p) den.

Definition is_finite (a : dbl) : bool :=
  match a with Fin _ => true | NonFin => false end.

(** The width of [vajoint_uint]: the typedef lives in VA-joint-config.h,
    which is not part of the sources at hand; it is an [unsigned int]. *)
Definition vajoint_uint_modulus : N := 4294967296.

(** Unsigned subtraction [a - b] with wrap-around. *)
Definition usub (a b : nat) : nat :=
  if b <=? a then a - b
  else N.to_nat (vajoint_uint_modulus - N.of_nat (b - a)).

(** ** Outcomes of a call *)

Inductive outcome (A : Type) : Type :=
| Ok (a : A)
| Throw (what : string)
| Fault.
Arguments Ok {A} a.
Arguments Throw {A} what.
Arguments Fault {A}.

#[global] Instance outcome_ret : MRet outcome := λ A a, Ok a.
#[global] Instance outcome_bind : MBind outcome := λ A B f m,
  match m with
  | Ok a => f a
  | Throw s => Throw s
  | Fault => Fault
  end.

Definition is_Ok {A} (r : outcome A) : bool :=
  match r with Ok _ => true | _ => false end.

(** A checked read of an array. *)
Definition rd {A} (l : list A) (i : nat) : outcome A :=
  match l !! i with
  | Some a => Ok a
  | None => Fault
  end.

(** A checked write into an array of fixed size. *)
Definition wr {A} (l : list A) (i : nat) (a : A) : outcome (list A) :=
  if i <? length l then Ok (<[i:=a]> l) else Fault.

(** A buffer reached through a pointer: the cells written so far. *)
Abbreviation buf := (gmap nat dbl).

Definition rdb (m : buf) (i : nat) : outcome dbl :=
  match m !! i with
  | Some a => Ok a
  | None => Fault
  end.

(** [for (i = lo; i < lo + n; ++i) s = body(i, s)] *)
Fixpoint for_up {St : Type} (lo n : nat) (body : nat → St → outcome St)
    (s : St) : outcome St :=
  match n with
  | O => Ok s
  | S n' => s' ← body lo s; for_up (S lo) n' body s'
  end.

(** [for (j = n; j-- > 0;) s = body(j, s)] *)
Fixpoint for_down {St : Type} (n : nat) (body : nat → St → outcome St)
    (s : St) : outcome St :=
  match n with
  | O => Ok s
  | S n' => s' ← body n' s; for_down n' body s'
  end.

(** [std::fill(out, out + n, v)] *)
Definition fill (out : buf) (n : nat) (v : dbl) : buf :=
  foldl (λ m i, <[i:=v]> m) out (seq 0 n).

(** [std::copy(first, last, out)] for the cells [src] of the range. *)
Definition copy (src : list dbl) (out : buf) : buf :=
  foldl (λ m iv, <[iv.1:=iv.2]> m) out (imap (λ i v, (i, v)) src).

(** The cells [lo], ..., [lo + n - 1] of a buffer, read in order. *)
Fixpoint rd_range (m : buf) (lo n : nat) : outcome (list dbl) :=
  match n with
  | O => Ok []
  | S n' => a ← rdb m lo; l ← rd_range m (S lo) n'; Ok (a :: l)
  end.

(** ** basisMixin: the state shared by all families *)

(** Every basis object carries [lower_limit], set by
    [basisMixin::set_lower_limit] and zero-initialised. *)

(** ** SplineBasis *)

Module SplineBasis.

Record t : Type := mk {
  lower_limit : Q;
  order : nat;
  knots : list Q;
  no_div_zero : bool
}.

Definition ordm1 (s : t) : nat := usub (order s) 1.
Definition nknots (s : t) : nat := length (knots s).
Definition ncoef (s : t) : nat :=
  if order s <? nknots s then nknots s - order s else 0.

Definition n_basis (s : t) : nat := ncoef s.
Definition n_wmem (s : t) : nat := 2 * ordm1 s + 2 * order s.

(** The loop of [set_cursor]: [i] is the index of the head of [ks]. *)
Fixpoint cursor_scan (ks : list Q) (i : nat) (x : Q) (curs : nat) : nat :=
  match ks with
  | [] => curs
  | k :: ks' =>
      let curs' := if Qle_bool x k then i else curs in
      if Qltb x k then curs' else cursor_scan ks' (S i) x curs'
  end.

(** [set_cursor]: the pair [(curs, boundary)]. *)
Definition set_cursor (s : t) (x : Q) : outcome (nat * bool) :=
  let curs := cursor_scan (knots s) 0 x 0 in
  if ncoef s <? curs then
    k ← rd (knots s) (ncoef s);
    if Qeq_bool x k then Ok (ncoef s, true) else Ok (curs, false)
  else Ok (curs, false).

(** [diff_table]: the pair [(ldel, rdel)], each of [ndiff] cells. *)
Fixpoint diff_table_from (ks : list Q) (curs : nat) (x : Q) (i ndiff : nat)
    : outcome (list Q * list Q) :=
  match ndiff with
  | O => Ok ([], [])
  | S n' =>
      kr ← rd ks (curs + i);
      kl ← rd ks (usub curs (i + 1));
      '(ldel, rdel) ← diff_table_from ks curs x (S i) n';
      Ok ((x - kl)%Q :: ldel, (kr - x)%Q :: rdel)
  end.

Definition diff_table (s : t) (curs : nat) (x : Q) (ndiff : nat)
    : outcome (list Q * list Q) :=
  diff_table_from (knots s) curs x 0 ndiff.

(** One pass of the first loop of [slow_evaluate] for a given [outer]:
    [a[apt] = outer * (a[apt + 1] - a[apt]) /
              (knots[lpt + outer] - knots[lpt])]
    for [apt = 0 .. outer - 1], [lpt = curs - outer + apt]. *)
Definition slow_diff_pass (ks : list Q) (curs outer : nat) (a : list dbl)
    : outcome (list dbl) :=
  for_up 0 outer (λ apt a,
    let lpt := usub curs outer + apt in
    a1 ← rd a (apt + 1);
    a0 ← rd a apt;
    kh ← rd ks (lpt + outer);
    kl ← rd ks lpt;
    wr a apt (ddiv (dmul (Fin (inject_Z (Z.of_nat outer))) (dsub a1 a0))
                   (kh - kl)%Q)) a.

(** [while (nder--) { pass; outer--; }]: the pair [(outer, a)]. *)
Fixpoint slow_diff (ks : list Q) (curs : nat) (nder outer : nat)
    (a : list dbl) : outcome (nat * list dbl) :=
  match nder with
  | O => Ok (outer, a)
  | S nder' =>
      a' ← slow_diff_pass ks curs outer a;
      slow_diff ks curs nder' (outer - 1) a'
  end.

(** One pass of the second loop of [slow_evaluate], [outer] already
    decremented:
    [a[apt] = (a[apt + 1] * ldel[lpt] + a[apt] * rdel[rpt]) /
              (rdel[rpt] + ldel[lpt])]
    for [apt = rpt = 0 .. outer], [lpt = outer - apt]. *)
Definition slow_blend_pass (ldel rdel : list Q) (outer : nat)
    (a : list dbl) : outcome (list dbl) :=
  for_up 0 (outer + 1) (λ apt a,
    let lpt := outer - apt in
    let rpt := apt in
    a1 ← rd a (apt + 1);
    a0 ← rd a apt;
    l ← rd ldel lpt;
    r ← rd rdel rpt;
    wr a apt (ddiv (dadd (dmul a1 (Fin l)) (dmul a0 (Fin r)))
                   (r + l)%Q)) a.

(** [slow_evaluate]. An order [nder] above [ordm1] lets [outer] pass
    below zero: the unsigned counter wraps and [diff_table] or the
    differencing loop runs over the end of the knots and of the
    scratch memory. *)
Definition slow_evaluate (s : t) (curs : nat) (boundary : bool) (x : Q)
    (nder : nat) (a : list dbl) : outcome dbl :=
  if boundary && (nder =? ordm1 s) then Ok (Fin 0)
  else if ordm1 s <? nder then Fault
  else
    '(outer, a) ← slow_diff (knots s) curs nder (ordm1 s) a;
    '(ldel, rdel) ← diff_table s curs x outer;
    a ← for_down outer (slow_blend_pass ldel rdel) a;
    rd a 0.

(** The inner loop of [basis_funcs] on the branch taken when
    [no_div_zero] holds: the state is [(b, saved)]. *)
Definition basis_funcs_fast_step (ldel rdel : list Q) (j r : nat)
    (st : buf * dbl) : outcome (buf * dbl) :=
  let '(b, saved) := st in
  rr ← rd rdel r;
  ll ← rd ldel (j - 1 - r);
  br ← rdb b r;
  let den := (rr + ll)%Q in
  let term := ddiv br den in
  Ok (<[r := dadd saved (dmul (Fin rr) term)]> b, dmul (Fin ll) term).

(** The inner loop of [basis_funcs] on the guarded branch. *)
Definition basis_funcs_safe_step (ldel rdel : list Q) (j r : nat)
    (st : buf * dbl) : outcome (buf * dbl) :=
  let '(b, saved) := st in
  rr ← rd rdel r;
  ll ← rd ldel (j - 1 - r);
  let den := (rr + ll)%Q in
  if Qneqb den 0 then
    br ← rdb b r;
    let term := ddiv br den in
    Ok (<[r := dadd saved (dmul (Fin rr) term)]> b, dmul (Fin ll) term)
  else
    Ok (if negb (r =? 0) || Qneqb rr 0 then <[r := saved]> b else b,
        Fin 0).

(** [basis_funcs]: the array [b] of [order] cells. The recurrence is the
    one of the source with every operation exact. *)
Definition basis_funcs (s : t) (curs : nat) (x : Q) : outcome buf :=
  '(ldel, rdel) ← diff_table s curs x (ordm1 s);
  let step :=
    if no_div_zero s then basis_funcs_fast_step ldel rdel
    else basis_funcs_safe_step ldel rdel in
  for_up 1 (ordm1 s) (λ j b,
    '(b, saved) ← for_up 0 j (step j) (b, Fin 0);
    Ok (<[j := saved]> b)) {[ 0 := Fin 1 ]}.

(** [SplineBasis::operator()], writing into [out]. *)
Definition eval (s : t) (out : buf) (x : Q) (ders : Z) : outcome buf :=
  let out := fill out (n_basis s) (Fin 0) in
  '(curs, boundary) ← set_cursor s x;
  if (curs <? order s) || (nknots s <? curs - order s) then Ok out
  else
    let io := curs - order s in
    if (0 <? ders)%Z then
      for_up 0 (order s) (λ i out,
        let a := <[i := Fin 1]> (replicate (order s) (Fin 0)) in
        v ← slow_evaluate s curs boundary x (Z.to_nat ders) a;
        Ok (<[i + io := v]> out)) out
    else
      wrk ← basis_funcs s curs x;
      for_up 0 (order s) (λ i out,
        v ← rdb wrk i; Ok (<[i + io := v]> out)) out.

(** [set_no_div_zero]: the value it stores in [no_div_zero]. *)
Definition set_no_div_zero (order : nat) (knots : list Q) : bool :=
  let ordm1 := usub order 1 in
  let n_elem := length knots in
  let end_curs := if ordm1 <? n_elem then n_elem - ordm1 else order in
  forallb (λ curs,
    forallb (λ j,
      forallb (λ r,
        match knots !! (curs + r), knots !! (usub curs (j - 1 - r + 1)) with
        | Some kr, Some kl => Qneqb (kr + - kl) 0
        | _, _ => true
        end) (seq 0 j)) (seq 1 ordm1)) (seq order (end_curs - order)).

Definition set_lower_limit (x : Q) (s : t) : t :=
  mk x (order s) (knots s) (no_div_zero s).

End SplineBasis.

(** ** bs: B-splines with boundary and interior knots *)

Module bs.

(** [bs] derives from [SplineBasis]: [base] holds the inherited state. *)
Record t : Type := mk {
  base : SplineBasis.t;
  boundary_knots : list Q;
  interior_knots : list Q;
  intercept : bool;
  df : nat
}.

Definition order (b : t) : nat := SplineBasis.order (base b).
Definition knots (b : t) : list Q := SplineBasis.knots (base b).

Definition n_basis (b : t) : nat :=
  usub (SplineBasis.n_basis (base b)) (if intercept b then 0 else 1).

Definition n_wmem (b : t) : nat :=
  2 * max (SplineBasis.n_basis (base b)) (n_basis b)
  + SplineBasis.n_wmem (base b).

(** The part of [operator()] below the test on the boundary knots. *)
Definition eval_inside (b : t) (out : buf) (x : Q) (ders : Z)
    : outcome buf :=
  if intercept b then SplineBasis.eval (base b) out x ders
  else
    my_wk_mem ← SplineBasis.eval (base b) ∅ x ders;
    for_up 1 (SplineBasis.n_basis (base b) - 1) (λ i out,
      v ← rdb my_wk_mem i; Ok (<[i - 1 := v]> out)) out.

(** [x < boundary_knots[0] || x > boundary_knots[1]] *)
Definition outside (b : t) (x : Q) : outcome bool :=
  b0 ← rd (boundary_knots b) 0;
  if Qltb x b0 then Ok true
  else b1 ← rd (boundary_knots b) 1; Ok (Qltb b1 x).

(** The call [bs::operator()(my_wk_mem, wk_mem, k_pivot, d)] made by
    [add_term]. When the pivot is itself outside the boundary knots the
    call computes the same pivot again and recurses without end. *)
Definition eval_pivot (b : t) (k_pivot : Q) (d : Z) : outcome buf :=
  o ← outside b k_pivot;
  if o : bool then Fault else eval_inside b ∅ k_pivot d.

(** [add_term(d, f)] *)
Definition add_term (b : t) (k_pivot : Q) (d : Z) (f : Q) (out : buf)
    : outcome buf :=
  my_wk_mem ← eval_pivot b k_pivot d;
  for_up 0 (n_basis b) (λ i out,
    o ← rdb out i;
    m ← rdb my_wk_mem i;
    Ok (<[i := dadd o (dmul (Fin f) m)]> out)) out.

(** [bs::operator()] *)
Definition eval (b : t) (out : buf) (x : Q) (ders : Z) : outcome buf :=
  o ← outside b x;
  if o : bool then
    b0 ← rd (boundary_knots b) 0;
    k_pivot ←
      (if Qltb x b0 then
         k ← rd (knots b) (order b);
         Ok (0.75 * b0 + 0.25 * k)%Q
       else
         b1 ← rd (boundary_knots b) 1;
         k ← rd (knots b) (usub (usub (length (knots b)) (order b)) 2);
         Ok (0.75 * b1 + 0.25 * k)%Q);
    let delta := (x - k_pivot)%Q in
    let out := fill out (n_basis b) (Fin 0) in
    match ders with
    | 0%Z =>
        out ← add_term b k_pivot 0 1 out;
        out ← add_term b k_pivot 1 delta out;
        out ← add_term b k_pivot 2 (delta * delta / 2) out;
        add_term b k_pivot 3 (delta * delta * delta / 6) out
    | 1%Z =>
        out ← add_term b k_pivot 1 1 out;
        out ← add_term b k_pivot 2 delta out;
        add_term b k_pivot 3 (delta * delta / 2) out
    | 2%Z =>
        out ← add_term b k_pivot 2 1 out;
        add_term b k_pivot 3 delta out
    | 3%Z => add_term b k_pivot 3 1 out
    | _ => Throw "ders not implemented"
    end
  else eval_inside b out x ders.

Definition set_lower_limit (x : Q) (b : t) : t :=
  mk (SplineBasis.set_lower_limit x (base b)) (boundary_knots b)
     (interior_knots b) (intercept b) (df b).

End bs.

(** ** Dense matrices *)

(** [arma::mat]: column-major storage. *)
Record mat : Type := mk_mat {
  n_rows : nat;
  n_cols : nat;
  mem : list Q
}.

(** Modelled from the spec: [lp_joint::mat_vec] is declared in lp-joint.h,
    which is not part of the sources at hand. It is the change of basis
    of the natural spline, [lhs += A v] for the column-major [n_rows] by
    [n_cols] matrix [A], the same product that [ns::trans] writes as
    [q_matrix * x]; the vector [v] is read from the buffer [b] starting at
    offset [off]. *)
Definition mat_vec (lhs : list dbl) (A : list Q) (b : buf) (off : nat)
    (n_rows n_cols : nat) : outcome (list dbl) :=
  for_up 0 n_cols (λ j lhs,
    v ← rdb b (off + j);
    for_up 0 n_rows (λ i lhs,
      a ← rd A (i + j * n_rows);
      l ← rd lhs i;
      wr lhs i (dadd l (dmul (Fin a) v))) lhs) lhs.

(** ** ns: natural cubic splines *)

Module ns.

Record t : Type := mk {
  lower_limit : Q;
  bspline : bs.t;
  intercept : bool;
  q_matrix : mat;
  tl0 : list Q;
  tl1 : list Q;
  tr0 : list Q;
  tr1 : list Q
}.

Definition n_wmem (n : t) : nat :=
  bs.n_wmem (bspline n) + n_rows (q_matrix n) + bs.n_basis (bspline n).

Definition n_basis (n : t) : nat := usub (n_rows (q_matrix n)) 2.

(** The branch taken beyond the boundary knot [bk], with the intercepts
    [t0] and slopes [t1] of that side. *)
Definition extrapolate (n : t) (out : buf) (x bk : Q) (t0 t1 : list Q)
    (ders : Z) : outcome buf :=
  if (ders =? 0)%Z then
    for_up 0 (n_basis n) (λ i out,
      s ← rd t1 i;
      c ← rd t0 i;
      Ok (<[i := Fin (s * (x - bk) + c)]> out)) out
  else if (ders =? 1)%Z then Ok (copy (Fin <$> t1) out)
  else Ok (fill out (n_basis n) (Fin 0)).

(** [ns::operator()] *)
Definition eval (n : t) (out : buf) (x : Q) (ders : Z) : outcome buf :=
  b0 ← rd (bs.boundary_knots (bspline n)) 0;
  if Qltb x b0 then extrapolate n out x b0 (tl0 n) (tl1 n) ders
  else
    b1 ← rd (bs.boundary_knots (bspline n)) 1;
    if Qltb b1 x then extrapolate n out x b1 (tr0 n) (tr1 n) ders
    else
      let rows := n_rows (q_matrix n) in
      b ← bs.eval (bspline n) ∅ x ders;
      lhs ← mat_vec (replicate rows (Fin 0)) (mem (q_matrix n)) b
              (if intercept n then 0 else 1) rows (n_cols (q_matrix n));
      if rows <? 2 then Fault else Ok (copy (drop 2 lhs) out).

Definition set_lower_limit (x : Q) (n : t) : t :=
  mk x (bspline n) (intercept n) (q_matrix n)
     (tl0 n) (tl1 n) (tr0 n) (tr1 n).

End ns.

(** [std::lower_bound(first, first + n, x) - first] on a sorted range:
    the number of leading elements below [x]. *)
Fixpoint lower_bound (ks : list Q) (n : nat) (x : Q) : nat :=
  match n, ks with
  | S n', k :: ks' => if Qltb k x then S (lower_bound ks' n' x) else 0
  | _, _ => 0
  end.

(** ** iSpline: monotone I-splines *)

Module iSpline.

Record t : Type := mk {
  lower_limit : Q;
  intercept : bool;
  order : nat;
  bspline : bs.t
}.

Definition n_wmem (s : t) : nat :=
  bs.n_wmem (bspline s) + bs.n_basis (bspline s).

Definition n_basis (s : t) : nat :=
  usub (bs.n_basis (bspline s)) (if intercept s then 0 else 1).

(** [iSpline::operator()] *)
Definition eval (s : t) (out : buf) (x : Q) (ders : Z) : outcome buf :=
  let n_b := bs.n_basis (bspline s) in
  if Qltb x 0 then Ok (fill out (n_basis s) (Fin 0))
  else if Qle_bool x 1 then
    b ← bs.eval (bspline s) ∅ x ders;
    let js :=
      if 0 <? length (bs.interior_knots (bspline s)) then
        lower_bound (bs.knots (bspline s))
          (length (bs.knots (bspline s)) - 1) x
      else order s + 1 in
    b ← for_down n_b (λ j b,
           if js <? j then Ok (<[j := Fin 0]> b)
           else if negb (j =? n_b - 1) then
             bj ← rdb b j; bj1 ← rdb b (j + 1);
             Ok (<[j := dadd bj bj1]> b)
           else Ok b) b;
    b ← (if (ders =? 0)%Z then
           for_down (usub n_b 1) (λ j b,
             if j + order s + 1 <? js then Ok (<[j := Fin 1]> b)
             else Ok b) b
         else Ok b);
    if intercept s then
      l ← rd_range b 0 n_b; Ok (copy l out)
    else if n_b =? 0 then Fault
    else l ← rd_range b 1 (n_b - 1); Ok (copy l out)
  else if (0 <? ders)%Z then Ok (fill out (n_basis s) (Fin 0))
  else Ok (fill out (n_basis s) (Fin 1)).

Definition set_lower_limit (x : Q) (s : t) : t :=
  mk x (intercept s) (order s) (bspline s).

End iSpline.

(** ** mSpline: M-splines *)

Module mSpline.

Record t : Type := mk {
  lower_limit : Q;
  bspline : bs.t;
  intercept : bool
}.

Definition n_wmem (s : t) : nat :=
  bs.n_wmem (bspline s) + bs.n_basis (bspline s).

Definition n_basis (s : t) : nat :=
  usub (bs.n_basis (bspline s)) (if intercept s then 0 else 1).

(** The factor applied to coefficient [j]:
    [denom > 0.0 ? bspline.order / denom : 0.0]. *)
Definition scale (s : t) (j : nat) : outcome Q :=
  kh ← rd (bs.knots (bspline s)) (j + bs.order (bspline s));
  kl ← rd (bs.knots (bspline s)) j;
  let denom := (kh - kl)%Q in
  Ok (if Qltb 0 denom
      then (inject_Z (Z.of_nat (bs.order (bspline s))) / denom)%Q
      else 0%Q).

(** [mSpline::operator()] *)
Definition eval (s : t) (out : buf) (x : Q) (ders : Z) : outcome buf :=
  let n_b := bs.n_basis (bspline s) in
  wrk ← bs.eval (bspline s) ∅ x ders;
  wrk ← for_up 0 n_b (λ j wrk,
           f ← scale s j;
           w ← rdb wrk j;
           Ok (<[j := dmul w (Fin f)]> wrk)) wrk;
  if intercept s then
    l ← rd_range wrk 0 n_b; Ok (copy l out)
  else if n_b =? 0 then Fault
  else l ← rd_range wrk 1 (n_b - 1); Ok (copy l out).

Definition set_lower_limit (x : Q) (s : t) : t :=
  mk x (bspline s) (intercept s).

End mSpline.

(** ** orth_poly: raw and orthogonal polynomials *)

Module orth_poly.

Record t : Type := mk {
  lower_limit : Q;
  alpha : list Q;
  norm2 : list Q;
  sqrt_norm2 : list Q;
  raw : bool;
  intercept : bool;
  n_basis_v : nat;
  orth_map : list Q
}.

Definition of_nat (n : nat) : Q := inject_Z (Z.of_nat n).
Definition b2n (b : bool) : nat := if b then 1 else 0.

(** A value of [vajoint_uint]: an integer reduced modulo the width. *)
Definition uwrap (z : Z) : N := Z.to_N (z mod Z.of_N vajoint_uint_modulus).

(** [for (cc = start; --cc > bound;) mult *= cc;] with [mult] a
    [vajoint_uint] that starts at [start]. *)
Fixpoint mult_loop (fuel : nat) (cc bound mult : N) : N :=
  match fuel with
  | O => mult
  | S fuel' =>
      let cc' := uwrap (Z.of_N cc - 1) in
      if (bound <? cc')%N then
        mult_loop fuel' cc' bound (uwrap (Z.of_N mult * Z.of_N cc'))
      else mult
  end.

(** [mult] after the loop, for the bound [c - ders] or [c - ders + 1]
    computed in [vajoint_uint]. *)
Definition falling (start : nat) (bound : Z) : Q :=
  inject_Z (Z.of_N (mult_loop (S start) (N.of_nat start) (uwrap bound)
                      (N.of_nat start))).

(** The loop of the branch [ders == 0] with an intercept. *)
Definition raw_value_inter (p : t) (out : buf) (x : Q) : outcome buf :=
  for_up 1 (n_basis_v p - 1) (λ c out,
    v ← rdb out (c - 1); Ok (<[c := dmul v (Fin x)]> out))
    (<[0 := Fin 1]> out).

(** The loop of the branch [ders == 0] without an intercept: the state
    is [(out, val)]. *)
Definition raw_value_no_inter (p : t) (out : buf) (x : Q) : outcome buf :=
  r ← for_up 0 (n_basis_v p) (λ c st,
        let '(out, val) := st in
        let val := (val * x)%Q in
        Ok (<[c := Fin val]> out, val)) (out, 1%Q);
  Ok r.1.

(** The branch [ders < 0]: the state is [(out, val_upper, val_lower)].
    Every operation is exact; [binary64.raw_integral] below is the same
    branch with the operations of binary64. *)
Definition raw_integral (p : t) (out : buf) (x : Q) (inter : bool)
    (uders : nat) : outcome buf :=
  let ll := lower_limit p in
  '(val_upper, val_lower) ←
    for_up 2 (uders - 1) (λ i st,
      let '(vu, vl) := st in
      Ok (vu * (x / of_nat i), vl * (ll / of_nat i))%Q) (x, ll);
  let '(val_upper, val_lower) :=
    if inter then (val_upper, val_lower)
    else (val_upper * (x / of_nat (uders + 1)),
          val_lower * (x / of_nat (uders + 1)))%Q in
  r ← for_up 0 (n_basis_v p) (λ c st,
        let '(out, vu, vl) := st in
        let out := <[c := Fin (vu - vl)]> out in
        let d := of_nat (c + uders + 1 + b2n inter) in
        let vu := (vu * (x / d))%Q in
        let vl := (vl * (ll / d))%Q in
        if uders <? c + 1 - b2n inter then
          Ok (out, vu * (of_nat c + 1 + of_nat (b2n inter)),
              vl * (of_nat c + 1 + of_nat (b2n inter)))%Q
        else Ok (out, vu, vl)) (out, val_upper, val_lower);
  Ok r.1.1.

(** The branch [ders > 0] with an intercept: the state is [(out, val)]. *)
Definition raw_deriv_inter (p : t) (out : buf) (x : Q) (ders : nat)
    : outcome buf :=
  r ← for_up ders (n_basis_v p - ders) (λ c st,
        let '(out, val) := st in
        let mult := falling c (Z.of_nat c - Z.of_nat ders) in
        Ok (<[c := Fin (mult * val)]> out, val * x)%Q)
        (fill out ders (Fin 0), 1%Q);
  Ok r.1.

(** The branch [ders > 0] without an intercept. *)
Definition raw_deriv_no_inter (p : t) (out : buf) (x : Q) (ders : nat)
    : outcome buf :=
  r ← for_up 0 (n_basis_v p) (λ c st,
        let '(out, val) := st in
        let mult := falling (c + 1) (Z.of_nat c - Z.of_nat ders + 1) in
        Ok (<[c := Fin (mult * val)]> out, val * x)%Q)
        (fill out (ders - 1) (Fin 0), 1%Q);
  Ok r.1.

(** [eval_raw] *)
Definition eval_raw (p : t) (out : buf) (x : Q) (inter : bool) (ders : Z)
    : outcome buf :=
  if (ders =? 0)%Z then
    if inter then raw_value_inter p out x
    else raw_value_no_inter p out x
  else if (ders <? 0)%Z then raw_integral p out x inter (Z.to_nat (- ders))
  else
    if inter then raw_deriv_inter p out x (Z.to_nat ders)
    else raw_deriv_no_inter p out x (Z.to_nat ders).

(** The three-term recurrence of [operator()] for [ders == 0]. *)
Definition orth_value (p : t) (out : buf) (x : Q) : outcome buf :=
  let i0 := b2n (intercept p) in
  let n := length (alpha p) in
  let out := <[0 := Fin 1]> out in
  out ←
    (if 0 <? n then
       a0 ← rd (alpha p) 0;
       r ← for_up 1 (n - 1) (λ c st,
             let '(out, old) := st in
             ac ← rd (alpha p) c;
             prev ← rdb out (c - 1 + i0);
             n1 ← rd (norm2 p) (c + 1);
             n0 ← rd (norm2 p) c;
             Ok (<[c + i0 :=
                     dsub (dmul (Fin (x - ac)) prev)
                          (dmul (qdiv n1 n0) old)]> out, prev))
             (<[0 + i0 := Fin (x - a0)]> out, Fin 1);
       Ok r.1
     else Ok out);
  for_up 1 n (λ j out,
    v ← rdb out (j - 1 + i0);
    sq ← rd (sqrt_norm2 p) (j + 1);
    Ok (<[j - 1 + i0 := ddiv v sq]> out)) out.

(** The product with [orth_map] of [operator()] for [ders != 0]: the
    state is [(out, g)], [g] the offset of the iterator in [orth_map]. *)
Definition orth_mapped (p : t) (out : buf) (x : Q) (ders : Z)
    : outcome buf :=
  let i0 := b2n (intercept p) in
  let n := length (alpha p) in
  wk_mem ← eval_raw p ∅ x true ders;
  let out := fill out (n_basis_v p) (Fin 0) in
  st ← for_up 0 (n_basis_v p) (λ i st,
         let '(out, g) := st in
         w ← rdb wk_mem 0;
         m ← rd (orth_map p) g;
         Ok (<[i := dmul w (Fin m)]> out, S g))
         (out, if intercept p then 0 else 1);
  st ← for_up 0 n (λ j st,
         w ← rdb wk_mem (j + 1);
         for_up j (n - j) (λ i st,
           let '(out, g) := st in
           m ← rd (orth_map p) g;
           o ← rdb out (i + i0);
           Ok (<[i + i0 := dadd o (dmul w (Fin m))]> out, S g)) st) st;
  Ok st.1.

(** [orth_poly::operator()] *)
Definition eval (p : t) (out : buf) (x : Q) (ders : Z) : outcome buf :=
  if raw p then eval_raw p out x (intercept p) ders
  else if (ders =? 0)%Z then orth_value p out x
  else orth_mapped p out x ders.

Definition n_basis (p : t) : nat := n_basis_v p.
Definition n_wmem (p : t) : nat :=
  if intercept p then n_basis_v p else n_basis_v p + 1.

Definition set_lower_limit (x : Q) (p : t) : t :=
  mk x (alpha p) (norm2 p) (sqrt_norm2 p) (raw p) (intercept p)
     (n_basis_v p) (orth_map p).

(** Modelled from the spec: the constructor for [raw == true] is defined
    in bases.cpp, which is not part of the sources at hand. Raw mode
    evaluates [x^0 .. x^degree] with an intercept and [x^1 .. x^degree]
    without, so [n_basis_v] is [degree + intercept]; [lower_limit] is
    zero-initialised. *)
Definition raw_poly (degree : nat) (intercept : bool) : t :=
  mk 0 [] [] [] true intercept (degree + b2n intercept) [].

End orth_poly.

(** ** binary64: the antiderivative of a raw polynomial in floating point *)

(** The branch [ders < 0] of [orth_poly::eval_raw] once more, this time
    over the binary64 numbers of the kernel, with their rounding,
    infinities and NaN: the same loops as [orth_poly.raw_integral], each
    operation of the source being one operation on [float]. *)
Module binary64.
Import PrimFloat.

(** [static_cast<double>(n)] for a [vajoint_uint] [n]; the conversion is
    exact. *)
Definition of_uint (n : nat) : float :=
  of_uint63 (Uint63.of_Z (Z.of_nat n mod Z.of_N vajoint_uint_modulus)).

(** A [bool] used as a number. *)
Definition of_bool (b : bool) : float := if b then one else zero.

(** The state of the second loop is [(out, val_upper, val_lower)];
    [uders] is [-ders]. *)
Definition raw_integral (n_basis_v : nat) (lower_limit : float)
    (out : gmap nat float) (x : float) (inter : bool) (uders : nat)
    : outcome (gmap nat float) :=
  let ll := lower_limit in
  '(val_upper, val_lower) ←
    for_up 2 (uders - 1) (λ i st,
      let '(vu, vl) := st in
      Ok (vu * (x / of_uint i), vl * (ll / of_uint i))%float) (x, ll);
  let '(val_upper, val_lower) :=
    if inter then (val_upper, val_lower)
    else (val_upper * (x / of_uint (uders + 1)),
          val_lower * (x / of_uint (uders + 1)))%float in
  r ← for_up 0 n_basis_v (λ c st,
        let '(out, vu, vl) := st in
        let out := <[c := (vu - vl)%float]> out in
        let d := of_uint (c + uders + 1 + orth_poly.b2n inter) in
        let vu := (vu * (x / d))%float in
        let vl := (vl * (ll / d))%float in
        if uders <? c + 1 - orth_poly.b2n inter then
          Ok (out, vu * (of_uint c + 1 + of_bool inter),
              vl * (of_uint c + 1 + of_bool inter))%float
        else Ok (out, vu, vl)) (out, val_upper, val_lower);
  Ok r.1.1.

(** [2^600], a finite number whose square is not. *)
Definition two_600 : float := 0x1p+600.

End binary64.

(** ** The polymorphic basis *)

(** An object behind a [basisMixin] pointer, with its dynamic type. *)
Inductive basisMixin : Type :=
| SplineBasis_ (s : SplineBasis.t)
| bs_ (b : bs.t)
| ns_ (n : ns.t)
| iSpline_ (s : iSpline.t)
| mSpline_ (s : mSpline.t)
| orth_poly_ (p : orth_poly.t).

Definition n_basis (b : basisMixin) : nat :=
  match b with
  | SplineBasis_ s => SplineBasis.n_basis s
  | bs_ b => bs.n_basis b
  | ns_ n => ns.n_basis n
  | iSpline_ s => iSpline.n_basis s
  | mSpline_ s => mSpline.n_basis s
  | orth_poly_ p => orth_poly.n_basis p
  end.

Definition n_wmem (b : basisMixin) : nat :=
  match b with
  | SplineBasis_ s => SplineBasis.n_wmem s
  | bs_ b => bs.n_wmem b
  | ns_ n => ns.n_wmem n
  | iSpline_ s => iSpline.n_wmem s
  | mSpline_ s => mSpline.n_wmem s
  | orth_poly_ p => orth_poly.n_wmem p
  end.

(** The virtual [operator()(double *out, double *wk_mem, x, ders)]. *)
Definition eval (b : basisMixin) (out : buf) (x : Q) (ders : Z)
    : outcome buf :=
  match b with
  | SplineBasis_ s => SplineBasis.eval s out x ders
  | bs_ b => bs.eval b out x ders
  | ns_ n => ns.eval n out x ders
  | iSpline_ s => iSpline.eval s out x ders
  | mSpline_ s => mSpline.eval s out x ders
  | orth_poly_ p => orth_poly.eval p out x ders
  end.

(** [basisMixin::set_lower_limit] *)
Definition set_lower_limit (x : Q) (b : basisMixin) : basisMixin :=
  match b with
  | SplineBasis_ s => SplineBasis_ (SplineBasis.set_lower_limit x s)
  | bs_ b => bs_ (bs.set_lower_limit x b)
  | ns_ n => ns_ (ns.set_lower_limit x n)
  | iSpline_ s => iSpline_ (iSpline.set_lower_limit x s)
  | mSpline_ s => mSpline_ (mSpline.set_lower_limit x s)
  | orth_poly_ p => orth_poly_ (orth_poly.set_lower_limit x p)
  end.

(** The allocating [operator()(x, wk_mem, ders)]: a vector of [n_basis()]
    cells filled through the virtual call. *)
Definition eval_vec (b : basisMixin) (x : Q) (ders : Z)
    : outcome (list dbl) :=
  out ← eval b ∅ x ders;
  rd_range out 0 (n_basis b).

(** ** The quadrature rule of test-survival-term.cpp *)

(** The Gauss-Legendre rule of the tests, mapped to the unit interval:
    the arrays [ns] and [ws] of [n_nodes] cells, digit for digit. *)
Module rule.

Definition n_nodes : nat := 100.

Definition ns : list Q := [
  0.999856863386721; 0.999245975319798; 0.998147567366563; 0.996562468518722;
  0.994492197621496; 0.991938770353028; 0.988904679243459; 0.985392887881853;
  0.981406827127908; 0.976950391462746; 0.972027935068128; 0.96664426752154;
  0.960804649072667; 0.954514785491265; 0.947780822485363; 0.940609339692509;
  0.933007344248582; 0.924982263939796; 0.9165419399442; 0.907694619169588;
  0.898448946195157; 0.888813954824748; 0.878799059259854; 0.86841404490101;
  0.857669058786528; 0.846574599677901; 0.835141507801571; 0.823380954257065;
  0.811304430101854; 0.798923735123589; 0.786250966310691; 0.773298506032547;
  0.760079009940882; 0.746605394604095; 0.732890824886679; 0.718948701086016;
  0.704792645839151; 0.690436490812315; 0.675894263186211; 0.661180171950264;
  0.646308594019236; 0.631294060185752; 0.616151240922487; 0.600894932047868;
  0.585540040269302; 0.570101568618057; 0.55459460179003; 0.539034291406718;
  0.523435841210796; 0.507814492210772; 0.492185507789228; 0.476564158789204;
  0.460965708593282; 0.445405398209969; 0.429898431381943; 0.414459959730698;
  0.399105067952132; 0.383848759077513; 0.368705939814248; 0.353691405980764;
  0.338819828049735; 0.324105736813789; 0.309563509187685; 0.295207354160849;
  0.281051298913984; 0.267109175113321; 0.253394605395905; 0.239920990059119;
  0.226701493967453; 0.213749033689309; 0.201076264876411; 0.188695569898146;
  0.176619045742935; 0.16485849219843; 0.153425400322099; 0.142330941213472;
  0.13158595509899; 0.121200940740146; 0.111186045175252; 0.101551053804843;
  0.0923053808304122; 0.0834580600557998; 0.0750177360602048; 0.0669926557514177;
  0.059390660307491; 0.0522191775146367; 0.045485214508735; 0.0391953509273331;
  0.0333557324784605; 0.0279720649318723; 0.0230496085372542; 0.0185931728720925;
  0.0146071121181469; 0.0110953207565408; 0.00806122964697142; 0.00550780237850412;
  0.00343753148127823; 0.0018524326334376; 0.000754024680202081; 0.000143136613279637
]%Q.

Definition ws : list Q := [
  0.00036731724525283; 0.00085469632675904; 0.00134196268577676; 0.0018279806006632;
  0.00231222503171107; 0.00279421400193276; 0.00327347422542265; 0.0037495366277323;
  0.00422193573483449; 0.00469020982684724; 0.00515390128743443; 0.00561255701159295;
  0.00606572883148976; 0.00651297394648573; 0.00695385535185937; 0.00738794226372056;
  0.00781481053877309; 0.00823404308807255; 0.00864523028416182; 0.00904797036106383;
  0.0094418698066875; 0.00982654374721765; 0.0102016163231046; 0.010566721056264;
  0.0109215012081237; 0.0112656101281682; 0.0115987115926271; 0.0119204801329841;
  0.0122306013539787; 0.0125287722407897; 0.0128147014551038; 0.0130881096197728;
  0.0133487295917854; 0.0135963067232884; 0.0138305991103962; 0.0140513778295507;
  0.0142584271611973; 0.0144515448005625; 0.0146305420553188; 0.0147952440299562;
  0.0149454897966664; 0.0150811325525845; 0.0152020397632271; 0.0153080932919901;
  0.0153991895155767; 0.0154752394252457; 0.0155361687137837; 0.015581917848105;
  0.0156124421274248; 0.0156277117269315; 0.0156277117269314; 0.0156124421274247;
  0.0155819178481047; 0.0155361687137839; 0.0154752394252455; 0.0153991895155768;
  0.0153080932919904; 0.0152020397632275; 0.0150811325525847; 0.0149454897966667;
  0.0147952440299567; 0.014630542055319; 0.0144515448005628; 0.0142584271611974;
  0.0140513778295502; 0.0138305991103963; 0.013596306723289; 0.0133487295917851;
  0.0130881096197728; 0.0128147014551039; 0.0125287722407895; 0.0122306013539787;
  0.0119204801329843; 0.011598711592627; 0.0112656101281685; 0.0109215012081232;
  0.0105667210562641; 0.0102016163231051; 0.00982654374721767; 0.0094418698066878;
  0.00904797036106456; 0.00864523028416149; 0.00823404308807257; 0.00781481053877307;
  0.00738794226372049; 0.00695385535185915; 0.00651297394648541; 0.00606572883148956;
  0.00561255701159312; 0.00515390128743413; 0.00469020982684725; 0.0042219357348343;
  0.00374953662773162; 0.00327347422542264; 0.00279421400193271; 0.00231222503171171;
  0.00182798060066296; 0.00134196268577661; 0.000854696326758952; 0.000367317245252787
]%Q.

End rule.

(** ** The arithmetic capability of the integrator *)

(** The integrator runs unchanged over a plain number and over a
    gradient-recording number: it is written against the operations it
    needs of the numeric type. *)
Class Arith (T : Type) : Type := {
  azero : T;
  aadd : T → T → T;
  asub : T → T → T;
  amul : T → T → T;
  aexp : T → T;
  of_Q : Q → T
}.

(** The plain numeric type, idealised: a [double] is a real number. *)
#[global] Instance R_Arith : Arith R := {|
  azero := 0%R;
  aadd := Rplus;
  asub := Rminus;
  amul := Rmult;
  aexp := exp;
  of_Q := Q2R
|}.

(** Modelled from the spec: the gradient-recording type [cfaad::Number] is
    an external collaborator, not part of the sources at hand. It behaves
    like a number for arithmetic and exposes [value()] and, after
    [propagateToStart()], the [adjoint()] of every input put on the tape:
    the partial derivative of the result with respect to that input. The
    model carries with each number its partial derivatives with respect to
    the inputs, indexed by their position on the tape; an input that the
    number does not depend on has no entry. *)
Definition Number (T : Type) : Type := (T * gmap nat T)%type.

Section Number.
Context {T : Type} `{Arith T}.

Definition value (a : Number T) : T := a.1.
Definition adjoint (a : Number T) (k : nat) : T := default azero (a.2 !! k).

(** [cfaad::convertCollection] / [putOnTape]: the input at position [k]. *)
Definition on_tape (k : nat) (q : Q) : Number T :=
  (of_Q q, {[ k := of_Q 1 ]}).

Definition grad_add (g h : gmap nat T) : gmap nat T :=
  union_with (λ x y, Some (aadd x y)) g h.

Definition grad_sub (g h : gmap nat T) : gmap nat T :=
  merge (λ x y,
    match x, y with
    | Some x, Some y => Some (asub x y)
    | Some x, None => Some x
    | None, Some y => Some (asub azero y)
    | None, None => None
    end) g h.

#[global] Instance Number_Arith : Arith (Number T) := {|
  azero := (azero, ∅);
  aadd a b := (aadd a.1 b.1, grad_add a.2 b.2);
  asub a b := (asub a.1 b.1, grad_sub a.2 b.2);
  amul a b := (amul a.1 b.1,
               grad_add (amul b.1 <$> a.2) (amul a.1 <$> b.2));
  aexp a := (aexp a.1, amul (aexp a.1) <$> a.2);
  of_Q q := (of_Q q, ∅)
|}.
End Number.

(** ** The quadrature-based integrator *)

(** The finite values of a vector, if all its cells are finite. *)
Fixpoint finite_cells (l : list dbl) : option (list Q) :=
  match l with
  | [] => Some []
  | Fin q :: l' => cons q <$> finite_cells l'
  | NonFin :: _ => None
  end.

(** One basis evaluated at [x] with the order [d]; [None] when a cell is
    not a finite number. *)
Definition basis_at (b : basisMixin) (x : Q) (d : Z)
    : outcome (option (list Q)) :=
  v ← eval_vec b x d; Ok (finite_cells v).

(** The markers' bases evaluated at [x], each with its own order. *)
Fixpoint bases_at (bases : list basisMixin) (ders : list Z) (x : Q)
    : outcome (option (list (list Q))) :=
  match bases, ders with
  | b :: bases', d :: ders' =>
      m ← basis_at b x d;
      ms ← bases_at bases' ders' x;
      Ok (m' ← m; ms' ← ms; Some (m' :: ms'))
  | _, _ => Ok (Some [])
  end.

(** [{ns, ws, n_nodes}]: the rule handed to every integral. *)
Record node_weight : Type := mk_node_weight {
  nw_ns : list Q;
  nw_ws : list Q;
  nw_n_nodes : nat
}.

(** What the integrand needs at one node: the rescaled weight, the
    baseline basis and the markers' bases. *)
Record node_data : Type := mk_node_data {
  nd_weight : Q;
  nd_g : list Q;
  nd_ms : list (list Q)
}.

Section hazard.
Context {T : Type} `{Arith T}.

Fixpoint dot (a b : list T) : T :=
  match a, b with
  | x :: a', y :: b' => aadd (amul x y) (dot a' b')
  | _, _ => azero
  end.

(** The stacked marker bases, each scaled by its association
    coefficient, followed by the unit term of the frailty. *)
Fixpoint M_alpha (ms : list (list Q)) (alpha : list T) : list T :=
  match ms, alpha with
  | m :: ms', a :: alpha' =>
      ((λ v, amul a (of_Q v)) <$> m) ++ M_alpha ms' alpha'
  | _, _ => [of_Q 1]
  end.

(** [Psi v] for the column-major [dim] by [dim] matrix [Psi]: a sum of
    scaled columns. *)
Fixpoint mat_times (Psi : list T) (dim : nat) (v : list T) : list T :=
  match v with
  | [] => replicate dim azero
  | vj :: v' =>
      zip_with aadd (amul vj <$> take dim Psi)
                    (mat_times (drop dim Psi) dim v')
  end.

(** The linear predictor
    [fixed . Z + g(x) . omega + Ma . zeta + 1/2 Ma' Psi Ma]. *)
Definition linear_predictor (Z : list Q) (delta omega alpha zeta Psi : list T)
    (nd : node_data) : T :=
  let Ma := M_alpha (nd_ms nd) alpha in
  aadd (aadd (aadd (dot (of_Q <$> Z) delta)
                   (dot (of_Q <$> nd_g nd) omega))
             (dot Ma zeta))
       (amul (of_Q (1 # 2)) (dot Ma (mat_times Psi (length zeta) Ma))).

(** The accumulation over the nodes. *)
Definition hazard_sum (Z : list Q) (delta omega alpha zeta Psi : list T)
    (table : list node_data) : T :=
  foldl (λ acc nd,
           aadd acc (amul (of_Q (nd_weight nd))
                          (aexp (linear_predictor Z delta omega alpha
                                   zeta Psi nd))))
        azero table.
End hazard.

(** Modelled from the spec: the class [survival::expected_cum_hazzard] is
    defined in survival-term.h, which is not part of the sources at hand.
    It is built from the baseline basis, the markers' bases, the number of
    fixed effects and one derivative order per marker (the tests pass each
    order as a one-element list); a list of orders whose length is not the
    number of markers is rejected at construction. Its call rescales the
    rule to [lower, upper] (node [n * (upper - lower) + lower], weight
    [w * (upper - lower)]), evaluates all bases at each node, and
    accumulates the weighted exponential of the linear predictor. *)
Module expected_cum_hazzard.

Record t : Type := mk {
  b : basisMixin;
  bases_rng : list basisMixin;
  n_fixef : nat;
  ders : list Z
}.

Definition make (b : basisMixin) (bases_rng : list basisMixin)
    (n_fixef : nat) (ders : list Z) : outcome t :=
  if length ders =? length bases_rng
  then Ok (mk b bases_rng n_fixef ders)
  else Throw "ConfigurationMismatch".

(** The bases at every node of the rescaled rule. *)
Fixpoint table (c : t) (ns ws : list Q) (lower upper : Q)
    : outcome (option (list node_data)) :=
  match ns, ws with
  | n :: ns', w :: ws' =>
      let x := (n * (upper - lower) + lower)%Q in
      g ← basis_at (b c) x 0;
      ms ← bases_at (bases_rng c) (ders c) x;
      rest ← table c ns' ws' lower upper;
      Ok (g' ← g; ms' ← ms; rest' ← rest;
          Some (mk_node_data (w * (upper - lower))%Q g' ms' :: rest'))
  | _, _ => Ok (Some [])
  end.

(** The call operator. *)
Definition eval {T : Type} `{Arith T} (c : t) (nws : node_weight)
    (lower upper : Q) (Z : list Q) (delta omega alpha zeta Psi : list T)
    : outcome (option T) :=
  mbind (M := outcome)
    (λ tbl, Ok (hazard_sum Z delta omega alpha zeta Psi <$> tbl))
    (table c (take (nw_n_nodes nws) (nw_ns nws))
             (take (nw_n_nodes nws) (nw_ws nws)) lower upper).

End expected_cum_hazzard.

(** ** The survival outcome aggregator *)

(** [simple_mat<double>]: a column-major matrix, one column per subject. *)
Record simple_mat : Type := mk_simple_mat {
  sm_mem : list Q;
  sm_n_rows : nat;
  sm_n_cols : nat
}.

Definition sm_col (m : simple_mat) (j : nat) : list Q :=
  take (sm_n_rows m) (drop (j * sm_n_rows m) (sm_mem m)).

(** Modelled from the spec: the class [survival::survival_dat] and the
    parameter layout [subset_params] are defined in headers that are not
    part of the sources at hand. The layout gives, in the flat parameter
    buffer, the offset of each outcome's fixed effects, time-varying
    coefficients and association coefficients, and of the shared latent
    mean and covariance. The latent vector holds the markers' entries
    followed by one frailty entry per outcome type; the slice of an outcome
    type keeps the markers' entries and its own frailty entry. *)
Module survival_dat.

Record obs_input : Type := mk_obs_input {
  n_obs : nat;
  lbs : list Q;
  ubs : list Q;
  event : list bool
}.

Record subset_params : Type := mk_subset_params {
  fixef_surv : nat → nat;
  fixef_vary_surv : nat → nat;
  association : nat → nat;
  va_mean : nat;
  va_vcov : nat;
  n_shared : nat;
  n_shared_surv : nat
}.

Record t : Type := mk {
  bases_fix : list basisMixin;
  bases_rng : list basisMixin;
  design_mats : list simple_mat;
  par_idx : subset_params;
  input : list obs_input;
  ders : list (list Z)
}.

Definition n_outcomes (s : t) : nat := length (input s).
Definition n_terms (s : t) (i : nat) : nat :=
  default 0 (n_obs <$> input s !! i).

Section eval.
Context {T : Type} `{Arith T}.

(** [n] parameters starting at offset [p]. *)
Definition block (par : list T) (p n : nat) : list T :=
  take n (drop p par).

(** The entries of the latent vector kept for outcome type [i]. *)
Definition slice_index (s : t) (i : nat) : list nat :=
  seq 0 (n_shared (par_idx s)) ++ [n_shared (par_idx s) + i].

Definition zeta_slice (s : t) (par : list T) (i : nat) : list T :=
  (λ k, default azero (par !! (va_mean (par_idx s) + k)))
    <$> slice_index s i.

(** The slice of the column-major covariance matrix, column by
    column. *)
Definition Psi_slice (s : t) (par : list T) (i : nat) : list T :=
  let dim := n_shared (par_idx s) + n_shared_surv (par_idx s) in
  c ← slice_index s i;
  (λ r, default azero (par !! (va_vcov (par_idx s) + r + c * dim)))
    <$> slice_index s i.

Definition neg (a : T) : T := asub azero a.

(** [- fixed . Z - g(upper) . omega - alpha . M' zeta - zeta_last]:
    the negative log-hazard at the event time. *)
Definition event_term (Z : list Q) (delta omega alpha zeta : list T)
    (g : list Q) (ms : list (list Q)) : T :=
  let Ma := M_alpha ms alpha in
  asub (asub (asub (neg (dot (of_Q <$> Z) delta))
                   (dot (of_Q <$> g) omega))
             (dot (take (length Ma - 1) Ma) zeta))
       (default azero (last zeta)).

(** The contribution of subject [j] of outcome type [i]: the event
    term, when the event indicator is set, plus the integral. *)
Definition eval (s : t) (par : list T) (j i : nat) (nws : node_weight)
    : outcome (option T) :=
  match bases_fix s !! i, design_mats s !! i, input s !! i,
        ders s !! i with
  | Some g, Some Zs, Some info, Some d =>
      match lbs info !! j, ubs info !! j, event info !! j with
      | Some lower, Some upper, Some y =>
          let Z := sm_col Zs j in
          let delta :=
            block par (fixef_surv (par_idx s) i) (sm_n_rows Zs) in
          let omega :=
            block par (fixef_vary_surv (par_idx s) i) (n_basis g) in
          let alpha :=
            block par (association (par_idx s) i)
                  (length (bases_rng s)) in
          let zeta := zeta_slice s par i in
          let Psi := Psi_slice s par i in
          let c :=
            expected_cum_hazzard.mk g (bases_rng s) (sm_n_rows Zs) d in
          integral ←
            expected_cum_hazzard.eval c nws lower upper Z delta omega
              alpha zeta Psi;
          if y : bool then
            gu ← basis_at g upper 0;
            mu ← bases_at (bases_rng s) d upper;
            Ok (gu' ← gu; mu' ← mu; int ← integral;
                Some (aadd (event_term Z delta omega alpha zeta gu' mu')
                           int))
          else Ok integral
      | _, _, _ => Fault
      end
  | _, _, _, _ => Fault
  end.
End eval.

End survival_dat.

(** ** The reference scenario of test-survival-term.cpp *)

(** The constants of the test "expected_cum_hazzard gives the correct
    result", digit for digit. *)
Module scenario.

Definition z : list Q := [1; (-0.5); 0.33]%Q.
Definition delta : list Q := [0.1; 0.2; (-0.3)]%Q.
Definition alpha : list Q := [0.1; 0.4; (-0.2)]%Q.
Definition omega : list Q := [0.2; (-0.33)]%Q.
Definition zeta : list Q := [
  (-0.1); (-0.186); (-0.049); 0.015;
  (-0.056); 0.114; (-0.126); 0.7
]%Q.
Definition Psi : list Q := [
  0.294; 0.109; (-0.132); 0.049;
  (-0.053); 0.037; (-0.005); (-0.009);
  0.109; 0.588; (-0.158); (-0.017);
  (-0.279); (-0.131); 0.057; 0.042;
  (-0.132); (-0.158); 0.461; 0.132;
  0.185; (-0.01); 0.096; (-0.01);
  0.049; (-0.017); 0.132; 0.333;
  0.047; 0.038; (-0.02); (-0.119);
  (-0.053); (-0.279); 0.185; 0.047;
  0.487; 0.067; (-0.111); (-0.057);
  0.037; (-0.131); (-0.01); 0.038;
  0.067; 0.296; (-0.029); (-0.058);
  (-0.005); 0.057; 0.096; (-0.02);
  (-0.111); (-0.029); 0.408; 0.035;
  (-0.009); 0.042; (-0.01); (-0.119);
  (-0.057); (-0.058); 0.035; 0.237
]%Q.

Definition lb1 : Q := 0.
Definition ub1 : Q := 2.
Definition lb2 : Q := 1.
Definition ub2 : Q := 3.
Definition true_val1 : Q := 3.66100103931602.
Definition true_val2 : Q := 4.19535676757197.

Definition gr1 : list Q := [
  3.66100103883071; (-1.83050051941535); 1.20813034296761;
  3.42918046430273; 4.4106573267205; (-1.6246994498572);
  3.16498025440435; (-0.687486072574645); 0.366100103838971;
  0.342918046455012; 1.46440041545206; 1.371672186477;
  1.76426293173328; (-0.732200208058255); (-0.685836092990732);
  3.66100103939786; 0.0183050050597476; 0.0171459024689582;
  0.0732200207545565; 0.068583609268588; 0.0882131467175713;
  (-0.0366100092407855); (-0.0342918151909225); 0.183050051180727;
  0.0171459024689582; 0.0220532865467495; 0.0685836090128747;
  0.0882131460840674; 0.129601047313787; (-0.034291804711143);
  (-0.0441065736611287); 0.17145902296696; 0.0732200207545565;
  0.0685836090128747; 0.292880083117788; 0.274334437573024;
  0.35285258611587; (-0.146440042696389); (-0.137167218198237);
  0.732200208441336; 0.068583609268588; 0.0882131460840674;
  0.274334437573024; 0.352852586225271; 0.518404189825079;
  (-0.137167217730308); (-0.176426293334296); 0.685836092756295;
  0.0882131467175713; 0.129601047313784; 0.35285258613863;
  0.518404189825079; 0.819070183872609; (-0.176426292755572);
  (-0.25920209489517); 0.882131465487062; (-0.0366100092407855);
  (-0.034291804711143); (-0.146440042696389); (-0.137167217730308);
  (-0.176426292755572); 0.0732200207972134; 0.0685836092897979;
  (-0.366100104167798); (-0.0342918151909225); (-0.0441065736611012);
  (-0.137167218198237); (-0.176426293334296); (-0.259202094626022);
  0.0685836084048065; 0.0882131465370985; (-0.342918047199904);
  0.183050051180727; 0.17145902296696; 0.732200208441336;
  0.685836092756295; 0.882131465487062; (-0.366100104167798);
  (-0.342918047933183); 1.83050051953017
]%Q.
Definition gr2 : list Q := [
  4.19535676741652; (-2.09767838370826); 1.38446773339962;
  9.08862977590842; 21.2931572851835; (-7.31938925798106);
  31.5115790008941; (-3.93046899110043); 0.419535676520029;
  0.908862977519579; 1.67814270705777; 3.63545190818828;
  8.51726291308962; (-0.839071353751239); (-1.8177259550839);
  4.19535676754135; 0.0209767839346527; 0.0454431488565312;
  0.0839071352485557; 0.181772595700282; 0.425863145996658;
  (-0.0419535673592843); (-0.0908863164064654); 0.209767833938893;
  0.0454431488565312; 0.106465786465339; 0.18177259551448;
  0.425863144529527; 1.05488916587426; (-0.0908862973834766);
  (-0.212931573482166); 0.454431490473678; 0.0839071352505494;
  0.18177259546119; 0.335628541527436; 0.727090381980296;
  1.70345258301744; (-0.167814276925219); (-0.363545190903175);
  0.839071354593133; 0.181772594652741; 0.425863144529527;
  0.727090382369155; 1.70345258262788; 4.21955666360319;
  (-0.363545192501694); (-0.85172629128636); 1.81772595483077;
  0.425863146801342; 1.0548891658752; 1.70345258325081;
  4.21955666251104; 10.8606650093518; (-0.851726291359716);
  (-2.10977833201371); 4.25863145608917; (-0.0419535675868855);
  (-0.0908862973834766); (-0.167814266633001); (-0.363545192487844);
  (-0.851726291607169); 0.083907135469042; 0.181772596328033;
  (-0.419535676547273); (-0.0908863044560012); (-0.212931572581648);
  (-0.363545190900434); (-0.851726288706805); (-2.10977833201132);
  0.181772596327979; 0.425863145852749; (-0.908862977753331);
  0.209767834845172; 0.454431489251547; 0.839071354593133;
  1.8177259552599; 4.2586314580333; (-0.419535676547273);
  (-0.908862977512679); 2.09767838381014
]%Q.

End scenario.

(** The objects built by the test. *)
Definition reference_rule : node_weight :=
  mk_node_weight rule.ns rule.ws rule.n_nodes.

Definition reference_bases_rng : list basisMixin :=
  [orth_poly_ (orth_poly.raw_poly 1 true);
   orth_poly_ (orth_poly.raw_poly 2 true);
   orth_poly_ (orth_poly.raw_poly 1 true)].

Definition reference_comp_obj : expected_cum_hazzard.t :=
  expected_cum_hazzard.mk (orth_poly_ (orth_poly.raw_poly 2 false))
    reference_bases_rng 3 [0; 0; 0]%Z.

(** The inputs in the order the test reads their adjoints: [delta],
    [omega], [alpha], [zeta], [Psi]. *)
Section reference_run.
Context {T : Type} `{Arith T}.

Definition to_tape (start : nat) (l : list Q) : list (Number T) :=
  imap (λ k q, on_tape (start + k) q) l.

(** The plain run of the test over [lower, upper]. *)
Definition reference_value (lower upper : Q) : outcome (option T) :=
  expected_cum_hazzard.eval reference_comp_obj reference_rule lower upper
    scenario.z (of_Q <$> scenario.delta) (of_Q <$> scenario.omega)
    (of_Q <$> scenario.alpha) (of_Q <$> scenario.zeta)
    (of_Q <$> scenario.Psi).

(** The gradient-recording run of the test over [lower, upper]. *)
Definition reference_gradient (lower upper : Q)
    : outcome (option (Number T)) :=
  expected_cum_hazzard.eval reference_comp_obj reference_rule lower upper
    scenario.z (to_tape 0 scenario.delta) (to_tape 3 scenario.omega)
    (to_tape 5 scenario.alpha) (to_tape 8 scenario.zeta)
    (to_tape 16 scenario.Psi).
End reference_run.

(** ** Fixed-point interval arithmetic *)

(** Enclosures of real numbers, used to bound the results of the plain and
    of the gradient-recording run: the interval [mk lo hi] stands for the
    reals between [lo / 2 ^ prec] and [hi / 2 ^ prec]. The bounds are
    machine-word integers so that the enclosures can be computed. *)
Module ival.

Definition prec : bigZ := 50%bigZ.
Definition one : bigZ := (2 ^ prec)%bigZ.

Record t : Type := mk { lo : bigZ; hi : bigZ }.

(** Division rounded up. *)
Definition cdiv (n d : bigZ) : bigZ := (- ((- n) / d))%bigZ.

Definition add (a b : t) : t := mk (lo a + lo b)%bigZ (hi a + hi b)%bigZ.
Definition sub (a b : t) : t := mk (lo a - hi b)%bigZ (hi a - lo b)%bigZ.

Definition mul (a b : t) : t :=
  let p1 := (lo a * lo b)%bigZ in
  let p2 := (lo a * hi b)%bigZ in
  let p3 := (hi a * lo b)%bigZ in
  let p4 := (hi a * hi b)%bigZ in
  mk (BigZ.min (BigZ.min p1 p2) (BigZ.min p3 p4) / one)%bigZ
     (cdiv (BigZ.max (BigZ.max p1 p2) (BigZ.max p3 p4)) one).

Definition from_Q (q : Q) : t :=
  let n := BigZ.of_Z (Qnum q) in
  let d := BigZ.of_Z (Zpos (Qden q)) in
  mk (n * one / d)%bigZ (cdiv (n * one) d).

(** [n] further terms of the series of [exp (- A / B)]: from
    [s / d = sum_{j <= k} (- A / B) ^ j / j!], [pw = (- A) ^ k] and
    [d = B ^ k * k!] to the same for [k + n]. *)
Fixpoint taylor (n : nat) (A B k s pw d : bigZ) : bigZ * bigZ :=
  match n with
  | O => (s, d)
  | S n' =>
      let k' := (k + 1)%bigZ in
      let pw' := (pw * - A)%bigZ in
      taylor n' A B k' (s * (B * k') + pw')%bigZ pw' (d * (B * k'))%bigZ
  end.

(** Half the number of terms of the upper sum. *)
Definition half_terms : nat := 8.

(** A bound [m >= |a| / one], at least 1. *)
Definition reduction (a : bigZ) : bigZ :=
  BigZ.max 1 (cdiv (BigZ.abs a) one).

(** A lower bound of [exp (a / one) * one]. *)
Definition exp_down (a : bigZ) : bigZ :=
  let m := reduction a in
  if (a <=? 0)%bigZ then
    let '(s, d) :=
      taylor (S (2 * half_terms)) (BigZ.abs a) (one * m) 0 1 1 1 in
    (BigZ.max 0 s ^ m * one / d ^ m)%bigZ
  else
    let '(s, d) :=
      taylor (2 * half_terms) (BigZ.abs a) (one * m) 0 1 1 1 in
    (d ^ m * one / s ^ m)%bigZ.

(** An upper bound of [exp (a / one) * one]. *)
Definition exp_up (a : bigZ) : bigZ :=
  let m := reduction a in
  if (a <=? 0)%bigZ then
    let '(s, d) :=
      taylor (2 * half_terms) (BigZ.abs a) (one * m) 0 1 1 1 in
    cdiv (s ^ m * one) (d ^ m)
  else
    let '(s, d) :=
      taylor (S (2 * half_terms)) (BigZ.abs a) (one * m) 0 1 1 1 in
    if (0 <? s)%bigZ then cdiv (d ^ m * one) (s ^ m)
    else (3 ^ m * one)%bigZ.

Definition exp (a : t) : t := mk (exp_down (lo a)) (exp_up (hi a)).

#[global] Instance ival_Arith : Arith t := {|
  azero := mk 0 0;
  aadd := add;
  asub := sub;
  amul := mul;
  aexp := exp;
  of_Q := from_Q
|}.

(** The interval lies within the relative distance [eps] of [v]. *)
Definition within (eps v : Q) (a : t) : bool :=
  let tol := (eps * Qabs v)%Q in
  Qle_bool ((v - tol) * inject_Z (BigZ.to_Z one)) (inject_Z (BigZ.to_Z (lo a)))
  && Qle_bool (inject_Z (BigZ.to_Z (hi a)))
              ((v + tol) * inject_Z (BigZ.to_Z one)).

End ival.

(** ** The aggregation scenario of test-survival-term.cpp *)

(** The constants of the test "survival_dat gives the correct result",
    digit for digit; the event indicators 1 and 0 are read as booleans. *)
Module aggregation.

Definition delta1 : list Q := [0.1; 0.33]%Q.
Definition delta2 : list Q := [0.55]%Q.
Definition omega1 : list Q := [0.2; (-0.33)]%Q.
Definition omega2 : list Q := [0.43]%Q.
Definition alpha1 : list Q := [0.1; 0.4; (-0.2)]%Q.
Definition alpha2 : list Q := [0.11; (-0.2); 0.25]%Q.
Definition zeta : list Q := [
  (-0.1); (-0.186); (-0.049); 0.015;
  (-0.056); 0.114; (-0.126); 0.7;
  0.22
]%Q.
Definition Psi : list Q := [
  0.294; 0.109; (-0.132); 0.049;
  (-0.053); 0.037; (-0.005); (-0.009);
  0.065; 0.109; 0.588; (-0.158);
  (-0.017); (-0.279); (-0.131); 0.057;
  0.042; 0.005; (-0.132); (-0.158);
  0.461; 0.132; 0.185; (-0.01);
  0.096; (-0.01); (-0.05); 0.049;
  (-0.017); 0.132; 0.333; 0.047;
  0.038; (-0.02); (-0.119); 0.059;
  (-0.053); (-0.279); 0.185; 0.047;
  0.487; 0.067; (-0.111); (-0.057);
  0.039; 0.037; (-0.131); (-0.01);
  0.038; 0.067; 0.296; (-0.029);
  (-0.058); (-0.031); (-0.005); 0.057;
  0.096; (-0.02); (-0.111); (-0.029);
  0.408; 0.035; (-0.104); (-0.009);
  0.042; (-0.01); (-0.119); (-0.057);
  (-0.058); 0.035; 0.237; (-0.001);
  0.065; 0.005; (-0.05); 0.059;
  0.039; (-0.031); (-0.104); (-0.001);
  0.357
]%Q.
Definition lbs1 : list Q := [0; 1]%Q.
Definition ubs1 : list Q := [1.33; 2.5]%Q.
Definition event1 : list bool := [true; false].
Definition lbs2 : list Q := [0; 0.67; 0.25]%Q.
Definition ubs2 : list Q := [2.1; 1.8; 1.1]%Q.
Definition event2 : list bool := [false; true; true].
Definition true_val : Q := 18.128321562534.
Definition Z1 : list Q := [1; (-0.5); 0.33; 0.4]%Q.
Definition Z2 : list Q := [1; (-1); 0.33]%Q.

End aggregation.

(** The layout of the test: the markers' parameters, the survival
    outcomes' parameters, the covariance matrices of the markers, and the
    latent mean and covariance. *)
Definition reference_par_idx : survival_dat.subset_params :=
  survival_dat.mk_subset_params
    (λ i, nth i [9; 16] 0) (λ i, nth i [11; 17] 0) (λ i, nth i [13; 18] 0)
    83 92 7 2.

Definition reference_survival_dat : survival_dat.t :=
  survival_dat.mk
    [orth_poly_ (orth_poly.raw_poly 2 false);
     orth_poly_ (orth_poly.raw_poly 1 false)]
    reference_bases_rng
    [mk_simple_mat aggregation.Z1 2 2; mk_simple_mat aggregation.Z2 1 3]
    reference_par_idx
    [survival_dat.mk_obs_input 2 aggregation.lbs1 aggregation.ubs1
       aggregation.event1;
     survival_dat.mk_obs_input 3 aggregation.lbs2 aggregation.ubs2
       aggregation.event2]
    [[0; 0; 0]; [0; 0; 0]]%Z.

(** The parameter buffer of the test: zero outside the blocks it fills. *)
Definition reference_par {T : Type} `{Arith T} : list T :=
  of_Q <$> (replicate 9 0%Q ++ aggregation.delta1 ++ aggregation.omega1
            ++ aggregation.alpha1 ++ aggregation.delta2
            ++ aggregation.omega2 ++ aggregation.alpha2
            ++ replicate 62 0%Q ++ aggregation.zeta ++ aggregation.Psi).

(** The sum over all outcome types and subjects, as the test forms it. *)
Definition reference_total {T : Type} `{Arith T} : outcome (option T) :=
  foldl (λ acc ij,
           a ← acc;
           c ← survival_dat.eval reference_survival_dat reference_par
                  ij.2 ij.1 reference_rule;
           Ok (a' ← a; c' ← c; Some (aadd a' c')))
        (Ok (Some azero))
        (i ← seq 0 (survival_dat.n_outcomes reference_survival_dat);
         (λ j, (i, j)) <$> seq 0 (survival_dat.n_terms reference_survival_dat i)).

(** ** Closed forms and objects used in the statements *)

(** Every element is related to its successor. *)
Fixpoint chainb (R : Q → Q → bool) (l : list Q) : bool :=
  match l with
  | a :: (b :: _) as l' => R a b && chainb R l'
  | _ => true
  end.

Definition Qsum (l : list Q) : Q := fold_right Qplus 0%Q l.

(** The linear extrapolation [intercept + slope * (x - bk)]. *)
Definition linear_part (t0 t1 : list Q) (x bk : Q) : list dbl :=
  zip_with (λ c s, Fin (c + s * (x - bk))) t0 t1.

(** The factor [order / (knots[k + order] - knots[k])], or zero when the
    span is not positive. *)
Definition mspline_factor (order : nat) (kh kl : Q) : Q :=
  if Qltb 0 (kh - kl) then (inject_Z (Z.of_nat order) / (kh - kl))%Q
  else 0%Q.

(** A call that does not end in an exception. *)
Definition no_throw {A} (r : outcome A) : Prop := ∀ what, r ≠ Throw what.

(** The cubic B-spline on [0, 1] without interior knots. *)
Definition unit_cubic (intercept : bool) : bs.t :=
  bs.mk (SplineBasis.mk 0 4 [0; 0; 0; 0; 1; 1; 1; 1]%Q true)
        [0; 1]%Q [] intercept 4.

(** The cubic B-spline on [b0, b1] without interior knots. *)
Definition cubic_on (b0 b1 : Q) (intercept : bool) : bs.t :=
  bs.mk (SplineBasis.mk 0 4 [b0; b0; b0; b0; b1; b1; b1; b1] true)
        [b0; b1] [] intercept 4.

(** The knot-based basis of order 3 on [0, 1] with one interior knot
    placed on the upper boundary knot; [flag] is its [no_div_zero]. *)
Definition quadratic_knot_at_end (flag : bool) : SplineBasis.t :=
  SplineBasis.mk 0 3 [0; 0; 0; 1; 1; 1; 1]%Q flag.

(** A natural spline on [0, 1] with two basis functions and the
    boundary coefficients 1, ..., 8. *)
Definition unit_ns : ns.t :=
  ns.mk 0 (unit_cubic true) true (mk_mat 4 4 []) [1; 2]%Q [3; 4]%Q
        [5; 6]%Q [7; 8]%Q.

(** The partial sums of the series of [exp (- y)]. *)
Definition exp_sum (y : R) (n : nat) : R :=
  sum_f_R0 (λ j, ((- y) ^ j / INR (fact j))%R) n.

(** The reals enclosed by an interval. *)
Definition contains (i : ival.t) (r : R) : Prop :=
  (IZR (BigZ.to_Z (ival.lo i)) <= r * IZR (BigZ.to_Z ival.one)
   <= IZR (BigZ.to_Z (ival.hi i)))%R.

(** A relation between two numeric types that the operations preserve. *)
Class ArithRel {T1 T2 : Type} `{Arith T1} `{Arith T2}
    (rel : T1 → T2 → Prop) : Prop := {
  rel_zero : rel azero azero;
  rel_add a a' b b' : rel a a' → rel b b' → rel (aadd a b) (aadd a' b');
  rel_sub a a' b b' : rel a a' → rel b b' → rel (asub a b) (asub a' b');
  rel_mul a a' b b' : rel a a' → rel b b' → rel (amul a b) (amul a' b');
  rel_exp a a' : rel a a' → rel (aexp a) (aexp a');
  rel_of_Q q : rel (of_Q q) (of_Q q)
}.

(** The relation lifted to numbers that carry their gradient. *)
Definition num_rel {T1 T2 : Type} (rel : T1 → T2 → Prop)
    (a : Number T1) (b : Number T2) : Prop :=
  rel a.1 b.1 ∧ ∀ k, option_Forall2 rel (a.2 !! k) (b.2 !! k).

(** The relation lifted to the result of a call. *)
Definition res_rel {T1 T2 : Type} (rel : T1 → T2 → Prop)
    (r1 : outcome (option T1)) (r2 : outcome (option T2)) : Prop :=
  match r1, r2 with
  | Ok (Some a), Ok (Some b) => rel a b
  | Ok None, Ok None => True
  | Throw s, Throw s' => s = s'
  | Fault, Fault => True
  | _, _ => False
  end.

(** The relative tolerance of the tests. *)
Definition test_eps : Q := 1 # 1000000.

(** The check made on the enclosures of a gradient-recording run: the
    value against [v] and the adjoint of input [k] against entry [k] of
    [gr]. *)
Definition check_run (v : Q) (gr : list Q)
    (res : outcome (option (Number ival.t))) : bool :=
  match res with
  | Ok (Some r) =>
      ival.within test_eps v (value r)
      && forallb (λ kt, ival.within test_eps kt.2 (adjoint r kt.1))
                 (imap pair gr)
  | _ => false
  end.

Definition check_value (v : Q) (res : outcome (option ival.t)) : bool :=
  match res with
  | Ok (Some r) => ival.within test_eps v r
  | _ => false
  end.

(** The record of subject [j] of outcome type [i] with its event
    indicator set to [y], everything else unchanged. *)
Definition with_event (s : survival_dat.t) (i j : nat) (y : bool)
    : survival_dat.t :=
  survival_dat.mk (survival_dat.bases_fix s) (survival_dat.bases_rng s)
    (survival_dat.design_mats s) (survival_dat.par_idx s)
    (alter (λ info,
       survival_dat.mk_obs_input (survival_dat.n_obs info)
         (survival_dat.lbs info) (survival_dat.ubs info)
         (<[j := y]> (survival_dat.event info))) i (survival_dat.input s))
    (survival_dat.ders s).

(** ** The expected log hazard of the R reference *)

(** The scalar product of two vectors of reals, up to the shorter one. *)
Fixpoint Rdot (a b : list R) : R :=
  match a, b with
  | x :: a', y :: b' => (x * y + Rdot a' b')%R
  | _, _ => 0%R
  end.

(** [crossprod(M, zeta)] in the R reference of the test "survival_dat
    gives the correct result": column [j] of [M] holds the basis of
    marker [j] at the event time in the rows of its block, the blocks
    following each other, and zeros elsewhere; entry [j] of the product is
    the scalar product of that basis with its block of [zeta]. *)
Fixpoint crossprod_M (ms : list (list Q)) (zeta : list R) : list R :=
  match ms with
  | [] => []
  | m :: ms' =>
      Rdot (Q2R <$> m) zeta :: crossprod_M ms' (drop (length m) zeta)
  end.

(** The expected log hazard at the event time as the R reference forms
    it: [Zs[, idx] %*% ds + gs(upper) %*% os
    + as %*% crossprod(M, zeta[seq_len(NROW(M))]) + tail(zeta_use, 1)],
    where [M] has [length(zeta_use) - 1] rows; the reference subtracts
    each of the four terms from the total when [info$y == 1]. *)
Definition expected_log_hazard (Z : list Q) (delta omega alpha zeta : list R)
    (g : list Q) (ms : list (list Q)) : R :=
  (Rdot (Q2R <$> Z) delta + Rdot (Q2R <$> g) omega
   + Rdot alpha (crossprod_M ms (take (length zeta - 1) zeta))
   + default 0 (last zeta))%R.

(** ** Closed forms of the polynomial branches *)

(** [x^c] as the loops of [eval_raw] form it: [c] multiplications by [x],
    starting from 1. *)
Fixpoint qpow (x : Q) (c : nat) : Q :=
  match c with
  | O => 1%Q
  | S c' => (qpow x c' * x)%Q
  end.

(** The falling factorial [c (c - 1) ... (c - k + 1)]. *)
Fixpoint ffact (c k : nat) : Z :=
  match k with
  | O => 1%Z
  | S k' => (ffact c k' * (Z.of_nat c - Z.of_nat k'))%Z
  end.

(** A cell that holds a finite number equal to zero. *)
Definition is_zero (d : dbl) : Prop := ∃ q, d = Fin q ∧ (q == 0)%Q.

(** The same basis with another value of [no_div_zero]. *)
Definition with_flag (s : SplineBasis.t) (flag : bool) : SplineBasis.t :=
  SplineBasis.mk (SplineBasis.lower_limit s) (SplineBasis.order s)
    (SplineBasis.knots s) flag.

(** ** basisMixin::basis *)

(** The rows of [basisMixin::basis]: every point is evaluated into the
    same vector [wrk], which is then copied, less the centring, into the
    row of the point. *)
Fixpoint basis_rows (b : basisMixin) (ders : Z) (centering : list dbl)
    (wrk : buf) (xs : list Q) : outcome (list (list dbl)) :=
  match xs with
  | [] => Ok []
  | x :: xs' =>
      wrk ← eval b wrk x ders;
      row ← rd_range wrk 0 (n_basis b);
      rows ← basis_rows b ders centering wrk xs';
      Ok (zip_with dsub row centering :: rows)
  end.

(** [basisMixin::basis(x, wk_mem, ders, centre)]: the matrix with one row
    per point of [x]. The centre is [None] for a NaN, its default value;
    an infinite centre is not represented. The vector [wrk] starts with no
    cell written. *)
Definition basis (b : basisMixin) (xs : list Q) (ders : Z)
    (centre : option Q) : outcome (list (list dbl)) :=
  centering ←
    match centre with
    | Some c =>
        if (0 <? ders)%Z then Ok (replicate (n_basis b) (Fin 0))
        else eval_vec b c 0
    | None => Ok (replicate (n_basis b) (Fin 0))
    end;
  basis_rows b ders centering ∅ xs.

(** ** The extrapolation of a B-spline *)

(** One term of the extrapolation: [acc[i] += f * v[i]] for every cell. *)
Definition add_scaled (f : Q) (acc v : list dbl) : list dbl :=
  zip_with (λ o m, dadd o (dmul (Fin f) m)) acc v.

(** ** The running sums of an I-spline *)

(** The first loop of [iSpline::operator()] as a function of the B-spline
    cells: a cell above the cut [js] becomes zero, the last cell below it
    stays, and every other cell is added to the cell on its right, which
    has been treated before. [k] is the index of the head of the list. *)
Fixpoint running_sums (js k : nat) (l : list dbl) : list dbl :=
  match l with
  | [] => []
  | v :: l' =>
      let rest := running_sums js (S k) l' in
      (if js <? k then Fin 0
       else match rest with [] => v | r :: _ => dadd v r end) :: rest
  end.

(** The second loop, run for [ders == 0]: every cell but the last whose
    index is more than [order + 1] below the cut becomes one. *)
Definition saturated (order js : nat) (l : list dbl) : list dbl :=
  imap (λ j v,
    if (S j <? length l) && (j + order + 1 <? js) then Fin 1 else v) l.

(** The cells of a buffer that hold the finite numbers of a list. *)
Definition holds (b : buf) (qs : list Q) : Prop :=
  ∀ i q, qs !! i = Some q → b !! i = Some (Fin q).

(** * Properties *)

(** ** Comparisons *)

Lemma Qltb_lt a b : Qltb a b = true ↔ (a < b)%Q.
Proof.
  unfold Qltb. rewrite negb_true_iff. split.
  - intros H. apply Qnot_le_lt. intros Hle.
    apply Qle_bool_iff in Hle. congruence.
  - intros H. destruct (Qle_bool b a) eqn:E; [|done].
    apply Qle_bool_iff in E. exfalso. eapply Qlt_not_le; eauto.
Qed.

Lemma Qltb_ge a b : Qltb a b = false ↔ (b <= a)%Q.
Proof.
  unfold Qltb. rewrite negb_false_iff. apply Qle_bool_iff.
Qed.

(** ** Buffers *)

Lemma lookup_fill_from (out : buf) (a n : nat) (v : dbl) (i : nat) :
  foldl (λ m i, <[i:=v]> m) out (seq a n) !! i =
  if decide (a ≤ i < a + n) then Some v else out !! i.
Proof.
  revert out a. induction n as [|n IH]; intros out a; simpl.
  - case_decide; [lia|done].
  - rewrite IH. destruct (decide (i = a)) as [->|Hne].
    + rewrite lookup_insert_eq. repeat case_decide; try done; lia.
    + rewrite lookup_insert_ne; [|done]. repeat case_decide; try done; lia.
Qed.

Lemma lookup_fill (out : buf) (n : nat) (v : dbl) (i : nat) :
  fill out n v !! i = if decide (i < n) then Some v else out !! i.
Proof.
  unfold fill. rewrite lookup_fill_from.
  repeat case_decide; try done; lia.
Qed.

Lemma dom_fill (out : buf) (n : nat) (v : dbl) :
  dom (fill out n v) = set_seq 0 n ∪ dom out.
Proof.
  apply set_eq. intros i.
  rewrite elem_of_union, elem_of_set_seq, !elem_of_dom, lookup_fill.
  case_decide; [|split; [auto|intros [?|?]; [lia|done]]].
  split; [intros _; left; lia|eauto].
Qed.

Lemma lookup_copy_from (src : list dbl) (out : buf) (k i : nat) :
  foldl (λ m iv, <[iv.1:=iv.2]> m) out (imap (λ j v, (k + j, v)) src) !! i =
  if decide (k ≤ i < k + length src) then src !! (i - k) else out !! i.
Proof.
  revert out k. induction src as [|a src IH]; intros out k; simpl.
  - case_decide; [lia|done].
  - rewrite (imap_ext _ (λ j v, (S k + j, v))).
    2:{ intros j v _. unfold compose. f_equal. lia. }
    rewrite IH. simpl. destruct (decide (i = k)) as [->|Hne].
    + rewrite Nat.add_0_r, lookup_insert_eq.
      repeat case_decide; try lia. by rewrite Nat.sub_diag.
    + rewrite Nat.add_0_r, lookup_insert_ne; [|done].
      repeat case_decide; try done; try lia.
      replace (i - k) with (S (i - S k)) by lia. done.
Qed.

Lemma lookup_copy (src : list dbl) (out : buf) (i : nat) :
  copy src out !! i = if decide (i < length src) then src !! i else out !! i.
Proof.
  unfold copy. pose proof (lookup_copy_from src out 0 i) as H.
  simpl in H. rewrite H, Nat.sub_0_r.
  repeat case_decide; try done; lia.
Qed.

Lemma rd_range_ok (m : buf) (lo n : nat) (f : nat → dbl) :
  (∀ i, lo ≤ i < lo + n → m !! i = Some (f i)) →
  rd_range m lo n = Ok (f <$> seq lo n).
Proof.
  revert lo. induction n as [|n IH]; intros lo H; simpl; [done|].
  unfold rdb. rewrite (H lo) by lia. simpl.
  rewrite IH; [done|]. intros i Hi. apply H. lia.
Qed.

Lemma fmap_const_seq (v : dbl) (lo n : nat) :
  (λ _, v) <$> seq lo n = replicate n v.
Proof. revert lo. induction n; intros; simpl; [done|]. by f_equal. Qed.

Lemma rd_range_fill (n : nat) (v : dbl) :
  rd_range (fill ∅ n v) 0 n = Ok (replicate n v).
Proof.
  rewrite (rd_range_ok _ _ _ (λ _, v)).
  - by rewrite fmap_const_seq.
  - intros i Hi. rewrite lookup_fill. case_decide; [done|lia].
Qed.

(** ** I-splines outside the unit interval *)

(** The clamp as the code has it: an I-spline evaluated below 0 returns
    zeros for every order; evaluated above 1 it returns ones for order 0
    and zeros for every positive order. The comparisons are with the
    constants 0 and 1, whatever the boundary knots are. *)
Theorem C5_iSpline_clamp (s : iSpline.t) (x : Q) (ders : Z) :
  ((x < 0)%Q →
   eval_vec (iSpline_ s) x ders
   = Ok (replicate (n_basis (iSpline_ s)) (Fin 0))) ∧
  ((1 < x)%Q → ders = 0%Z →
   eval_vec (iSpline_ s) x ders
   = Ok (replicate (n_basis (iSpline_ s)) (Fin 1))) ∧
  ((1 < x)%Q → (0 < ders)%Z →
   eval_vec (iSpline_ s) x ders
   = Ok (replicate (n_basis (iSpline_ s)) (Fin 0))).
Proof.
  unfold eval_vec, eval, n_basis, iSpline.eval.
  split; [|split].
  - intros Hx. apply Qltb_lt in Hx. rewrite Hx. simpl.
    apply rd_range_fill.
  - intros Hx ->.
    assert (H0 : Qltb x 0 = false).
    { apply Qltb_ge. apply Qlt_le_weak. by apply Qlt_trans with 1%Q. }
    assert (H1 : Qle_bool x 1 = false).
    { destruct (Qle_bool x 1) eqn:E; [|done]. apply Qle_bool_iff in E.
      exfalso. eapply Qlt_not_le; eauto. }
    rewrite H0, H1. simpl. apply rd_range_fill.
  - intros Hx Hd.
    assert (H0 : Qltb x 0 = false).
    { apply Qltb_ge. apply Qlt_le_weak. by apply Qlt_trans with 1%Q. }
    assert (H1 : Qle_bool x 1 = false).
    { destruct (Qle_bool x 1) eqn:E; [|done]. apply Qle_bool_iff in E.
      exfalso. eapply Qlt_not_le; eauto. }
    rewrite H0, H1. apply Z.ltb_lt in Hd. rewrite Hd. simpl.
    apply rd_range_fill.
Qed.

(** The clamp at the cubic I-spline on the unit interval. *)
Lemma C5_iSpline_clamp_witness :
  eval_vec (iSpline_ (iSpline.mk 0 true 3 (unit_cubic true))) (-1) 2
  = Ok (replicate 4 (Fin 0)) ∧
  eval_vec (iSpline_ (iSpline.mk 0 true 3 (unit_cubic true))) 2 0
  = Ok (replicate 4 (Fin 1)) ∧
  eval_vec (iSpline_ (iSpline.mk 0 true 3 (unit_cubic true))) 2 1
  = Ok (replicate 4 (Fin 0)).
Proof.
  split; [|split].
  - destruct (C5_iSpline_clamp (iSpline.mk 0 true 3 (unit_cubic true)) (-1) 2)
      as (H & _ & _).
    apply H. reflexivity.
  - destruct (C5_iSpline_clamp (iSpline.mk 0 true 3 (unit_cubic true)) 2 0)
      as (_ & H & _).
    apply H; reflexivity.
  - destruct (C5_iSpline_clamp (iSpline.mk 0 true 3 (unit_cubic true)) 2 1)
      as (_ & _ & H).
    apply H; reflexivity.
Defined.

(** C5, failing input: the cubic I-spline with the boundary knots 2 and 3.
    Its domain is [2, 3], but [iSpline::operator()] compares [x] with 0
    and 1 where [bs::operator()] and [ns::operator()] compare it with the
    boundary knots. At 1.5, which is below the domain, order 0 gives ones
    and not zeros; at 0.5, below the domain as well, the entries are those
    of the extrapolated spline and not zeros; and at 2.5, inside the
    domain, order 0 gives ones and the first derivative zeros, as at every
    point above 1. *)
Lemma C5_clamp_ignores_boundary_knots :
  let s := iSpline.mk 0 true 3 (cubic_on 2 3 true) in
  bs.boundary_knots (iSpline.bspline s) = [2; 3]%Q ∧
  eval_vec (iSpline_ s) 1.5 0 = Ok (replicate (n_basis (iSpline_ s)) (Fin 1)) ∧
  (∃ l, eval_vec (iSpline_ s) 0.5 0 = Ok l ∧ ¬ Forall is_zero l) ∧
  eval_vec (iSpline_ s) 2.5 0 = Ok (replicate (n_basis (iSpline_ s)) (Fin 1)) ∧
  eval_vec (iSpline_ s) 2.5 1 = Ok (replicate (n_basis (iSpline_ s)) (Fin 0)).
Proof.
  split; [reflexivity|].
  split; [vm_compute; reflexivity|].
  split; [|split; vm_compute; reflexivity].
  destruct (eval_vec _ 0.5 0) as [l| |] eqn:E;
    [|vm_compute in E; discriminate..].
  exists l. split; [reflexivity|]. intros Hz.
  vm_compute in E. injection E as <-.
  apply Forall_cons in Hz as [(q & Hq & H0) _].
  injection Hq as <-. vm_compute in H0. discriminate.
Qed.

(** ** The quadrature rule *)

Lemma chainb_adjacent R l i a b :
  chainb R l = true → l !! i = Some a → l !! S i = Some b → R a b = true.
Proof.
  revert i. induction l as [|c l IH]; intros i Hc Ha Hb; [done|].
  destruct l as [|d l]; [by destruct i|].
  simpl in Hc. apply andb_true_iff in Hc as [Hcd Hc].
  destruct i as [|i]; simpl in *.
  - by simplify_eq.
  - eapply IH; eauto.
Qed.

(** C9, amended: the rule has 100 nodes and 100 weights; the nodes are
    strictly decreasing and lie strictly between 0 and 1; the weights are
    positive and their sum differs from 1 by at most 3e-16. *)
Lemma C9_nodes_decreasing_sum_near_one :
  length rule.ns = rule.n_nodes ∧ length rule.ws = rule.n_nodes ∧
  (∀ i a b, rule.ns !! i = Some a → rule.ns !! S i = Some b → (b < a)%Q) ∧
  Forall (λ x, (0 < x)%Q ∧ (x < 1)%Q) rule.ns ∧
  Forall (λ w, (0 < w)%Q) rule.ws ∧
  (Qabs (Qsum rule.ws - 1) <= 3 # 10000000000000000)%Q.
Proof.
  split; [reflexivity|]. split; [reflexivity|]. split; [|split; [|split]].
  - intros i a b Ha Hb. apply Qltb_lt.
    apply (chainb_adjacent (λ p q, Qltb q p) rule.ns i a b); [|done..].
    vm_compute. reflexivity.
  - apply Forall_forall. intros x Hx.
    assert (H : forallb (λ x, Qltb 0 x && Qltb x 1) rule.ns = true)
      by (vm_compute; reflexivity).
    rewrite forallb_forall in H. apply list_elem_of_In in Hx.
    apply H in Hx. apply andb_true_iff in Hx as [H0 H1].
    split; by apply Qltb_lt.
  - apply Forall_forall. intros x Hx.
    assert (H : forallb (λ x, Qltb 0 x) rule.ws = true)
      by (vm_compute; reflexivity).
    rewrite forallb_forall in H. apply list_elem_of_In in Hx.
    by apply Qltb_lt, H.
  - apply Qle_bool_iff. vm_compute. reflexivity.
Qed.

(** C9, counterexample: the nodes are not strictly increasing (the first
    is larger than the second), and the weights as written do not sum to
    1. *)
Lemma C9_nodes_not_increasing :
  ¬ (∀ i a b, rule.ns !! i = Some a → rule.ns !! S i = Some b → (a < b)%Q)
  ∧ ¬ (Qsum rule.ws == 1)%Q.
Proof.
  split.
  - intros H. specialize (H 0%nat _ _ eq_refl eq_refl).
    revert H. apply Qle_not_lt. apply Qle_bool_iff. vm_compute. reflexivity.
  - intros H. apply Qeq_bool_iff in H. vm_compute in H. discriminate.
Qed.

(** ** Natural splines beyond the boundary knots *)

Lemma Qplus_comm_L (a b : Q) : (a + b)%Q = (b + a)%Q.
Proof. unfold Qplus. f_equal; [ring|apply Pos.mul_comm]. Qed.

Lemma for_up_writes (body : nat → buf → outcome buf) (g : nat → dbl)
    (lo n : nat) (out : buf) :
  (∀ i m, lo ≤ i < lo + n → body i m = Ok (<[i := g i]> m)) →
  ∃ out', for_up lo n body out = Ok out' ∧
    ∀ i, out' !! i = if decide (lo ≤ i < lo + n) then Some (g i) else out !! i.
Proof.
  revert lo out. induction n as [|n IH]; intros lo out H; simpl.
  - exists out. split; [done|]. intros i. case_decide; [lia|done].
  - rewrite H by lia. simpl.
    destruct (IH (S lo) (<[lo := g lo]> out)) as (out' & -> & Hl).
    { intros i m Hi. apply H. lia. }
    exists out'. split; [done|]. intros i. rewrite Hl.
    destruct (decide (i = lo)) as [->|Hne].
    + rewrite lookup_insert_eq. repeat case_decide; try done; lia.
    + rewrite lookup_insert_ne by done. repeat case_decide; try done; lia.
Qed.

Lemma ns_extrapolate_vec (n : ns.t) (x bk : Q) (t0 t1 : list Q) (ders : Z) :
  length t0 = ns.n_basis n → length t1 = ns.n_basis n →
  (out ← ns.extrapolate n ∅ x bk t0 t1 ders; rd_range out 0 (ns.n_basis n))
  = Ok (if (ders =? 0)%Z then linear_part t0 t1 x bk
        else if (ders =? 1)%Z then Fin <$> t1
        else replicate (ns.n_basis n) (Fin 0)).
Proof.
  intros H0 H1. unfold ns.extrapolate.
  destruct (ders =? 0)%Z; [|destruct (ders =? 1)%Z]; simpl.
  - destruct (for_up_writes
      (λ i out, s ← rd t1 i; c ← rd t0 i;
                Ok (<[i := Fin (s * (x - bk) + c)]> out))
      (λ i, Fin (default 0%Q (t1 !! i) * (x - bk) + default 0%Q (t0 !! i))) 0 (ns.n_basis n) ∅)
      as (out' & -> & Hl).
    { intros i m Hi. unfold rd.
      destruct (lookup_lt_is_Some_2 t1 i) as [s Hs]; [lia|].
      destruct (lookup_lt_is_Some_2 t0 i) as [c Hc]; [lia|].
      by rewrite Hs, Hc. }
    simpl. rewrite (rd_range_ok _ _ _ (λ i, Fin (default 0%Q (t1 !! i) * (x - bk) + default 0%Q (t0 !! i)))).
    2:{ intros i Hi. rewrite Hl. case_decide; [done|lia]. }
    f_equal. apply list_eq. intros i. unfold linear_part.
    rewrite list_lookup_fmap, lookup_zip_with.
    destruct (decide (i < ns.n_basis n)) as [Hi|Hi].
    + rewrite lookup_seq_lt by done. simpl.
      destruct (lookup_lt_is_Some_2 t1 i) as [s Hs]; [lia|].
      destruct (lookup_lt_is_Some_2 t0 i) as [c Hc]; [lia|].
      rewrite Hs, Hc. simpl. by rewrite Qplus_comm_L.
    + rewrite lookup_seq_ge by lia. simpl.
      rewrite (lookup_ge_None_2 t0) by lia. done.
  - rewrite (rd_range_ok _ _ _ (λ i, default NonFin ((Fin <$> t1) !! i))).
    2:{ intros i Hi. rewrite lookup_copy, length_fmap.
        case_decide; [|lia].
        destruct (lookup_lt_is_Some_2 (Fin <$> t1) i) as [s Hs];
          [rewrite length_fmap; lia|]. by rewrite Hs. }
    f_equal. apply list_eq. intros i. rewrite list_lookup_fmap.
    destruct (decide (i < ns.n_basis n)) as [Hi|Hi].
    + rewrite lookup_seq_lt by done. simpl.
      destruct (lookup_lt_is_Some_2 (Fin <$> t1) i) as [s Hs];
        [rewrite length_fmap; lia|]. by rewrite Hs.
    + rewrite lookup_seq_ge by lia. simpl. symmetry.
      apply lookup_ge_None_2. rewrite length_fmap. lia.
  - apply rd_range_fill.
Qed.

(** C6: outside the boundary knots a natural spline returns
    [intercept + slope * (x - knot)] for order 0, the slopes for order 1
    and zeros for every other order, using the coefficients of the side
    [x] lies on; the result is the same for every natural spline with
    these boundary knots, size and coefficients, whatever its B-spline
    and its matrix are. *)
Theorem C6_ns_linear_extrapolation (n : ns.t) (b0 b1 x : Q) (ders : Z) :
  bs.boundary_knots (ns.bspline n) = [b0; b1] →
  (b0 <= b1)%Q →
  length (ns.tl0 n) = ns.n_basis n → length (ns.tl1 n) = ns.n_basis n →
  length (ns.tr0 n) = ns.n_basis n → length (ns.tr1 n) = ns.n_basis n →
  ((x < b0)%Q →
   eval_vec (ns_ n) x ders
   = Ok (if (ders =? 0)%Z then linear_part (ns.tl0 n) (ns.tl1 n) x b0
         else if (ders =? 1)%Z then Fin <$> ns.tl1 n
         else replicate (ns.n_basis n) (Fin 0))) ∧
  ((b1 < x)%Q →
   eval_vec (ns_ n) x ders
   = Ok (if (ders =? 0)%Z then linear_part (ns.tr0 n) (ns.tr1 n) x b1
         else if (ders =? 1)%Z then Fin <$> ns.tr1 n
         else replicate (ns.n_basis n) (Fin 0))) ∧
  (∀ n' : ns.t,
     bs.boundary_knots (ns.bspline n') = [b0; b1] →
     n_rows (ns.q_matrix n') = n_rows (ns.q_matrix n) →
     ns.tl0 n' = ns.tl0 n → ns.tl1 n' = ns.tl1 n →
     ns.tr0 n' = ns.tr0 n → ns.tr1 n' = ns.tr1 n →
     (x < b0 ∨ b1 < x)%Q →
     eval_vec (ns_ n') x ders = eval_vec (ns_ n) x ders).
Proof.
  intros Hbk Hle Hl0 Hl1 Hr0 Hr1.
  assert (HL : (x < b0)%Q →
    eval_vec (ns_ n) x ders
    = Ok (if (ders =? 0)%Z then linear_part (ns.tl0 n) (ns.tl1 n) x b0
          else if (ders =? 1)%Z then Fin <$> ns.tl1 n
          else replicate (ns.n_basis n) (Fin 0))).
  { intros Hx. unfold eval_vec, eval, n_basis, ns.eval. rewrite Hbk. simpl.
    apply Qltb_lt in Hx. rewrite Hx. by apply ns_extrapolate_vec. }
  assert (HR : (b1 < x)%Q →
    eval_vec (ns_ n) x ders
    = Ok (if (ders =? 0)%Z then linear_part (ns.tr0 n) (ns.tr1 n) x b1
          else if (ders =? 1)%Z then Fin <$> ns.tr1 n
          else replicate (ns.n_basis n) (Fin 0))).
  { intros Hx. unfold eval_vec, eval, n_basis, ns.eval. rewrite Hbk. simpl.
    assert (H0 : Qltb x b0 = false).
    { apply Qltb_ge. apply Qle_trans with b1; [done|]. by apply Qlt_le_weak. }
    apply Qltb_lt in Hx. rewrite H0, Hx. by apply ns_extrapolate_vec. }
  split; [done|]. split; [done|].
  intros n' Hbk' Hrows E0 E1 E2 E3 Hout.
  assert (Hnb : ns.n_basis n' = ns.n_basis n)
    by (unfold ns.n_basis; by rewrite Hrows).
  destruct Hout as [Hx|Hx].
  - rewrite (HL Hx). unfold eval_vec, eval, n_basis, ns.eval.
    rewrite Hbk'. simpl. apply Qltb_lt in Hx. rewrite Hx.
    rewrite ns_extrapolate_vec by congruence. by rewrite E0, E1, Hnb.
  - rewrite (HR Hx). unfold eval_vec, eval, n_basis, ns.eval.
    rewrite Hbk'. simpl.
    assert (H0 : Qltb x b0 = false).
    { apply Qltb_ge. apply Qle_trans with b1; [done|]. by apply Qlt_le_weak. }
    apply Qltb_lt in Hx. rewrite H0, Hx.
    rewrite ns_extrapolate_vec by congruence. by rewrite E2, E3, Hnb.
Qed.

(** C6 on a natural spline with two basis functions. *)
Lemma C6_ns_linear_extrapolation_witness :
  eval_vec (ns_ unit_ns) (-1) 0 = Ok [Fin (1 + 3 * (-1 - 0)); Fin (2 + 4 * (-1 - 0))]
  ∧ eval_vec (ns_ unit_ns) 2 1 = Ok [Fin 7; Fin 8].
Proof.
  destruct (C6_ns_linear_extrapolation unit_ns 0 1 (-1) 0) as (HL & _ & _);
    [reflexivity|discriminate|reflexivity..|].
  destruct (C6_ns_linear_extrapolation unit_ns 0 1 2 1) as (_ & HR & _);
    [reflexivity|discriminate|reflexivity..|].
  split; [apply HL; reflexivity|apply HR; reflexivity].
Defined.

(** ** The lower limit *)

Lemma orth_poly_eval_raw_frame (p : orth_poly.t) (l : Q) out x inter ders :
  (0 <= ders)%Z →
  orth_poly.eval_raw (orth_poly.set_lower_limit l p) out x inter ders
  = orth_poly.eval_raw p out x inter ders.
Proof.
  intros Hd. unfold orth_poly.eval_raw.
  destruct (ders =? 0)%Z eqn:E0; [by destruct p|].
  assert (E1 : (ders <? 0)%Z = false) by (apply Z.ltb_ge; lia).
  rewrite E1. by destruct p.
Qed.

(** C10: for every basis object, setting the lower limit changes neither
    the evaluation with an order that is not negative, nor [n_basis], nor
    [n_wmem]. *)
Theorem C10_set_lower_limit_frame (b : basisMixin) (l : Q) (out : buf)
    (x : Q) (ders : Z) :
  (0 <= ders)%Z →
  eval (set_lower_limit l b) out x ders = eval b out x ders ∧
  n_basis (set_lower_limit l b) = n_basis b ∧
  n_wmem (set_lower_limit l b) = n_wmem b.
Proof.
  intros Hd. destruct b as [s|b|n|s|s|p]; simpl.
  - by destruct s.
  - by destruct b as [[] ? ? ? ?].
  - by destruct n.
  - by destruct s.
  - by destruct s.
  - split; [|by destruct p].
    unfold orth_poly.eval.
    replace (orth_poly.raw (orth_poly.set_lower_limit l p))
      with (orth_poly.raw p) by by destruct p.
    replace (orth_poly.intercept (orth_poly.set_lower_limit l p))
      with (orth_poly.intercept p) by by destruct p.
    destruct (orth_poly.raw p); [by apply orth_poly_eval_raw_frame|].
    destruct (ders =? 0)%Z eqn:E0; [by destruct p|].
    unfold orth_poly.orth_mapped.
    rewrite orth_poly_eval_raw_frame by done. by destruct p.
Qed.

(** C10 at the raw polynomial with the basis functions [1], [x] and
    [x^2]. *)
Lemma C10_set_lower_limit_frame_witness :
  eval (set_lower_limit 0.5
          (orth_poly_ (orth_poly.mk 0 [] [] [] true true 3 []))) ∅ 3 1
  = eval (orth_poly_ (orth_poly.mk 0 [] [] [] true true 3 [])) ∅ 3 1.
Proof.
  apply (C10_set_lower_limit_frame
           (orth_poly_ (orth_poly.mk 0 [] [] [] true true 3 [])) 0.5 ∅ 3 1).
  lia.
Defined.

(** An antiderivative does read the stored limit. *)
Lemma set_lower_limit_read_by_integral :
  eval_vec (set_lower_limit 0.5 (orth_poly_ (orth_poly.raw_poly 1 true)))
    3 (-1)
  ≠ eval_vec (orth_poly_ (orth_poly.raw_poly 1 true)) 3 (-1).
Proof. vm_compute. discriminate. Qed.

(** ** M-splines *)

Lemma bind_Ok_inv {A B} (m : outcome A) (f : A → outcome B) (b : B) :
  m ≫= f = Ok b → ∃ a, m = Ok a ∧ f a = Ok b.
Proof. destruct m; simpl; [eauto|done..]. Qed.

Lemma bind_Throw_inv {A B} (m : outcome A) (f : A → outcome B)
    (what : string) :
  m ≫= f = Throw what →
  m = Throw what ∨ ∃ a, m = Ok a ∧ f a = Throw what.
Proof.
  destruct m as [a|w|]; simpl; intros H.
  - right. eauto.
  - left. by injection H as ->.
  - discriminate.
Qed.

Lemma rd_range_inv (m : buf) (lo n : nat) (l : list dbl) :
  rd_range m lo n = Ok l →
  length l = n ∧ ∀ i, i < n → ∃ w, m !! (lo + i) = Some w ∧ l !! i = Some w.
Proof.
  revert lo l. induction n as [|n IH]; intros lo l H; simpl in H.
  - simplify_eq. split; [done|]. intros; lia.
  - apply bind_Ok_inv in H as (a & Ha & H).
    apply bind_Ok_inv in H as (l' & Hl' & H). simplify_eq.
    apply IH in Hl' as [Hlen Hl']. split; [simpl; lia|].
    intros [|i] Hi.
    + exists a. rewrite Nat.add_0_r. unfold rdb in Ha.
      destruct (m !! lo); by simplify_eq.
    + destruct (Hl' i) as (w & Hw & Hlw); [lia|]. exists w.
      by replace (lo + S i) with (S lo + i) by lia.
Qed.

(** A loop that rewrites the cells [lo .. lo + n - 1] in place, cell by
    cell. *)
Lemma for_up_update (body : nat → buf → outcome buf) (g : nat → dbl → dbl)
    (lo n : nat) (m : buf) :
  (∀ i, lo ≤ i < lo + n → is_Some (m !! i)) →
  (∀ i m' w, lo ≤ i < lo + n → m' !! i = Some w →
             body i m' = Ok (<[i := g i w]> m')) →
  ∃ m', for_up lo n body m = Ok m' ∧
    ∀ i, m' !! i = if decide (lo ≤ i < lo + n) then g i <$> m !! i
                   else m !! i.
Proof.
  revert lo m. induction n as [|n IH]; intros lo m Hs Hb; simpl.
  - exists m. split; [done|]. intros i. case_decide; [lia|done].
  - destruct (Hs lo) as [w Hw]; [lia|].
    rewrite (Hb lo m w) by (done || lia). simpl.
    destruct (IH (S lo) (<[lo := g lo w]> m)) as (m' & -> & Hl).
    { intros i Hi. rewrite lookup_insert_ne by lia. apply Hs. lia. }
    { intros i m' w' Hi Hw'. apply Hb; [lia|done]. }
    exists m'. split; [done|]. intros i. rewrite Hl.
    destruct (decide (i = lo)) as [->|Hne].
    + rewrite lookup_insert_eq, Hw. repeat case_decide; try done; lia.
    + rewrite lookup_insert_ne by done. repeat case_decide; try done; lia.
Qed.

Lemma rd_range_copy (m : buf) (lo n : nat) (l : list dbl) :
  rd_range m lo n = Ok l → rd_range (copy l ∅) 0 n = Ok l.
Proof.
  intros H. apply rd_range_inv in H as [Hlen H].
  rewrite (rd_range_ok _ _ _ (λ i, default NonFin (l !! i))).
  - f_equal. apply list_eq. intros i. rewrite list_lookup_fmap.
    destruct (decide (i < n)) as [Hi|Hi].
    + rewrite lookup_seq_lt by done. simpl.
      destruct (H i Hi) as (w & _ & ->). done.
    + rewrite lookup_seq_ge by lia. simpl. symmetry.
      apply lookup_ge_None_2. lia.
  - intros i Hi. rewrite lookup_copy. case_decide; [|lia].
    destruct (H i) as (w & _ & ->); [lia|]. done.
Qed.

Lemma usub_le (a b : nat) : b ≤ a → usub a b = a - b.
Proof. intros H. unfold usub. apply Nat.leb_le in H. by rewrite H. Qed.

Lemma bs_n_basis_bound (B : bs.t) :
  bs.order B < length (bs.knots B) →
  bs.n_basis B + bs.order B ≤ length (bs.knots B).
Proof.
  unfold bs.n_basis, SplineBasis.n_basis, SplineBasis.ncoef,
    SplineBasis.nknots, bs.order, bs.knots, usub.
  intros H. apply Nat.ltb_lt in H as H'. rewrite H'.
  destruct (bs.intercept B).
  - simpl. lia.
  - destruct (Nat.leb_spec 1
      (length (SplineBasis.knots (bs.base B))
       - SplineBasis.order (bs.base B))); lia.
Qed.

(** C7: when the underlying B-spline (with intercept) evaluates to [b]
    at [x] and [ders], the M-spline evaluates at the same arguments to the
    entries of [b], without the first one if the M-spline has no
    intercept, entry [j] being multiplied by
    [order / (knots[j + off + order] - knots[j + off])], or by zero when
    that span is not positive; [off] is 1 without an intercept. *)
Theorem C7_mSpline_rescales (s : mSpline.t) (x : Q) (ders : Z)
    (b : list dbl) :
  let B := mSpline.bspline s in
  let off := if mSpline.intercept s then 0 else 1 in
  bs.order B < length (bs.knots B) →
  mSpline.intercept s = true ∨ 0 < bs.n_basis B →
  eval_vec (bs_ B) x ders = Ok b →
  ∃ out,
    eval_vec (mSpline_ s) x ders = Ok out ∧
    length out = n_basis (mSpline_ s) ∧
    ∀ j, j < n_basis (mSpline_ s) →
      ∃ w kh kl,
        b !! (j + off) = Some w ∧
        bs.knots B !! (j + off + bs.order B) = Some kh ∧
        bs.knots B !! (j + off) = Some kl ∧
        out !! j = Some (dmul w (Fin (mspline_factor (bs.order B) kh kl))).
Proof.
  intros B off Hwf Hnb Hb.
  unfold eval_vec in Hb. simpl in Hb.
  apply bind_Ok_inv in Hb as (wrk & Hwrk & Hb).
  apply rd_range_inv in Hb as [Hlen Hb].
  (* the knots read by the loop *)
  assert (Hle : bs.n_basis B + bs.order B ≤ length (bs.knots B)).
  { by apply bs_n_basis_bound. }
  set (g := λ j w,
    dmul w (Fin (mspline_factor (bs.order B)
                   (default 0%Q (bs.knots B !! (j + bs.order B)))
                   (default 0%Q (bs.knots B !! j))))).
  destruct (for_up_update
    (λ j wrk, f ← mSpline.scale s j; w ← rdb wrk j;
              Ok (<[j := dmul w (Fin f)]> wrk)) g 0 (bs.n_basis B) wrk)
    as (wrk' & Hloop & Hwrk').
  { intros i Hi. destruct (Hb i) as (w & Hw & _); [lia|]. eauto. }
  { intros i m' w Hi Hw. unfold mSpline.scale, rd, rdb. fold B.
    destruct (lookup_lt_is_Some_2 (bs.knots B) (i + bs.order B)) as [kh Hkh];
      [lia|].
    destruct (lookup_lt_is_Some_2 (bs.knots B) i) as [kl Hkl]; [lia|].
    rewrite Hkh, Hkl, Hw. simpl. unfold g. by rewrite Hkh, Hkl. }
  assert (Hcell : ∀ k, k < bs.n_basis B → ∃ w kh kl,
    b !! k = Some w ∧ bs.knots B !! (k + bs.order B) = Some kh ∧
    bs.knots B !! k = Some kl ∧
    wrk' !! k = Some (dmul w (Fin (mspline_factor (bs.order B) kh kl)))).
  { intros k Hk. destruct (Hb k Hk) as (w & Hw & Hbw).
    destruct (lookup_lt_is_Some_2 (bs.knots B) (k + bs.order B)) as [kh Hkh];
      [lia|].
    destruct (lookup_lt_is_Some_2 (bs.knots B) k) as [kl Hkl]; [lia|].
    exists w, kh, kl. repeat split; try done.
    rewrite Hwrk'. case_decide; [|lia]. simpl in Hw. rewrite Hw. simpl.
    unfold g. by rewrite Hkh, Hkl. }
  unfold eval_vec, eval, n_basis, mSpline.eval, mSpline.n_basis.
  fold B. rewrite Hwrk. simpl. rewrite Hloop. simpl.
  destruct (mSpline.intercept s) eqn:Hint.
  - rewrite usub_le, Nat.sub_0_r by lia.
    set (l := (λ k, default NonFin (wrk' !! k)) <$> seq 0 (bs.n_basis B)).
    assert (Hrd : rd_range wrk' 0 (bs.n_basis B) = Ok l).
    { apply rd_range_ok. intros i Hi.
      destruct (Hcell i) as (w & kh & kl & _ & _ & _ & ->); [lia|]. done. }
    rewrite Hrd. simpl. exists l. split; [exact (rd_range_copy _ _ _ _ Hrd)|].
    split; [unfold l; by rewrite length_fmap, length_seq|].
    intros j Hj. rewrite Nat.add_0_r.
    destruct (Hcell j Hj) as (w & kh & kl & ? & ? & ? & Hw).
    exists w, kh, kl. repeat split; try done.
    unfold l. rewrite list_lookup_fmap, lookup_seq_lt by done. simpl.
    by rewrite Hw.
  - destruct Hnb as [?|Hnb]; [done|].
    destruct (Nat.eqb_spec (bs.n_basis B) 0) as [?|_]; [lia|].
    rewrite usub_le by lia.
    set (l := (λ k, default NonFin (wrk' !! k)) <$> seq 1 (bs.n_basis B - 1)).
    assert (Hrd : rd_range wrk' 1 (bs.n_basis B - 1) = Ok l).
    { apply rd_range_ok. intros i Hi.
      destruct (Hcell i) as (w & kh & kl & _ & _ & _ & ->); [lia|]. done. }
    rewrite Hrd. simpl. exists l. split; [exact (rd_range_copy _ _ _ _ Hrd)|].
    split; [unfold l; by rewrite length_fmap, length_seq|].
    intros j Hj.
    destruct (Hcell (j + 1)) as (w & kh & kl & ? & ? & ? & Hw); [lia|].
    exists w, kh, kl. repeat split; try done.
    unfold l. rewrite list_lookup_fmap, lookup_seq_lt by done. simpl.
    replace (S j) with (j + 1) by lia. by rewrite Hw.
Qed.

(** C7 at the cubic M-spline on the unit interval, inside the domain. *)
Lemma C7_mSpline_rescales_witness :
  ∃ out, eval_vec (mSpline_ (mSpline.mk 0 (unit_cubic true) false)) 0.5 1
         = Ok out ∧ length out = 3.
Proof.
  destruct (eval_vec (bs_ (unit_cubic true)) 0.5 1) as [b| |] eqn:E;
    [|vm_compute in E; discriminate..].
  destruct (C7_mSpline_rescales
              (mSpline.mk 0 (unit_cubic true) false) 0.5 1 b)
    as (out & Hout & Hlen & _).
  - vm_compute. lia.
  - right. vm_compute. lia.
  - exact E.
  - exists out. split; [exact Hout|exact Hlen].
Defined.

(** ** Calls that end in an exception *)

Lemma no_throw_Ok {A} (a : A) : no_throw (Ok a).
Proof. intros what. discriminate. Qed.

Lemma no_throw_Fault {A} : no_throw (@Fault A).
Proof. intros what. discriminate. Qed.

Lemma no_throw_bind {A B} (m : outcome A) (f : A → outcome B) :
  no_throw m → (∀ a, no_throw (f a)) → no_throw (m ≫= f).
Proof.
  intros Hm Hf what. destruct m as [a|w|]; simpl.
  - apply Hf.
  - by destruct (Hm w).
  - discriminate.
Qed.

Lemma no_throw_rd {A} (l : list A) i : no_throw (rd l i).
Proof. unfold rd. destruct (l !! i); intros what; discriminate. Qed.

Lemma no_throw_rdb (m : buf) i : no_throw (rdb m i).
Proof. unfold rdb. destruct (m !! i); intros what; discriminate. Qed.

Lemma no_throw_wr {A} (l : list A) i a : no_throw (wr l i a).
Proof. unfold wr. destruct (i <? length l); intros what; discriminate. Qed.

Lemma no_throw_for_up {St} (body : nat → St → outcome St) lo n s :
  (∀ i s, no_throw (body i s)) → no_throw (for_up lo n body s).
Proof.
  intros Hb. revert lo s. induction n as [|n IH]; intros lo s; simpl.
  - apply no_throw_Ok.
  - apply no_throw_bind; [apply Hb|]. intros a. apply IH.
Qed.

Lemma no_throw_for_down {St} (body : nat → St → outcome St) n s :
  (∀ i s, no_throw (body i s)) → no_throw (for_down n body s).
Proof.
  intros Hb. revert s. induction n as [|n IH]; intros s; simpl.
  - apply no_throw_Ok.
  - apply no_throw_bind; [apply Hb|]. intros a. apply IH.
Qed.

Lemma no_throw_rd_range (m : buf) lo n : no_throw (rd_range m lo n).
Proof.
  revert lo. induction n as [|n IH]; intros lo; simpl.
  - apply no_throw_Ok.
  - apply no_throw_bind; [apply no_throw_rdb|]. intros a.
    apply no_throw_bind; [apply IH|]. intros l. apply no_throw_Ok.
Qed.

Create HintDb no_throw.
#[local] Hint Resolve no_throw_Ok no_throw_Fault no_throw_rd no_throw_rdb
  no_throw_wr no_throw_rd_range : no_throw.

(** Walks through binds, loops and branches. *)
Ltac no_throw_step :=
  match goal with
  | |- no_throw (_ ≫= _) => apply no_throw_bind; [|intros ?]
  | |- no_throw (for_up _ _ _ _) => apply no_throw_for_up; intros ? ?
  | |- no_throw (for_down _ _ _) => apply no_throw_for_down; intros ? ?
  | |- no_throw (if ?c then _ else _) => destruct c
  | |- no_throw ((if ?c then _ else _) _ _ _) => destruct c
  | |- no_throw (match ?p with (_, _) => _ end) => destruct p
  | |- no_throw (match ?o with Some _ => _ | None => _ end) => destruct o
  | |- no_throw (let '(_, _) := ?p in _) => destruct p
  | |- no_throw _ => solve [auto with no_throw]
  end.
Ltac no_throw_tac := repeat no_throw_step.

Lemma no_throw_diff_table_from ks curs x i n :
  no_throw (SplineBasis.diff_table_from ks curs x i n).
Proof.
  revert i. induction n as [|n IH]; intros i; simpl; [auto with no_throw|].
  no_throw_tac.
Qed.
#[local] Hint Resolve no_throw_diff_table_from : no_throw.

Lemma no_throw_slow_diff ks curs nder outer a :
  no_throw (SplineBasis.slow_diff ks curs nder outer a).
Proof.
  revert outer a. induction nder as [|n IH]; intros outer a; simpl.
  - auto with no_throw.
  - unfold SplineBasis.slow_diff_pass. no_throw_tac.
Qed.
#[local] Hint Resolve no_throw_slow_diff : no_throw.

Lemma no_throw_SplineBasis_eval s out x ders :
  no_throw (SplineBasis.eval s out x ders).
Proof.
  unfold SplineBasis.eval, SplineBasis.set_cursor, SplineBasis.slow_evaluate,
    SplineBasis.basis_funcs, SplineBasis.diff_table,
    SplineBasis.slow_blend_pass,
    SplineBasis.basis_funcs_fast_step, SplineBasis.basis_funcs_safe_step.
  no_throw_tac.
Qed.
#[local] Hint Resolve no_throw_SplineBasis_eval : no_throw.

Lemma no_throw_bs_eval_inside b out x ders :
  no_throw (bs.eval_inside b out x ders).
Proof. unfold bs.eval_inside. no_throw_tac. Qed.
#[local] Hint Resolve no_throw_bs_eval_inside : no_throw.

Lemma no_throw_orth_poly_eval_raw p out x inter ders :
  no_throw (orth_poly.eval_raw p out x inter ders).
Proof.
  unfold orth_poly.eval_raw, orth_poly.raw_value_inter,
    orth_poly.raw_value_no_inter, orth_poly.raw_integral,
    orth_poly.raw_deriv_inter, orth_poly.raw_deriv_no_inter.
  no_throw_tac.
Qed.
#[local] Hint Resolve no_throw_orth_poly_eval_raw : no_throw.

Lemma no_throw_mat_vec lhs A b off r c : no_throw (mat_vec lhs A b off r c).
Proof. unfold mat_vec. no_throw_tac. Qed.
#[local] Hint Resolve no_throw_mat_vec : no_throw.


Lemma no_throw_bs_add_term b k_pivot d f out :
  no_throw (bs.add_term b k_pivot d f out).
Proof. unfold bs.add_term, bs.eval_pivot, bs.outside. no_throw_tac. Qed.
#[local] Hint Resolve no_throw_bs_add_term : no_throw.

(** The only exception of [bs::operator()] is the one of the default case
    of its switch, reached outside the boundary knots. *)
Lemma bs_eval_Throw_inv (b : bs.t) (out : buf) (x : Q) (ders : Z)
    (what : string) :
  bs.eval b out x ders = Throw what →
  what = "ders not implemented" ∧ bs.outside b x = Ok true
  ∧ (ders < 0 ∨ 3 < ders)%Z.
Proof.
  assert (Hnt : no_throw (bs.outside b x)).
  { unfold bs.outside. no_throw_tac. }
  unfold bs.eval. destruct (bs.outside b x) as [[|]|w|] eqn:Hout;
    cbn [mbind outcome_bind]; [| |by destruct (Hnt w)|done].
  - intros H. apply bind_Throw_inv in H as [H|(b0 & _ & H)].
    { by destruct (no_throw_rd (bs.boundary_knots b) 0 what). }
    apply bind_Throw_inv in H as [H|(k_pivot & _ & H)].
    { exfalso. revert H. generalize what.
      change (no_throw
        (if Qltb x b0
         then k ← rd (bs.knots b) (bs.order b); Ok (0.75 * b0 + 0.25 * k)%Q
         else b1 ← rd (bs.boundary_knots b) 1;
              k ← rd (bs.knots b)
                     (usub (usub (length (bs.knots b)) (bs.order b)) 2);
              Ok (0.75 * b1 + 0.25 * k)%Q)).
      no_throw_tac. }
    destruct ders as [|p|p].
    + exfalso. revert H. generalize what.
      match goal with |- ∀ w, ?r = Throw w → False =>
        change (no_throw r) end.
      no_throw_tac.
    + destruct p as [[p|p|]|[p|p|]|];
        try (injection H as <-; split; [done|split; [done|right; lia]]);
        exfalso; revert H; generalize what;
        match goal with |- ∀ w, ?r = Throw w → False =>
          change (no_throw r) end;
        no_throw_tac.
    + injection H as <-. split; [done|]. split; [done|left; lia].
  - intros H. by destruct (no_throw_bs_eval_inside b out x ders what).
Qed.



(** ** Derivatives of a polynomial above its size *)

(** C2, failing input: a raw polynomial with an intercept that is asked
    for a derivative of an order above its number of basis functions
    returns normally after zero-filling the cells 0, ..., [ders - 1] of
    the output, which are more than [n_basis] cells. *)
Theorem C2_derivative_order_above_size_overruns (p : orth_poly.t)
    (out : buf) (x : Q) (ders : nat) :
  orth_poly.raw p = true →
  orth_poly.intercept p = true →
  n_basis (orth_poly_ p) < ders →
  ∃ out', eval (orth_poly_ p) out x (Z.of_nat ders) = Ok out' ∧
          dom out' = set_seq 0 ders ∪ dom out.
Proof.
  intros Hraw Hint Hlt. simpl in *. unfold orth_poly.n_basis in Hlt.
  unfold orth_poly.eval, orth_poly.eval_raw. rewrite Hraw, Hint.
  destruct (Z.eqb_spec (Z.of_nat ders) 0) as [E|_]; [lia|].
  destruct (Z.ltb_spec (Z.of_nat ders) 0) as [E|_]; [lia|].
  unfold orth_poly.raw_deriv_inter. rewrite Nat2Z.id.
  replace (orth_poly.n_basis_v p - ders) with 0 by lia. simpl.
  eexists. split; [reflexivity|]. apply dom_fill.
Qed.

(** C2 at the polynomial with the two basis functions [1] and [x], asked
    for its third derivative. *)
Lemma C2_derivative_order_above_size_overruns_witness :
  ∃ out', eval (orth_poly_ (orth_poly.mk 0 [] [] [] true true 2 [])) ∅ 1 3
          = Ok out' ∧ dom out' = set_seq 0 3 ∪ dom (∅ : buf).
Proof.
  apply (C2_derivative_order_above_size_overruns
           (orth_poly.mk 0 [] [] [] true true 2 []) ∅ 1 3);
    [reflexivity|reflexivity|simpl; lia].
Defined.

(** Without an intercept the fill is one cell shorter: the third
    derivative of the polynomial with the single basis function [x]
    writes two cells. *)
Lemma raw_poly_no_intercept_overruns (x : Q) :
  let p := orth_poly_ (orth_poly.mk 0 [] [] [] true false 1 []) in
  n_basis p = 1 ∧
  ∃ out, eval p ∅ x 3 = Ok out ∧ dom out = set_seq 0 2.
Proof.
  split; [reflexivity|]. eexists. split; [reflexivity|].
  vm_compute. reflexivity.
Qed.

(** ** Derivatives at a repeated knot *)

(** C3, failing input: for the basis of order 3 whose interior knot lies
    on the upper boundary knot, [set_no_div_zero] finds a zero denominator
    and clears the flag; the guarded value recurrence then gives the
    finite values 0, 0, 1, 0 at [x = 1], but the first derivative at the
    same point, which does not read the flag, divides by the zero knot
    span and returns non-finite entries. *)
Theorem C3_derivative_recurrence_divides_by_zero :
  SplineBasis.set_no_div_zero 3 [0; 0; 0; 1; 1; 1; 1]%Q = false ∧
  eval_vec (SplineBasis_ (quadratic_knot_at_end false)) 1 0
  = Ok [Fin 0; Fin 0; Fin 1; Fin 0] ∧
  ∀ flag, eval_vec (SplineBasis_ (quadratic_knot_at_end flag)) 1 1
          = Ok [Fin 0; NonFin; NonFin; NonFin].
Proof.
  split; [reflexivity|]. split; [vm_compute; reflexivity|].
  intros []; vm_compute; reflexivity.
Qed.

(** ** The exponential series *)

Section exp_series.
Local Open Scope R_scope.

Lemma exp_sum_S y n :
  exp_sum y (S n) = exp_sum y n + (- y) ^ S n / INR (fact (S n)).
Proof. reflexivity. Qed.

Lemma exp_sum_alt y n :
  exp_sum y n = sum_f_R0 (tg_alt (λ j, y ^ j / INR (fact j))) n.
Proof.
  apply sum_eq. intros j _. unfold tg_alt.
  replace (- y) with (-1 * y) by ring. rewrite Rpow_mult_distr.
  unfold Rdiv. ring.
Qed.

Lemma exp_sum_E1 y n : exp_sum y n = E1 (- y) n.
Proof.
  apply sum_eq. intros j _. unfold Rdiv. ring.
Qed.

Lemma exp_sum_cv y : Un_cv (exp_sum y) (exp (- y)).
Proof.
  intros eps Heps. destruct (E1_cvg (- y) eps Heps) as [N HN].
  exists N. intros n Hn. rewrite exp_sum_E1. by apply HN.
Qed.

(** For [0 <= y <= 1] the sums of odd length lie below [exp (- y)] and
    the sums of even length above. *)
Lemma exp_sum_bounds (y : R) (N : nat) :
  0 <= y <= 1 →
  exp_sum y (S (2 * N)) <= exp (- y) <= exp_sum y (2 * N).
Proof.
  intros [Hy0 Hy1]. rewrite !exp_sum_alt.
  apply alternated_series_ineq.
  - intros n. simpl pow. rewrite fact_simpl, mult_INR.
    assert (Hf : 0 < INR (fact n)) by apply INR_fact_lt_0.
    assert (Hs : 0 < INR (S n)) by (apply lt_0_INR; lia).
    assert (Hp : 0 <= y ^ n) by (by apply pow_le).
    assert (H1 : 1 <= INR (S n)).
    { replace 1 with (INR 1) by reflexivity. apply le_INR. lia. }
    unfold Rdiv. rewrite Rinv_mult.
    replace (y * y ^ n * (/ INR (S n) * / INR (fact n)))
      with ((y * / INR (S n)) * (y ^ n * / INR (fact n))) by ring.
    rewrite <- (Rmult_1_l (y ^ n * / INR (fact n))) at 2.
    apply Rmult_le_compat_r.
    + apply Rmult_le_pos; [done|]. left. by apply Rinv_0_lt_compat.
    + apply (Rmult_le_reg_r (INR (S n))); [done|].
      rewrite Rmult_assoc, Rinv_l by lra. lra.
  - apply cv_speed_pow_fact.
  - intros eps Heps. destruct (exp_sum_cv y eps Heps) as [n0 Hn0].
    exists n0. intros n Hn. rewrite <- exp_sum_alt. by apply Hn0.
Qed.

Lemma exp_mult_nat (t : R) (n : nat) : exp (INR n * t) = exp t ^ n.
Proof.
  induction n as [|n IH].
  - simpl. rewrite Rmult_0_l. apply exp_0.
  - rewrite S_INR, Rmult_plus_distr_r, Rmult_1_l, exp_plus, IH. simpl. ring.
Qed.

Lemma exp_le_compat (a b : R) : a <= b → exp a <= exp b.
Proof.
  intros [H| ->]; [left; by apply exp_increasing|lra].
Qed.

Lemma exp_le_3_pow (y : R) (n : nat) : y <= 1 → exp (INR n * y) <= 3 ^ n.
Proof.
  intros Hy. rewrite exp_mult_nat. apply pow_incr. split.
  - left. apply exp_pos.
  - apply Rle_trans with (exp 1); [by apply exp_le_compat|apply exp_le_3].
Qed.

End exp_series.

(** ** Integer division and the reals *)

Section rounding.
Local Open Scope R_scope.

Lemma IZR_div_floor (n d : Z) : (0 < d)%Z → IZR (n / d) * IZR d <= IZR n.
Proof.
  intros Hd. rewrite <- mult_IZR. apply IZR_le.
  rewrite Z.mul_comm. by apply Z.mul_div_le.
Qed.

Lemma IZR_div_ceil (n d : Z) :
  (0 < d)%Z → IZR n <= IZR (- (- n / d)) * IZR d.
Proof.
  intros Hd. rewrite <- mult_IZR. apply IZR_le.
  pose proof (Z.mul_div_le (- n) d Hd). lia.
Qed.

(** [lo <= r * d] gives [floor ... <= r]-style bounds after a division
    by the positive [d]. *)
Lemma floor_le (n d : Z) (r : R) :
  (0 < d)%Z → IZR n <= r * IZR d → IZR (n / d) <= r.
Proof.
  intros Hd H. assert (0 < IZR d) by (by apply IZR_lt).
  apply (Rmult_le_reg_r (IZR d)); [done|].
  apply Rle_trans with (IZR n); [by apply IZR_div_floor|done].
Qed.

Lemma ceil_ge (n d : Z) (r : R) :
  (0 < d)%Z → r * IZR d <= IZR n → r <= IZR (- (- n / d)).
Proof.
  intros Hd H. assert (0 < IZR d) by (by apply IZR_lt).
  apply (Rmult_le_reg_r (IZR d)); [done|].
  apply Rle_trans with (IZR n); [done|by apply IZR_div_ceil].
Qed.
End rounding.

(** ** The enclosure of the exponential *)

Section exp_enclosure.
Local Open Scope R_scope.
Local Notation "⟦ x ⟧" := (IZR (BigZ.to_Z x)) (format "⟦ x ⟧").

Lemma IZR_one : ⟦ival.one⟧ = 2 ^ 50.
Proof.
  unfold ival.one, ival.prec. rewrite BigZ.spec_pow.
  change (BigZ.to_Z 2) with 2%Z. change (BigZ.to_Z 50) with 50%Z.
  by rewrite (pow_IZR 2 50).
Qed.

Lemma one_pos : (0 < BigZ.to_Z ival.one)%Z.
Proof. vm_compute. reflexivity. Qed.

Lemma IZR_one_pos : 0 < ⟦ival.one⟧.
Proof. apply IZR_lt, one_pos. Qed.

Lemma taylor_spec (n : nat) (A B : bigZ) (y : R) :
  ⟦A⟧ = y * ⟦B⟧ →
  ∀ (kn : nat) (k s pw d : bigZ),
    BigZ.to_Z k = Z.of_nat kn →
    ⟦pw⟧ = (- ⟦A⟧) ^ kn →
    ⟦d⟧ = ⟦B⟧ ^ kn * INR (fact kn) →
    ⟦s⟧ = exp_sum y kn * ⟦d⟧ →
    ⟦(ival.taylor n A B k s pw d).2⟧
    = ⟦B⟧ ^ (kn + n) * INR (fact (kn + n)) ∧
    ⟦(ival.taylor n A B k s pw d).1⟧
    = exp_sum y (kn + n) * ⟦(ival.taylor n A B k s pw d).2⟧.
Proof.
  intros HA. induction n as [|n IH]; intros kn k s pw d Hk Hpw Hd Hs.
  - simpl. rewrite Nat.add_0_r. done.
  - simpl. replace (kn + S n)%nat with (S kn + n)%nat by lia.
    assert (Hk' : BigZ.to_Z (k + 1) = Z.of_nat (S kn)).
    { rewrite BigZ.spec_add, Hk. change (BigZ.to_Z 1) with 1%Z. lia. }
    assert (Hpw' : ⟦pw * - A⟧ = (- ⟦A⟧) ^ S kn).
    { rewrite BigZ.spec_mul, BigZ.spec_opp, mult_IZR, opp_IZR, Hpw.
      simpl. ring. }
    assert (Hd' : ⟦d * (B * (k + 1))⟧ = ⟦B⟧ ^ S kn * INR (fact (S kn))).
    { rewrite !BigZ.spec_mul, Hk', !mult_IZR, Hd, <- INR_IZR_INZ.
      rewrite fact_simpl, mult_INR. simpl. ring. }
    apply IH; try done.
    rewrite BigZ.spec_add, plus_IZR, Hpw', Hd'.
    rewrite !BigZ.spec_mul, Hk', !mult_IZR, Hs, Hd, <- INR_IZR_INZ.
    rewrite exp_sum_S, HA.
    assert (Hf : INR (fact (S kn)) ≠ 0) by apply INR_fact_neq_0.
    rewrite fact_simpl, mult_INR in Hf |- *.
    replace (- (y * ⟦B⟧)) with (- y * ⟦B⟧) by ring.
    rewrite Rpow_mult_distr. simpl pow.
    assert (HF : INR (fact kn) ≠ 0) by apply INR_fact_neq_0.
    assert (HK : INR (S kn) ≠ 0) by (apply not_0_INR; lia).
    revert HF HK.
    generalize (INR (fact kn)) (INR (S kn)) ((- y) ^ kn) (⟦B⟧ ^ kn)
      (exp_sum y kn).
    intros F K P Q E HF HK. field. done.
Qed.

(** The sums computed by [taylor] from the start of the series. *)
Lemma taylor_start (n : nat) (A B : bigZ) (y : R) :
  ⟦A⟧ = y * ⟦B⟧ → 0 < ⟦B⟧ →
  let r := ival.taylor n A B 0 1 1 1 in
  0 < ⟦r.2⟧ ∧ ⟦r.1⟧ = exp_sum y n * ⟦r.2⟧.
Proof.
  intros HA HB r.
  destruct (taylor_spec n A B y HA 0 0%bigZ 1%bigZ 1%bigZ 1%bigZ)
    as [Hd Hs];
    try done;
    try (change (BigZ.to_Z 1) with 1%Z; unfold exp_sum; simpl; lra).
  split; [|done]. fold r in Hd. rewrite Hd.
    apply Rmult_lt_0_compat; [by apply pow_lt|apply INR_fact_lt_0].
Qed.

(** The argument reduction: [y = |a| / (one * m)] lies in [0, 1]. *)
Lemma reduction_spec (a : bigZ) :
  let m := ival.reduction a in
  (1 <= BigZ.to_Z m)%Z ∧
  (Z.abs (BigZ.to_Z a) <= BigZ.to_Z ival.one * BigZ.to_Z m)%Z.
Proof.
  unfold ival.reduction, ival.cdiv.
  rewrite BigZ.spec_max, BigZ.spec_opp, BigZ.spec_div, BigZ.spec_opp,
    BigZ.spec_abs.
  change (BigZ.to_Z 1) with 1%Z.
  pose proof one_pos as H1.
  pose proof (Z.mul_div_le (- Z.abs (BigZ.to_Z a)) _ H1). nia.
Qed.

Lemma pow_spec (x m : bigZ) :
  (0 <= BigZ.to_Z m)%Z → ⟦x ^ m⟧ = ⟦x⟧ ^ Z.to_nat (BigZ.to_Z m).
Proof.
  intros Hm. rewrite BigZ.spec_pow.
  rewrite <- (Z2Nat.id (BigZ.to_Z m)) at 1 by done.
  by rewrite <- pow_IZR.
Qed.

(** What the two branches of [exp_down] and [exp_up] rest on. *)
Lemma exp_reduction (a : bigZ) :
  let m := ival.reduction a in
  let mn := Z.to_nat (BigZ.to_Z m) in
  let B := (ival.one * m)%bigZ in
  let y := IZR (Z.abs (BigZ.to_Z a)) / ⟦B⟧ in
  0 < ⟦B⟧ ∧ 0 <= y <= 1 ∧ ⟦BigZ.abs a⟧ = y * ⟦B⟧ ∧
  (0 <= BigZ.to_Z m)%Z ∧
  ((BigZ.to_Z a <= 0)%Z → exp (⟦a⟧ / ⟦ival.one⟧) = exp (- y) ^ mn) ∧
  ((0 < BigZ.to_Z a)%Z → exp (⟦a⟧ / ⟦ival.one⟧) = (/ exp (- y)) ^ mn).
Proof.
  intros m mn B y. destruct (reduction_spec a) as [Hm Ha]. fold m in Hm, Ha.
  pose proof IZR_one_pos as H1.
  assert (Hmr : 0 < ⟦m⟧) by (apply IZR_lt; lia).
  assert (HB : ⟦B⟧ = ⟦ival.one⟧ * ⟦m⟧).
  { unfold B. by rewrite BigZ.spec_mul, mult_IZR. }
  assert (HBpos : 0 < ⟦B⟧).
  { rewrite HB. by apply Rmult_lt_0_compat. }
  assert (Habs : 0 <= IZR (Z.abs (BigZ.to_Z a)))
    by (apply IZR_le; lia).
  assert (HmINR : INR mn = ⟦m⟧).
  { unfold mn. rewrite INR_IZR_INZ, Z2Nat.id by lia. done. }
  split; [done|]. split.
  { unfold y. split.
    - apply Rmult_le_pos; [done|]. left. by apply Rinv_0_lt_compat.
    - apply (Rmult_le_reg_r ⟦B⟧); [done|].
      unfold Rdiv. rewrite Rmult_assoc, Rinv_l, Rmult_1_r, Rmult_1_l by lra.
      rewrite HB, <- mult_IZR. by apply IZR_le. }
  split.
  { rewrite BigZ.spec_abs. unfold y. field. lra. }
  split; [lia|]. split.
  - intros Hle. rewrite <- exp_mult_nat. f_equal. rewrite HmINR.
    unfold y. rewrite HB.
    rewrite Z.abs_neq, opp_IZR by done. field. lra.
  - intros Hlt. rewrite <- exp_Ropp, Ropp_involutive, <- exp_mult_nat.
    f_equal. rewrite HmINR. unfold y. rewrite HB.
    rewrite Z.abs_eq by lia. field. lra.
Qed.

Lemma exp_down_spec (a : bigZ) :
  ⟦ival.exp_down a⟧ <= exp (⟦a⟧ / ⟦ival.one⟧) * ⟦ival.one⟧.
Proof.
  destruct (exp_reduction a) as (HB & Hy & HA & Hm & Hneg & Hpos).
  set (m := ival.reduction a) in *.
  set (mn := Z.to_nat (BigZ.to_Z m)) in *.
  set (y := IZR (Z.abs (BigZ.to_Z a)) / ⟦(ival.one * m)%bigZ⟧) in *.
  pose proof IZR_one_pos as H1.
  pose proof (exp_pos (- y)) as He.
  unfold ival.exp_down. fold m.
  rewrite BigZ.spec_leb. change (BigZ.to_Z 0) with 0%Z.
  destruct (Z.leb_spec (BigZ.to_Z a) 0) as [Hle|Hlt].
  - destruct (taylor_start (S (2 * ival.half_terms)) _ _ y HA HB)
      as [Hd Hs].
    destruct (ival.taylor _ _ _ _ _ _ _) as [s d]. cbn [fst snd] in Hd, Hs.
    destruct (exp_sum_bounds y ival.half_terms Hy) as [Hlo _].
    rewrite (Hneg Hle).
    assert (Hdm : 0 < ⟦d⟧ ^ mn) by (by apply pow_lt).
    rewrite BigZ.spec_div. apply floor_le.
    { apply lt_IZR. by rewrite pow_spec. }
    rewrite BigZ.spec_mul, mult_IZR, !pow_spec by done. fold mn.
    rewrite BigZ.spec_max. change (BigZ.to_Z 0) with 0%Z.
    set (t := IZR (Z.max 0 (BigZ.to_Z s))).
    assert (Ht0 : 0 <= t) by (apply IZR_le; lia).
    assert (Ht : t <= exp (- y) * ⟦d⟧).
    { unfold t.
      destruct (Z.max_spec 0 (BigZ.to_Z s)) as [[_ Hmax]|[_ Hmax]];
        rewrite Hmax.
      - rewrite Hs. apply Rmult_le_compat_r; lra.
      - apply Rmult_le_pos; lra. }
    assert (Hpow : t ^ mn <= (exp (- y) * ⟦d⟧) ^ mn)
      by (apply pow_incr; lra).
    rewrite Rpow_mult_distr in Hpow.
    apply Rle_trans with (exp (- y) ^ mn * ⟦d⟧ ^ mn * ⟦ival.one⟧).
    + apply Rmult_le_compat_r; lra.
    + lra.
  - destruct (taylor_start (2 * ival.half_terms) _ _ y HA HB) as [Hd Hs].
    destruct (ival.taylor _ _ _ _ _ _ _) as [s d]. cbn [fst snd] in Hd, Hs.
    destruct (exp_sum_bounds y ival.half_terms Hy) as [_ Hhi].
    rewrite (Hpos Hlt).
    assert (Hspos : 0 < ⟦s⟧).
    { rewrite Hs. apply Rmult_lt_0_compat; lra. }
    assert (Hsm : 0 < ⟦s⟧ ^ mn) by (by apply pow_lt).
    rewrite BigZ.spec_div. apply floor_le.
    { apply lt_IZR. by rewrite pow_spec. }
    rewrite BigZ.spec_mul, mult_IZR, !pow_spec by done. fold mn.
    assert (Hle : ⟦d⟧ ^ mn <= (/ exp (- y)) ^ mn * ⟦s⟧ ^ mn).
    { rewrite <- Rpow_mult_distr. apply pow_incr. split; [lra|].
      apply (Rmult_le_reg_l (exp (- y))); [done|].
      rewrite <- Rmult_assoc, Rinv_r, Rmult_1_l by lra.
      rewrite Hs. apply Rmult_le_compat_r; lra. }
    apply Rle_trans with ((/ exp (- y)) ^ mn * ⟦s⟧ ^ mn * ⟦ival.one⟧).
    + apply Rmult_le_compat_r; lra.
    + lra.
Qed.

Lemma exp_up_spec (a : bigZ) :
  exp (⟦a⟧ / ⟦ival.one⟧) * ⟦ival.one⟧ <= ⟦ival.exp_up a⟧.
Proof.
  destruct (exp_reduction a) as (HB & Hy & HA & Hm & Hneg & Hpos).
  set (m := ival.reduction a) in *.
  set (mn := Z.to_nat (BigZ.to_Z m)) in *.
  set (y := IZR (Z.abs (BigZ.to_Z a)) / ⟦(ival.one * m)%bigZ⟧) in *.
  pose proof IZR_one_pos as H1.
  pose proof (exp_pos (- y)) as He.
  unfold ival.exp_up. fold m.
  rewrite BigZ.spec_leb. change (BigZ.to_Z 0) with 0%Z.
  destruct (Z.leb_spec (BigZ.to_Z a) 0) as [Hle|Hlt].
  - destruct (taylor_start (2 * ival.half_terms) _ _ y HA HB) as [Hd Hs].
    destruct (ival.taylor _ _ _ _ _ _ _) as [s d]. cbn [fst snd] in Hd, Hs.
    destruct (exp_sum_bounds y ival.half_terms Hy) as [_ Hhi].
    rewrite (Hneg Hle).
    assert (Hdm : 0 < ⟦d⟧ ^ mn) by (by apply pow_lt).
    unfold ival.cdiv.
    rewrite BigZ.spec_opp, BigZ.spec_div, BigZ.spec_opp. apply ceil_ge.
    { apply lt_IZR. by rewrite pow_spec. }
    rewrite BigZ.spec_mul, mult_IZR, !pow_spec by done. fold mn.
    assert (Hpow : (exp (- y) * ⟦d⟧) ^ mn <= ⟦s⟧ ^ mn).
    { apply pow_incr. split; [apply Rmult_le_pos; lra|].
      rewrite Hs. apply Rmult_le_compat_r; lra. }
    rewrite Rpow_mult_distr in Hpow.
    apply Rle_trans with (exp (- y) ^ mn * ⟦d⟧ ^ mn * ⟦ival.one⟧).
    + lra.
    + apply Rmult_le_compat_r; lra.
  - destruct (taylor_start (S (2 * ival.half_terms)) _ _ y HA HB)
      as [Hd Hs].
    destruct (ival.taylor _ _ _ _ _ _ _) as [s d]. cbn [fst snd] in Hd, Hs.
    destruct (exp_sum_bounds y ival.half_terms Hy) as [Hlo _].
    rewrite BigZ.spec_ltb. change (BigZ.to_Z 0) with 0%Z.
    destruct (Z.ltb_spec 0 (BigZ.to_Z s)) as [Hs0|Hs0].
    + rewrite (Hpos Hlt).
      assert (Hspos : 0 < ⟦s⟧) by (by apply IZR_lt).
      assert (Hsm : 0 < ⟦s⟧ ^ mn) by (by apply pow_lt).
      unfold ival.cdiv.
      rewrite BigZ.spec_opp, BigZ.spec_div, BigZ.spec_opp. apply ceil_ge.
      { apply lt_IZR. by rewrite pow_spec. }
      rewrite BigZ.spec_mul, mult_IZR, !pow_spec by done. fold mn.
      assert (Hle : (/ exp (- y)) ^ mn * ⟦s⟧ ^ mn <= ⟦d⟧ ^ mn).
      { rewrite <- Rpow_mult_distr. apply pow_incr. split.
        - apply Rmult_le_pos; [|lra]. left. by apply Rinv_0_lt_compat.
        - apply (Rmult_le_reg_l (exp (- y))); [done|].
          rewrite <- Rmult_assoc, Rinv_r, Rmult_1_l by lra.
          rewrite Hs. apply Rmult_le_compat_r; lra. }
      apply Rle_trans with ((/ exp (- y)) ^ mn * ⟦s⟧ ^ mn * ⟦ival.one⟧).
      * lra.
      * apply Rmult_le_compat_r; lra.
    + rewrite BigZ.spec_mul, mult_IZR, pow_spec by done. fold mn.
      change (BigZ.to_Z 3) with 3%Z.
      apply Rmult_le_compat_r; [lra|].
      rewrite (Hpos Hlt), <- exp_Ropp, Ropp_involutive, <- exp_mult_nat.
      apply exp_le_3_pow. lra.
Qed.

End exp_enclosure.

Section interval_soundness.
Local Open Scope R_scope.
Local Notation "⟦ x ⟧" := (IZR (BigZ.to_Z x)) (format "⟦ x ⟧").

Lemma contains_zero : contains (ival.mk 0 0) 0.
Proof.
  unfold contains. cbn [ival.lo ival.hi].
  change (BigZ.to_Z 0) with 0%Z. rewrite Rmult_0_l. lra.
Qed.

Lemma contains_add a b x y :
  contains a x → contains b y → contains (ival.add a b) (x + y).
Proof.
  unfold contains, ival.add. cbn [ival.lo ival.hi]. intros [] [].
  rewrite !BigZ.spec_add, !plus_IZR. lra.
Qed.

Lemma contains_sub a b x y :
  contains a x → contains b y → contains (ival.sub a b) (x - y).
Proof.
  unfold contains, ival.sub. cbn [ival.lo ival.hi]. intros [] [].
  rewrite !BigZ.spec_sub, !minus_IZR. lra.
Qed.

(** A product lies between the products of the bounds of its factors. *)
Lemma product_bounds (a b c d x y : R) :
  a <= x <= b → c <= y <= d →
  (a * c <= x * y ∨ a * d <= x * y ∨ b * c <= x * y ∨ b * d <= x * y) ∧
  (x * y <= a * c ∨ x * y <= a * d ∨ x * y <= b * c ∨ x * y <= b * d).
Proof.
  intros [Hax Hxb] [Hcy Hyd]. split.
  - destruct (Rle_dec 0 y) as [Hy|Hy].
    + destruct (Rle_dec 0 a) as [Ha|Ha].
      * left. nra.
      * right. left. nra.
    + destruct (Rle_dec 0 b) as [Hb|Hb].
      * right. right. left. nra.
      * right. right. right. nra.
  - destruct (Rle_dec 0 y) as [Hy|Hy].
    + destruct (Rle_dec 0 b) as [Hb|Hb].
      * right. right. right. nra.
      * right. right. left. nra.
    + destruct (Rle_dec 0 a) as [Ha|Ha].
      * right. left. nra.
      * left. nra.
Qed.

Lemma contains_mul a b x y :
  contains a x → contains b y → contains (ival.mul a b) (x * y).
Proof.
  unfold contains, ival.mul, ival.cdiv. cbn [ival.lo ival.hi].
  intros Hx Hy.
  pose proof IZR_one_pos as H1. pose proof one_pos as H1z.
  destruct (product_bounds _ _ _ _ _ _ Hx Hy) as [Hlo Hhi].
  rewrite <- !mult_IZR, <- !BigZ.spec_mul in Hlo, Hhi.
  rewrite BigZ.spec_opp, !BigZ.spec_div, BigZ.spec_opp,
    !BigZ.spec_min, !BigZ.spec_max.
  set (p1 := BigZ.to_Z (ival.lo a * ival.lo b)) in *.
  set (p2 := BigZ.to_Z (ival.lo a * ival.hi b)) in *.
  set (p3 := BigZ.to_Z (ival.hi a * ival.lo b)) in *.
  set (p4 := BigZ.to_Z (ival.hi a * ival.hi b)) in *.
  replace (x * ⟦ival.one⟧ * (y * ⟦ival.one⟧))
    with (x * y * ⟦ival.one⟧ * ⟦ival.one⟧) in Hlo, Hhi by ring.
  split.
  - apply floor_le; [done|].
    apply Rle_trans with
      (Rmin (Rmin (IZR p1) (IZR p2)) (Rmin (IZR p3) (IZR p4))).
    + assert (Hm : (Z.min (Z.min p1 p2) (Z.min p3 p4) <= p1 ∧
                    Z.min (Z.min p1 p2) (Z.min p3 p4) <= p2 ∧
                    Z.min (Z.min p1 p2) (Z.min p3 p4) <= p3 ∧
                    Z.min (Z.min p1 p2) (Z.min p3 p4) <= p4)%Z) by lia.
      destruct Hm as (M1 & M2 & M3 & M4).
      apply IZR_le in M1, M2, M3, M4.
      repeat apply Rmin_glb; done.
    + destruct Hlo as [H|[H|[H|H]]];
        (eapply Rle_trans; [|exact H]).
      * eapply Rle_trans; [apply Rmin_l|apply Rmin_l].
      * eapply Rle_trans; [apply Rmin_l|apply Rmin_r].
      * eapply Rle_trans; [apply Rmin_r|apply Rmin_l].
      * eapply Rle_trans; [apply Rmin_r|apply Rmin_r].
  - apply ceil_ge; [done|].
    apply Rle_trans with
      (Rmax (Rmax (IZR p1) (IZR p2)) (Rmax (IZR p3) (IZR p4))).
    + destruct Hhi as [H|[H|[H|H]]];
        (eapply Rle_trans; [exact H|]).
      * eapply Rle_trans; [apply Rmax_l|apply Rmax_l].
      * eapply Rle_trans; [apply Rmax_r|apply Rmax_l].
      * eapply Rle_trans; [apply Rmax_l|apply Rmax_r].
      * eapply Rle_trans; [apply Rmax_r|apply Rmax_r].
    + assert (Hm : (p1 <= Z.max (Z.max p1 p2) (Z.max p3 p4) ∧
                    p2 <= Z.max (Z.max p1 p2) (Z.max p3 p4) ∧
                    p3 <= Z.max (Z.max p1 p2) (Z.max p3 p4) ∧
                    p4 <= Z.max (Z.max p1 p2) (Z.max p3 p4))%Z) by lia.
      destruct Hm as (M1 & M2 & M3 & M4).
      apply IZR_le in M1, M2, M3, M4.
      repeat apply Rmax_lub; done.
Qed.

Lemma contains_from_Q (q : Q) : contains (ival.from_Q q) (Q2R q).
Proof.
  unfold contains, ival.from_Q, ival.cdiv. cbn [ival.lo ival.hi].
  pose proof IZR_one_pos as H1.
  rewrite BigZ.spec_opp, !BigZ.spec_div, BigZ.spec_opp, !BigZ.spec_mul,
    !BigZ.spec_of_Z.
  assert (Hd : (0 < Z.pos (Qden q))%Z) by lia.
  assert (Hdr : 0 < IZR (Z.pos (Qden q))) by (by apply IZR_lt).
  assert (E : Q2R q * ⟦ival.one⟧ * IZR (Z.pos (Qden q))
              = IZR (Qnum q * BigZ.to_Z ival.one)).
  { unfold Q2R. rewrite mult_IZR. field. lra. }
  split.
  - apply floor_le; [done|]. rewrite E. lra.
  - apply ceil_ge; [done|]. rewrite E. lra.
Qed.

Lemma contains_exp a x : contains a x → contains (ival.exp a) (exp x).
Proof.
  unfold contains, ival.exp. cbn [ival.lo ival.hi]. intros [Hlo Hhi].
  pose proof IZR_one_pos as H1.
  split.
  - eapply Rle_trans; [apply exp_down_spec|].
    apply Rmult_le_compat_r; [lra|]. apply exp_le_compat.
    apply (Rmult_le_reg_r ⟦ival.one⟧); [done|].
    unfold Rdiv. rewrite Rmult_assoc, Rinv_l, Rmult_1_r by lra. done.
  - eapply Rle_trans; [|apply exp_up_spec].
    apply Rmult_le_compat_r; [lra|]. apply exp_le_compat.
    apply (Rmult_le_reg_r ⟦ival.one⟧); [done|].
    unfold Rdiv. rewrite Rmult_assoc, Rinv_l, Rmult_1_r by lra. done.
Qed.

Lemma Q2R_inject_Z (z : Z) : Q2R (inject_Z z) = IZR z.
Proof. unfold Q2R, inject_Z. simpl. rewrite Rinv_1. ring. Qed.

Lemma Q2R_Qabs (v : Q) : Q2R (Qabs v) = Rabs (Q2R v).
Proof.
  destruct v as [n d]. unfold Qabs, Q2R. simpl.
  rewrite Rabs_mult, abs_IZR. f_equal. symmetry. apply Rabs_pos_eq.
  left. apply Rinv_0_lt_compat. apply IZR_lt. lia.
Qed.

(** An interval accepted by [within] keeps every real it encloses within
    the relative distance [eps] of [v]. *)
Lemma within_sound (eps v : Q) (a : ival.t) (r : R) :
  ival.within eps v a = true → contains a r →
  Rabs (r - Q2R v) <= Q2R eps * Rabs (Q2R v).
Proof.
  unfold ival.within, contains. intros H [Hlo Hhi].
  pose proof IZR_one_pos as H1.
  apply andb_true_iff in H as [Hl Hh].
  apply Qle_bool_iff, Qle_Rle in Hl, Hh.
  rewrite Q2R_mult, Q2R_inject_Z in Hl, Hh.
  rewrite Q2R_minus, Q2R_inject_Z, Q2R_mult, Q2R_Qabs in Hl.
  rewrite Q2R_plus, Q2R_inject_Z, Q2R_mult, Q2R_Qabs in Hh.
  apply Rabs_le. split.
  - apply (Rmult_le_reg_r ⟦ival.one⟧); [done|]. lra.
  - apply (Rmult_le_reg_r ⟦ival.one⟧); [done|]. lra.
Qed.

End interval_soundness.

(** ** Two runs of the same formula *)

#[global] Instance contains_ArithRel :
  ArithRel (λ (r : R) (i : ival.t), contains i r).
Proof.
  split; simpl.
  - apply contains_zero.
  - intros; by apply contains_add.
  - intros; by apply contains_sub.
  - intros; by apply contains_mul.
  - intros; by apply contains_exp.
  - apply contains_from_Q.
Qed.

Section lifting.
Context {T1 T2 : Type} `{A1 : Arith T1} `{A2 : Arith T2}.
Context (rel : T1 → T2 → Prop) `{!ArithRel rel}.

Lemma grad_add_rel (g h : gmap nat T1) (g' h' : gmap nat T2) :
  (∀ k, option_Forall2 rel (g !! k) (g' !! k)) →
  (∀ k, option_Forall2 rel (h !! k) (h' !! k)) →
  ∀ k, option_Forall2 rel (grad_add g h !! k) (grad_add g' h' !! k).
Proof.
  intros Hg Hh k. unfold grad_add. rewrite !lookup_union_with.
  destruct (Hg k), (Hh k); simpl; constructor; try done.
  by apply rel_add.
Qed.

Lemma grad_sub_rel (g h : gmap nat T1) (g' h' : gmap nat T2) :
  (∀ k, option_Forall2 rel (g !! k) (g' !! k)) →
  (∀ k, option_Forall2 rel (h !! k) (h' !! k)) →
  ∀ k, option_Forall2 rel (grad_sub g h !! k) (grad_sub g' h' !! k).
Proof.
  intros Hg Hh k. unfold grad_sub. rewrite !lookup_merge.
  destruct (Hg k), (Hh k); simpl; constructor; try done.
  - by apply rel_sub.
  - apply rel_sub; [apply rel_zero|done].
Qed.

Lemma grad_scale_rel (c : T1) (c' : T2) (g : gmap nat T1)
    (g' : gmap nat T2) :
  rel c c' → (∀ k, option_Forall2 rel (g !! k) (g' !! k)) →
  ∀ k, option_Forall2 rel ((amul c <$> g) !! k) ((amul c' <$> g') !! k).
Proof.
  intros Hc Hg k. rewrite !lookup_fmap.
  destruct (Hg k); simpl; constructor. by apply rel_mul.
Qed.

#[global] Instance num_ArithRel : ArithRel (num_rel rel).
Proof.
  split.
  - split; [apply rel_zero|]. intros k. simpl. rewrite !lookup_empty.
    constructor.
  - intros a a' b b' [Ha Ha'] [Hb Hb']. split; simpl.
    + by apply rel_add.
    + by apply grad_add_rel.
  - intros a a' b b' [Ha Ha'] [Hb Hb']. split; simpl.
    + by apply rel_sub.
    + by apply grad_sub_rel.
  - intros a a' b b' [Ha Ha'] [Hb Hb']. split; simpl.
    + by apply rel_mul.
    + apply grad_add_rel; by apply grad_scale_rel.
  - intros a a' [Ha Ha']. split; simpl.
    + by apply rel_exp.
    + apply grad_scale_rel; [by apply rel_exp|done].
  - intros q. split; simpl; [apply rel_of_Q|].
    intros k. rewrite !lookup_empty. constructor.
Qed.

Lemma on_tape_rel k q : num_rel rel (on_tape k q) (on_tape k q).
Proof.
  split; simpl; [apply rel_of_Q|]. intros j.
  destruct (decide (j = k)) as [->|Hne].
  - rewrite !lookup_singleton_eq. constructor. apply rel_of_Q.
  - rewrite !lookup_singleton_ne by done. constructor.
Qed.

Lemma adjoint_rel (a : Number T1) (b : Number T2) k :
  num_rel rel a b → rel (adjoint a k) (adjoint b k).
Proof.
  intros [_ H]. unfold adjoint. destruct (H k); simpl; [done|].
  apply rel_zero.
Qed.
End lifting.

Section parametricity.
Context {T1 T2 : Type} `{A1 : Arith T1} `{A2 : Arith T2}.
Context (rel : T1 → T2 → Prop) `{!ArithRel rel}.

Lemma of_Q_list_rel (l : list Q) : Forall2 rel (of_Q <$> l) (of_Q <$> l).
Proof. induction l; simpl; constructor; [apply rel_of_Q|done]. Qed.

Lemma dot_rel a a' b b' :
  Forall2 rel a a' → Forall2 rel b b' → rel (dot a b) (dot a' b').
Proof.
  intros Ha. revert b b'.
  induction Ha as [|x x' a a' Hx Ha IH]; intros b b' Hb; simpl.
  - apply rel_zero.
  - destruct Hb as [|y y' b b' Hy Hb]; [apply rel_zero|].
    apply rel_add; [by apply rel_mul|by apply IH].
Qed.

Lemma M_alpha_rel ms alpha alpha' :
  Forall2 rel alpha alpha' →
  Forall2 rel (M_alpha ms alpha) (M_alpha ms alpha').
Proof.
  intros Ha. revert ms.
  induction Ha as [|x x' a a' Hx Ha IH]; intros ms.
  - destruct ms; simpl; repeat constructor; apply rel_of_Q.
  - destruct ms as [|m ms]; simpl.
    + repeat constructor. apply rel_of_Q.
    + apply Forall2_app; [|apply IH].
      induction m; simpl; constructor; [|done].
      apply rel_mul; [done|apply rel_of_Q].
Qed.

Lemma replicate_rel n : Forall2 rel (replicate n azero) (replicate n azero).
Proof. induction n; simpl; constructor; [apply rel_zero|done]. Qed.

Lemma zip_add_rel a a' b b' :
  Forall2 rel a a' → Forall2 rel b b' →
  Forall2 rel (zip_with aadd a b) (zip_with aadd a' b').
Proof.
  intros Ha. revert b b'.
  induction Ha as [|x x' a a' Hx Ha IH]; intros b b' Hb; simpl.
  - constructor.
  - destruct Hb; constructor; [by apply rel_add|by apply IH].
Qed.

Lemma scale_rel c c' a a' :
  rel c c' → Forall2 rel a a' → Forall2 rel (amul c <$> a) (amul c' <$> a').
Proof.
  intros Hc Ha. induction Ha; simpl; constructor; [by apply rel_mul|done].
Qed.

Lemma mat_times_rel Psi Psi' dim v v' :
  Forall2 rel Psi Psi' → Forall2 rel v v' →
  Forall2 rel (mat_times Psi dim v) (mat_times Psi' dim v').
Proof.
  intros HP Hv. revert Psi Psi' HP.
  induction Hv as [|x x' v v' Hx Hv IH]; intros Psi Psi' HP; simpl.
  - apply replicate_rel.
  - apply zip_add_rel.
    + apply scale_rel; [done|]. by apply Forall2_take.
    + apply IH. by apply Forall2_drop.
Qed.

Lemma linear_predictor_rel Z delta delta' omega omega' alpha alpha'
    zeta zeta' Psi Psi' nd :
  Forall2 rel delta delta' → Forall2 rel omega omega' →
  Forall2 rel alpha alpha' → Forall2 rel zeta zeta' →
  Forall2 rel Psi Psi' →
  rel (linear_predictor Z delta omega alpha zeta Psi nd)
      (linear_predictor Z delta' omega' alpha' zeta' Psi' nd).
Proof.
  intros Hd Ho Ha Hz HP. unfold linear_predictor.
  rewrite (Forall2_length _ _ _ Hz).
  pose proof (M_alpha_rel (nd_ms nd) _ _ Ha) as HM.
  repeat apply rel_add.
  - apply dot_rel; [apply of_Q_list_rel|done].
  - apply dot_rel; [apply of_Q_list_rel|done].
  - by apply dot_rel.
  - apply rel_mul; [apply rel_of_Q|].
    apply dot_rel; [done|]. by apply mat_times_rel.
Qed.

Lemma hazard_sum_rel Z delta delta' omega omega' alpha alpha'
    zeta zeta' Psi Psi' table :
  Forall2 rel delta delta' → Forall2 rel omega omega' →
  Forall2 rel alpha alpha' → Forall2 rel zeta zeta' →
  Forall2 rel Psi Psi' →
  rel (hazard_sum Z delta omega alpha zeta Psi table)
      (hazard_sum Z delta' omega' alpha' zeta' Psi' table).
Proof.
  intros Hd Ho Ha Hz HP. unfold hazard_sum.
  assert (H0 : rel azero azero) by apply rel_zero.
  revert H0. generalize (@azero T1 _) (@azero T2 _).
  induction table as [|nd table IH]; intros acc acc' Hacc; simpl; [done|].
  apply IH. apply rel_add; [done|].
  apply rel_mul; [apply rel_of_Q|]. apply rel_exp.
  by apply linear_predictor_rel.
Qed.

Lemma expected_cum_hazzard_eval_rel c nws lower upper Z
    delta delta' omega omega' alpha alpha' zeta zeta' Psi Psi' :
  Forall2 rel delta delta' → Forall2 rel omega omega' →
  Forall2 rel alpha alpha' → Forall2 rel zeta zeta' →
  Forall2 rel Psi Psi' →
  res_rel rel
    (expected_cum_hazzard.eval c nws lower upper Z delta omega alpha
       zeta Psi)
    (expected_cum_hazzard.eval c nws lower upper Z delta' omega' alpha'
       zeta' Psi').
Proof.
  intros Hd Ho Ha Hz HP. unfold expected_cum_hazzard.eval.
  destruct (expected_cum_hazzard.table _ _ _ _ _) as [[tbl|]|s|]; simpl;
    try done.
  by apply hazard_sum_rel.
Qed.
End parametricity.

Section reference.
Context {T1 T2 : Type} `{A1 : Arith T1} `{A2 : Arith T2}.
Context (rel : T1 → T2 → Prop) `{!ArithRel rel}.

Lemma to_tape_rel start l :
  Forall2 (num_rel rel) (to_tape start l) (to_tape start l).
Proof.
  unfold to_tape. revert start.
  induction l as [|q l IH]; intros start; simpl; constructor.
  - apply on_tape_rel; done.
  - rewrite (imap_ext _ (λ k q, on_tape (T := T1) (S start + k) q) l),
      (imap_ext _ (λ k q, on_tape (T := T2) (S start + k) q) l);
      [apply IH| |]; intros; simpl; f_equal; lia.
Qed.

Lemma reference_value_rel lower upper :
  res_rel rel (reference_value lower upper) (reference_value lower upper).
Proof.
  unfold reference_value.
  apply expected_cum_hazzard_eval_rel; try done; apply of_Q_list_rel; done.
Qed.

Lemma reference_gradient_rel lower upper :
  res_rel (num_rel rel) (reference_gradient lower upper)
          (reference_gradient lower upper).
Proof.
  unfold reference_gradient.
  apply (expected_cum_hazzard_eval_rel (num_rel rel));
    apply to_tape_rel.
Qed.
End reference.

Section checks.
Local Open Scope R_scope.

Lemma check_value_sound v (resR : outcome (option R)) resI :
  res_rel (λ r i, contains i r) resR resI →
  check_value v resI = true →
  ∃ r, resR = Ok (Some r) ∧
       Rabs (r - Q2R v) <= Q2R test_eps * Rabs (Q2R v).
Proof.
  unfold check_value, res_rel.
  destruct resI as [[i|]|s|]; try done.
  destruct resR as [[r|]|s|]; try done.
  intros Hrel Hc. exists r. split; [done|]. by eapply within_sound.
Qed.

Lemma check_run_sound v gr (resR : outcome (option (Number R))) resI :
  res_rel (num_rel (λ r i, contains i r)) resR resI →
  check_run v gr resI = true →
  ∃ r, resR = Ok (Some r) ∧
       Rabs (value r - Q2R v) <= Q2R test_eps * Rabs (Q2R v) ∧
       ∀ k t, gr !! k = Some t →
         Rabs (adjoint r k - Q2R t) <= Q2R test_eps * Rabs (Q2R t).
Proof.
  unfold check_run, res_rel.
  destruct resI as [[i|]|s|]; try done.
  destruct resR as [[r|]|s|]; try done.
  intros Hrel Hc. apply andb_true_iff in Hc as [Hv Hg].
  exists r. split; [done|]. split.
  - eapply within_sound; [exact Hv|]. apply Hrel.
  - intros k t Hk. rewrite forallb_forall in Hg.
    specialize (Hg (k, t)). simpl in Hg.
    eapply within_sound.
    + apply Hg. apply list_elem_of_In, list_elem_of_lookup.
      exists k. by rewrite list_lookup_imap, Hk.
    + apply (adjoint_rel (λ r i, contains i r)). done.
Qed.
End checks.

(** ** The reference scenario *)

(** C1, counterexample: the gradients that the test records for the two
    intervals do not have 17 entries, and neither has the parameter vector
    of the scenario (3 + 2 + 3 + 8 + 64 = 80). *)
Lemma C1_gradient_has_80_entries :
  length scenario.gr1 ≠ 17%nat ∧ length scenario.gr2 ≠ 17%nat ∧
  (length scenario.delta + length scenario.omega + length scenario.alpha
   + length scenario.zeta + length scenario.Psi)%nat ≠ 17%nat.
Proof. repeat split; vm_compute; discriminate. Qed.

(** C1, amended: in the reference scenario, with the 100-node rule and
    exact real arithmetic, the integrator returns a value within relative
    error 1e-6 of 3.66100103931602 over [0, 2] and of 4.19535676757197
    over [1, 3]; the recorded gradients have 80 entries each, and the
    gradient-recording run returns, for each interval, the same value and
    an adjoint for every input [k] that is within relative error 1e-6 of
    entry [k] of the recorded gradient. *)
Theorem C1_reference_scenario_within_tolerance :
  (∃ v : R,
     reference_value scenario.lb1 scenario.ub1 = Ok (Some v) ∧
     (Rabs (v - Q2R scenario.true_val1)
      <= Q2R test_eps * Rabs (Q2R scenario.true_val1))%R) ∧
  (∃ v : R,
     reference_value scenario.lb2 scenario.ub2 = Ok (Some v) ∧
     (Rabs (v - Q2R scenario.true_val2)
      <= Q2R test_eps * Rabs (Q2R scenario.true_val2))%R) ∧
  length scenario.gr1 = 80%nat ∧ length scenario.gr2 = 80%nat ∧
  (∃ r : Number R,
     reference_gradient scenario.lb1 scenario.ub1 = Ok (Some r) ∧
     (Rabs (value r - Q2R scenario.true_val1)
      <= Q2R test_eps * Rabs (Q2R scenario.true_val1))%R ∧
     ∀ k t, scenario.gr1 !! k = Some t →
       (Rabs (adjoint r k - Q2R t) <= Q2R test_eps * Rabs (Q2R t))%R) ∧
  (∃ r : Number R,
     reference_gradient scenario.lb2 scenario.ub2 = Ok (Some r) ∧
     (Rabs (value r - Q2R scenario.true_val2)
      <= Q2R test_eps * Rabs (Q2R scenario.true_val2))%R ∧
     ∀ k t, scenario.gr2 !! k = Some t →
       (Rabs (adjoint r k - Q2R t) <= Q2R test_eps * Rabs (Q2R t))%R).
Proof.
  split; [|split; [|split; [reflexivity|split; [reflexivity|split]]]].
  - apply (check_value_sound _ _
             (reference_value (T := ival.t) scenario.lb1 scenario.ub1)).
    + apply (reference_value_rel (λ r i, contains i r)).
    + vm_compute. reflexivity.
  - apply (check_value_sound _ _
             (reference_value (T := ival.t) scenario.lb2 scenario.ub2)).
    + apply (reference_value_rel (λ r i, contains i r)).
    + vm_compute. reflexivity.
  - apply (check_run_sound _ _ _
             (reference_gradient (T := ival.t) scenario.lb1 scenario.ub1)).
    + apply (reference_gradient_rel (λ r i, contains i r)).
    + vm_compute. reflexivity.
  - apply (check_run_sound _ _ _
             (reference_gradient (T := ival.t) scenario.lb2 scenario.ub2)).
    + apply (reference_gradient_rel (λ r i, contains i r)).
    + vm_compute. reflexivity.
Qed.

(** ** The event term of the aggregator *)

Lemma dot_Rdot (a b : list R) : dot a b = Rdot a b.
Proof.
  revert b. induction a as [|x a IH]; intros [|y b]; simpl;
    by rewrite ?IH.
Qed.

Lemma Rdot_nil_r (a : list R) : Rdot a [] = 0%R.
Proof. by destruct a. Qed.

Lemma Rdot_app (a1 a2 z : list R) :
  Rdot (a1 ++ a2) z = (Rdot a1 z + Rdot a2 (drop (length a1) z))%R.
Proof.
  revert z. induction a1 as [|x a1 IH]; intros z; simpl.
  - rewrite drop_0. ring.
  - destruct z as [|y z]; simpl.
    + rewrite Rdot_nil_r. ring.
    + rewrite IH. ring.
Qed.

Lemma Rdot_scale (a : R) (m : list Q) (z : list R) :
  Rdot ((λ v, (a * Q2R v)%R) <$> m) z = (a * Rdot (Q2R <$> m) z)%R.
Proof.
  revert z. induction m as [|v m IH]; intros [|y z]; csimpl; try ring.
  rewrite IH. ring.
Qed.

Lemma Rdot_take (a z : list R) (n : nat) :
  length a ≤ n → Rdot a (take n z) = Rdot a z.
Proof.
  revert z n. induction a as [|x a IH]; intros z n Hn; simpl; [done|].
  simpl in Hn. destruct n as [|n]; [lia|]. destruct z as [|y z]; [done|].
  simpl. rewrite IH by lia. done.
Qed.

(** The stacked, scaled bases of [M_alpha] end with the unit term of the
    frailty; the part before it pairs with [zeta] as the product
    [alpha . crossprod(M, zeta)] of the reference does. *)
Lemma M_alpha_stacked (ms : list (list Q)) (alpha : list R) :
  ∃ S, M_alpha ms alpha = S ++ [1%R] ∧ length S ≤ length (concat ms) ∧
       ∀ z, Rdot S z = Rdot alpha (crossprod_M ms z).
Proof.
  revert alpha. induction ms as [|m ms IH]; intros alpha.
  - exists []. split; [by destruct alpha; simpl; rewrite ?RMicromega.Q2R_1|].
    split; [done|]. intros z. by destruct alpha.
  - destruct alpha as [|a alpha].
    + exists []. split; [by simpl; rewrite RMicromega.Q2R_1|].
      split; [simpl; lia|done].
    + destruct (IH alpha) as (S & HS & Hlen & Hdot).
      exists (((λ v, (a * Q2R v)%R) <$> m) ++ S). split; [|split].
      * simpl. rewrite HS. by rewrite app_assoc.
      * simpl. rewrite !length_app, length_fmap. lia.
      * intros z. rewrite Rdot_app, Rdot_scale, length_fmap, Hdot. done.
Qed.

(** The event term of the aggregator is the negated expected log hazard
    of the R reference. *)
Lemma event_term_reference (Z : list Q) (delta omega alpha zeta : list R)
    (g : list Q) (ms : list (list Q)) :
  length (concat ms) < length zeta →
  survival_dat.event_term Z delta omega alpha zeta g ms
  = (- expected_log_hazard Z delta omega alpha zeta g ms)%R.
Proof.
  intros Hlen. unfold survival_dat.event_term, expected_log_hazard,
    survival_dat.neg.
  destruct (M_alpha_stacked ms alpha) as (S & -> & HS & Hdot).
  rewrite length_app, Nat.add_sub, take_app_length. simpl.
  rewrite (dot_Rdot _ delta), (dot_Rdot _ omega), (dot_Rdot _ zeta).
  rewrite <- Hdot, Rdot_take by lia. ring.
Qed.

(** C4: for a subject of the aggregator, the contribution with event
    indicator 0 is the integrated cumulative hazard and nothing else. With
    the indicator set to 1 and the same bounds the integral is the same
    call, and the contribution differs from it by exactly the negated
    expected log hazard at the upper bound,
    [- Z . delta - g(upper) . omega - alpha . (M' zeta) - zeta_last], as
    the R reference of the test forms it; the slice of the latent vector
    has more entries than the markers' bases together. *)
Theorem C4_event_indicator_adds_event_term (s : survival_dat.t)
    (par : list R) (i j : nat) (nws : node_weight)
    (g : basisMixin) (Zs : simple_mat) (info : survival_dat.obs_input)
    (d : list Z) (lower upper : Q) (y0 : bool) :
  survival_dat.bases_fix s !! i = Some g →
  survival_dat.design_mats s !! i = Some Zs →
  survival_dat.input s !! i = Some info →
  survival_dat.ders s !! i = Some d →
  survival_dat.lbs info !! j = Some lower →
  survival_dat.ubs info !! j = Some upper →
  survival_dat.event info !! j = Some y0 →
  let Z := sm_col Zs j in
  let delta :=
    survival_dat.block par
      (survival_dat.fixef_surv (survival_dat.par_idx s) i) (sm_n_rows Zs) in
  let omega :=
    survival_dat.block par
      (survival_dat.fixef_vary_surv (survival_dat.par_idx s) i)
      (n_basis g) in
  let alpha :=
    survival_dat.block par
      (survival_dat.association (survival_dat.par_idx s) i)
      (length (survival_dat.bases_rng s)) in
  let zeta := survival_dat.zeta_slice s par i in
  let Psi := survival_dat.Psi_slice s par i in
  let integral :=
    expected_cum_hazzard.eval
      (expected_cum_hazzard.mk g (survival_dat.bases_rng s) (sm_n_rows Zs) d)
      nws lower upper Z delta omega alpha zeta Psi in
  survival_dat.eval (with_event s i j false) par j i nws = integral ∧
  ∀ (c0 : R) (gu : list Q) (mu : list (list Q)),
    integral = Ok (Some c0) →
    basis_at g upper 0 = Ok (Some gu) →
    bases_at (survival_dat.bases_rng s) d upper = Ok (Some mu) →
    length (concat mu) < length zeta →
    ∃ c1 : R,
      survival_dat.eval (with_event s i j true) par j i nws = Ok (Some c1) ∧
      (c1 - c0
       = - (Rdot (Q2R <$> Z) delta + Rdot (Q2R <$> gu) omega
            + Rdot alpha (crossprod_M mu (take (length zeta - 1) zeta))
            + default 0 (last zeta)))%R.
Proof.
  intros Hg HZ Hin Hd Hl Hu Hy Z delta omega alpha zeta Psi integral.
  assert (Hev : ∀ y,
    survival_dat.eval (with_event s i j y) par j i nws
    = (int ← integral;
       if y then
         gu ← basis_at g upper 0;
         mu ← bases_at (survival_dat.bases_rng s) d upper;
         Ok (gu' ← gu; mu' ← mu; int' ← int;
             Some (aadd (survival_dat.event_term Z delta omega alpha zeta
                           gu' mu') int'))
       else Ok int)).
  { intros y. unfold survival_dat.eval, with_event. simpl.
    rewrite Hg, HZ, Hd, list_lookup_alter, Hin. simpl.
    case_decide; [|done]. simpl.
    rewrite Hl, Hu, list_lookup_insert_eq by (by eapply lookup_lt_Some).
    reflexivity. }
  split.
  - rewrite Hev. by destruct integral.
  - intros c0 gu mu Hint Hgu Hmu Hlen. rewrite Hev, Hint. simpl.
    rewrite Hgu. simpl. rewrite Hmu. simpl. eexists. split; [done|].
    pose proof (event_term_reference Z delta omega alpha zeta gu mu Hlen)
      as He.
    unfold expected_log_hazard in He. rewrite <- He.
    unfold survival_dat.event_term, survival_dat.neg. simpl. ring.
Qed.

Section aggregator_parametricity.
Context {T1 T2 : Type} `{A1 : Arith T1} `{A2 : Arith T2}.
Context (rel : T1 → T2 → Prop) `{!ArithRel rel}.

Lemma block_rel par par' p n :
  Forall2 rel par par' →
  Forall2 rel (survival_dat.block par p n) (survival_dat.block par' p n).
Proof. intros H. by apply Forall2_take, Forall2_drop. Qed.

Lemma lookup_default_rel par par' k :
  Forall2 rel par par' →
  rel (default azero (par !! k)) (default azero (par' !! k)).
Proof.
  intros H. pose proof (proj1 (Forall2_lookup rel par par') H k) as Hk.
  destruct Hk; simpl; [done|apply rel_zero].
Qed.

Lemma zeta_slice_rel s par par' i :
  Forall2 rel par par' →
  Forall2 rel (survival_dat.zeta_slice s par i)
              (survival_dat.zeta_slice s par' i).
Proof.
  intros H. unfold survival_dat.zeta_slice.
  induction (survival_dat.slice_index s i); simpl; [constructor|].
  constructor; [by apply lookup_default_rel|done].
Qed.

Lemma lookup_grid_rel par par' (f : nat → nat → nat) (cols rows : list nat) :
  Forall2 rel par par' →
  Forall2 rel (c ← cols; (λ r, default azero (par !! f r c)) <$> rows)
              (c ← cols; (λ r, default azero (par' !! f r c)) <$> rows).
Proof.
  intros H.
  assert (Hrow : ∀ c,
    Forall2 rel ((λ r, default azero (par !! f r c)) <$> rows)
                ((λ r, default azero (par' !! f r c)) <$> rows)).
  { intros c. induction rows; simpl; [constructor|].
    constructor; [by apply lookup_default_rel|done]. }
  induction cols as [|c cols IH]; simpl; [constructor|].
  by apply Forall2_app.
Qed.

Lemma Psi_slice_rel s par par' i :
  Forall2 rel par par' →
  Forall2 rel (survival_dat.Psi_slice s par i)
              (survival_dat.Psi_slice s par' i).
Proof.
  intros H. unfold survival_dat.Psi_slice.
  by apply (lookup_grid_rel par par'
    (λ r c, survival_dat.va_vcov (survival_dat.par_idx s) + r
            + c * (survival_dat.n_shared (survival_dat.par_idx s)
                   + survival_dat.n_shared_surv (survival_dat.par_idx s)))).
Qed.

Lemma event_term_rel Z delta delta' omega omega' alpha alpha' zeta zeta'
    g ms :
  Forall2 rel delta delta' → Forall2 rel omega omega' →
  Forall2 rel alpha alpha' → Forall2 rel zeta zeta' →
  rel (survival_dat.event_term Z delta omega alpha zeta g ms)
      (survival_dat.event_term Z delta' omega' alpha' zeta' g ms).
Proof.
  intros Hd Ho Ha Hz. unfold survival_dat.event_term, survival_dat.neg.
  pose proof (M_alpha_rel rel ms _ _ Ha) as HM.
  rewrite (Forall2_length _ _ _ HM).
  repeat apply rel_sub.
  - apply rel_zero.
  - apply dot_rel; [done|apply of_Q_list_rel; done|done].
  - apply dot_rel; [done|apply of_Q_list_rel; done|done].
  - apply dot_rel; [done|by apply Forall2_take|done].
  - rewrite !last_lookup, (Forall2_length _ _ _ Hz).
    by apply lookup_default_rel.
Qed.

Lemma survival_dat_eval_rel s par par' j i nws :
  Forall2 rel par par' →
  res_rel rel (survival_dat.eval s par j i nws)
              (survival_dat.eval s par' j i nws).
Proof.
  intros H. unfold survival_dat.eval.
  destruct (survival_dat.bases_fix s !! i) as [g|]; [|done].
  destruct (survival_dat.design_mats s !! i) as [Zs|]; [|done].
  destruct (survival_dat.input s !! i) as [info|]; [|done].
  destruct (survival_dat.ders s !! i) as [d|]; [|done].
  destruct (survival_dat.lbs info !! j) as [lower|]; [|done].
  destruct (survival_dat.ubs info !! j) as [upper|]; [|done].
  destruct (survival_dat.event info !! j) as [y|]; [|done].
  pose proof (expected_cum_hazzard_eval_rel rel
    (expected_cum_hazzard.mk g (survival_dat.bases_rng s) (sm_n_rows Zs) d)
    nws lower upper (sm_col Zs j) _ _ _ _ _ _ _ _ _ _
    (block_rel _ _ (survival_dat.fixef_surv (survival_dat.par_idx s) i)
       (sm_n_rows Zs) H)
    (block_rel _ _ (survival_dat.fixef_vary_surv (survival_dat.par_idx s) i)
       (n_basis g) H)
    (block_rel _ _ (survival_dat.association (survival_dat.par_idx s) i)
       (length (survival_dat.bases_rng s)) H)
    (zeta_slice_rel s _ _ i H) (Psi_slice_rel s _ _ i H)) as Hint.
  unfold res_rel in Hint.
  destruct (expected_cum_hazzard.eval _ _ _ _ _ _ _ _ _ _)
    as [[c|]|w|],
    (expected_cum_hazzard.eval _ _ _ _ _ _ _ _ _ _) as [[c'|]|w'|];
    simpl; try done.
  - destruct y; [|done].
    destruct (basis_at g upper 0) as [[gu|]|w|]; simpl; try done.
    + destruct (bases_at _ _ _) as [[mu|]|w|]; simpl; try done.
      apply rel_add; [|done].
      apply event_term_rel; try done;
        (by apply block_rel) || (by apply zeta_slice_rel).
    + by destruct (bases_at _ _ _) as [[mu|]|w|].
  - destruct y; [|done].
    destruct (basis_at g upper 0) as [[gu|]|w|]; simpl; try done.
    + by destruct (bases_at _ _ _) as [[mu|]|w|].
    + by destruct (bases_at _ _ _) as [[mu|]|w|].
Qed.

Lemma reference_total_rel :
  res_rel rel (reference_total (T := T1)) (reference_total (T := T2)).
Proof.
  unfold reference_total.
  assert (H0 : res_rel rel (Ok (Some azero)) (Ok (Some azero)))
    by apply rel_zero.
  revert H0.
  generalize (Ok (Some (@azero T1 _))) (Ok (Some (@azero T2 _))).
  induction (_ ≫= _) as [|ij l IH]; intros acc acc' Hacc; simpl; [done|].
  apply IH.
  pose proof (survival_dat_eval_rel reference_survival_dat
    (reference_par (T := T1)) (reference_par (T := T2)) ij.2 ij.1
    reference_rule (of_Q_list_rel rel _)) as Hc.
  unfold res_rel in Hacc, Hc |- *.
  destruct acc as [[a|]|w|], acc' as [[a'|]|w'|]; simpl; try done;
    destruct (survival_dat.eval _ _ _ _ _) as [[c|]|v|],
      (survival_dat.eval _ _ _ _ _) as [[c'|]|v'|]; simpl; try done.
  by apply rel_add.
Qed.
End aggregator_parametricity.

(** The documented total of the aggregation scenario. *)
Lemma aggregation_total_within_tolerance :
  ∃ v : R,
    reference_total = Ok (Some v) ∧
    (Rabs (v - Q2R aggregation.true_val)
     <= Q2R test_eps * Rabs (Q2R aggregation.true_val))%R.
Proof.
  apply (check_value_sound _ _ (reference_total (T := ival.t))).
  - apply (reference_total_rel (λ r i, contains i r)).
  - vm_compute. reflexivity.
Qed.

(** C4 at the first subject of the second outcome type of the
    aggregation test, a censored record with the bounds 0 and 2.1: both
    contributions exist, and setting the event indicator changes the
    contribution by -1.634276, which is
    [- 0.55 - 0.43 * 2.1 - (0.11 * (-0.1 - 0.186 * 2.1)
       - 0.2 * (-0.049 + 0.015 * 2.1 - 0.056 * 2.1^2)
       + 0.25 * (0.114 - 0.126 * 2.1)) - 0.22]. *)
Lemma C4_event_indicator_adds_event_term_witness :
  ∃ c0 c1 : R,
    survival_dat.eval (with_event reference_survival_dat 1 0 false)
      reference_par 0 1 reference_rule = Ok (Some c0) ∧
    survival_dat.eval (with_event reference_survival_dat 1 0 true)
      reference_par 0 1 reference_rule = Ok (Some c1) ∧
    (c1 - c0 = - 1.634276)%R.
Proof.
  destruct (C4_event_indicator_adds_event_term reference_survival_dat
           reference_par 1 0 reference_rule
           (orth_poly_ (orth_poly.raw_poly 1 false))
           (mk_simple_mat aggregation.Z2 1 3)
           (survival_dat.mk_obs_input 3 aggregation.lbs2 aggregation.ubs2
              aggregation.event2)
           [0; 0; 0]%Z 0 2.1 false) as (H0 & H1); try reflexivity.
  unfold expected_cum_hazzard.eval in H0, H1.
  destruct (expected_cum_hazzard.table _ _ _ _ _) as [[tbl|]|w|] eqn:Et;
    [|vm_compute in Et; discriminate..].
  clear Et.
  assert (∃ gu, basis_at (orth_poly_ (orth_poly.raw_poly 1 false)) 2.1 0
                = Ok (Some gu)) as [gu Eg].
  { destruct (basis_at _ _ _) as [[gu|]|w|] eqn:E;
      [by eexists|vm_compute in E; discriminate..]. }
  assert (∃ mu, bases_at (survival_dat.bases_rng reference_survival_dat)
                  [0; 0; 0]%Z 2.1 = Ok (Some mu)) as [mu Em].
  { destruct (bases_at _ _ _) as [[mu|]|w|] eqn:E;
      [by eexists|vm_compute in E; discriminate..]. }
  pose proof Eg as Eg'. vm_compute in Eg'. injection Eg' as <-.
  pose proof Em as Em'. vm_compute in Em'. injection Em' as <-.
  destruct (H1 _ _ _ eq_refl Eg Em) as (c1 & Hc1 & Hd).
  { vm_compute. lia. }
  eexists _, c1. split; [exact H0|]. split; [exact Hc1|].
  rewrite Hd. simpl. unfold Q2R. simpl. lra.
Defined.

(** * Further properties of bases.h *)

(** ** Loops with an invariant *)

Ltac name_body b :=
  match goal with |- context [for_up _ _ ?f _] => set (b := f) end.

Lemma for_up_ind {St} (P : nat → St → Prop) (body : nat → St → outcome St)
    (lo n : nat) (s : St) :
  (∀ i s, lo ≤ i < lo + n → P i s → ∃ s', body i s = Ok s' ∧ P (S i) s') →
  P lo s →
  ∃ s', for_up lo n body s = Ok s' ∧ P (lo + n) s'.
Proof.
  revert lo s. induction n as [|n IH]; intros lo s Hb Hs; simpl.
  - exists s. by rewrite Nat.add_0_r.
  - destruct (Hb lo s) as (s1 & -> & H1); [lia|done|]. simpl.
    destruct (IH (S lo) s1) as (s' & -> & H'); [|done|].
    + intros i s2 Hi. apply Hb. lia.
    + exists s'. split; [done|]. by replace (lo + S n) with (S lo + n) by lia.
Qed.

Lemma rd_range_all (m : buf) (lo n : nat) :
  (∀ i, lo ≤ i < lo + n → is_Some (m !! i)) →
  ∃ l, rd_range m lo n = Ok l ∧ length l = n ∧
       ∀ i, i < n → l !! i = m !! (lo + i).
Proof.
  intros H. exists ((λ i, default NonFin (m !! i)) <$> seq lo n).
  split; [|split].
  - apply rd_range_ok. intros i Hi. destruct (H i Hi) as [v ->]. done.
  - by rewrite length_fmap, length_seq.
  - intros i Hi. rewrite list_lookup_fmap, lookup_seq_lt by done. simpl.
    destruct (H (lo + i)) as [v ->]; [lia|]. done.
Qed.

Lemma qpow_spec (x : Q) (c : nat) : (qpow x c == x ^ Z.of_nat c)%Q.
Proof.
  induction c as [|c IH]; [reflexivity|].
  rewrite Nat2Z.inj_succ, <- Z.add_1_r, Qpower_plus' by lia.
  simpl qpow. rewrite IH. reflexivity.
Qed.

(** ** Raw polynomials: values *)

Lemma raw_value_inter_cells (p : orth_poly.t) (out : buf) (x : Q) :
  ∃ out', orth_poly.raw_value_inter p out x = Ok out' ∧
    ∀ i, out' !! i =
         if decide (i < 1 + (orth_poly.n_basis_v p - 1))
         then Some (Fin (qpow x i)) else out !! i.
Proof.
  unfold orth_poly.raw_value_inter.
  destruct (for_up_ind (λ c (m : buf), ∀ i, m !! i =
              if decide (i < c) then Some (Fin (qpow x i)) else out !! i)
    (λ c out, v ← rdb out (c - 1); Ok (<[c := dmul v (Fin x)]> out))
    1 (orth_poly.n_basis_v p - 1) (<[0 := Fin 1]> out)) as (m & -> & Hm);
    [| |by exists m].
  - intros c m Hc Hm. unfold rdb. rewrite (Hm (c - 1)).
    case_decide; [|lia]. simpl. eexists. split; [reflexivity|].
    intros i. destruct (decide (i = c)) as [->|Hne].
    + rewrite lookup_insert_eq. case_decide; [|lia].
      replace c with (S (c - 1)) at 2 by lia. done.
    + rewrite lookup_insert_ne by done. rewrite Hm.
      repeat case_decide; try done; lia.
  - intros i. destruct (decide (i = 0)) as [->|Hne].
    + by rewrite lookup_insert_eq.
    + rewrite lookup_insert_ne by done. case_decide; [lia|done].
Qed.

Lemma raw_value_no_inter_cells (p : orth_poly.t) (out : buf) (x : Q) :
  ∃ out', orth_poly.raw_value_no_inter p out x = Ok out' ∧
    ∀ i, out' !! i =
         if decide (i < orth_poly.n_basis_v p)
         then Some (Fin (qpow x (S i))) else out !! i.
Proof.
  unfold orth_poly.raw_value_no_inter.
  name_body body.
  destruct (for_up_ind
    (λ c (st : buf * Q), st.2 = qpow x c ∧
       ∀ i, st.1 !! i =
            if decide (i < c) then Some (Fin (qpow x (S i))) else out !! i)
    body 0 (orth_poly.n_basis_v p) (out, 1%Q)) as ([m v] & -> & Hv & Hm).
  - intros c [m v] Hc [Hv Hm]. unfold body. cbn [fst snd] in *. subst v.
    eexists. split; [reflexivity|]. split; [done|]. cbn [fst snd].
    intros i. destruct (decide (i = c)) as [->|Hne].
    + rewrite lookup_insert_eq. by rewrite decide_True by lia.
    + rewrite lookup_insert_ne by done. rewrite Hm.
      destruct (decide (i < c)), (decide (i < S c)); try done; lia.
  - split; [done|]. intros i. cbn [fst snd]. by rewrite decide_False by lia.
  - simpl. exists m. done.
Qed.

(** X1: a raw polynomial with at least one basis function, evaluated with
    order 0, returns the powers of [x]: entry [c] is [x^c] with an
    intercept and [x^(c + 1)] without. *)
Theorem raw_values_are_powers (p : orth_poly.t) (x : Q) :
  orth_poly.raw p = true →
  0 < orth_poly.n_basis_v p →
  ∃ l, eval_vec (orth_poly_ p) x 0 = Ok l ∧
       length l = n_basis (orth_poly_ p) ∧
       ∀ c, c < n_basis (orth_poly_ p) →
         ∃ q, l !! c = Some (Fin q) ∧
              (q == x ^ Z.of_nat (if orth_poly.intercept p then c else S c))%Q.
Proof.
  intros Hraw Hn. unfold eval_vec. simpl.
  unfold orth_poly.eval, orth_poly.n_basis, orth_poly.eval_raw.
  rewrite Hraw. simpl.
  destruct (orth_poly.intercept p).
  - destruct (raw_value_inter_cells p ∅ x) as (m & -> & Hm). simpl.
    destruct (rd_range_all m 0 (orth_poly.n_basis_v p)) as (l & -> & Hl & Hc).
    { intros i Hi. rewrite Hm. case_decide; [done|lia]. }
    exists l. split; [done|]. split; [done|]. intros c Hlt.
    rewrite Hc, Hm by done. simpl. case_decide; [|lia].
    eexists. split; [done|]. exact (qpow_spec x c).
  - destruct (raw_value_no_inter_cells p ∅ x) as (m & -> & Hm). simpl.
    destruct (rd_range_all m 0 (orth_poly.n_basis_v p)) as (l & -> & Hl & Hc).
    { intros i Hi. rewrite Hm. case_decide; [done|lia]. }
    exists l. split; [done|]. split; [done|]. intros c Hlt.
    rewrite Hc, Hm by done. simpl. case_decide; [|lia].
    eexists. split; [done|]. exact (qpow_spec x (S c)).
Qed.

Lemma raw_values_are_powers_witness :
  ∃ l, eval_vec (orth_poly_ (orth_poly.mk 0 [] [] [] true false 3 [])) 2 0
       = Ok l ∧ length l = 3.
Proof.
  destruct (raw_values_are_powers
              (orth_poly.mk 0 [] [] [] true false 3 []) 2)
    as (l & Hl & Hlen & _); [reflexivity|simpl; lia|].
  exists l. split; [exact Hl|exact Hlen].
Defined.

(** ** Raw polynomials: the multiplier of a derivative *)

Lemma ffact_top (c k : nat) :
  ffact (S c) (S k) = (Z.of_nat (S c) * ffact c k)%Z.
Proof.
  induction k as [|k IH]; [simpl; lia|].
  change (ffact (S c) (S (S k)))
    with (ffact (S c) (S k) * (Z.of_nat (S c) - Z.of_nat (S k)))%Z.
  rewrite IH. simpl ffact. lia.
Qed.

Lemma uwrap_small (z : Z) :
  (0 <= z < Z.of_N vajoint_uint_modulus)%Z → orth_poly.uwrap z = Z.to_N z.
Proof. intros H. unfold orth_poly.uwrap. by rewrite Z.mod_small. Qed.

Lemma Z_of_uwrap (z : Z) :
  Z.of_N (orth_poly.uwrap z) = (z mod Z.of_N vajoint_uint_modulus)%Z.
Proof.
  unfold orth_poly.uwrap. rewrite Z2N.id; [done|].
  apply Z.mod_pos_bound. done.
Qed.

Lemma mult_loop_spec (k fuel c : nat) (mult : N) :
  k < c → (Z.of_nat c < Z.of_N vajoint_uint_modulus)%Z → k ≤ fuel →
  (mult < vajoint_uint_modulus)%N →
  orth_poly.mult_loop fuel (N.of_nat c) (N.of_nat (c - 1 - k)) mult
  = orth_poly.uwrap (Z.of_N mult * ffact (c - 1) k).
Proof.
  revert fuel c mult. induction k as [|k IH]; intros fuel c mult Hk Hc Hf Hm.
  - simpl ffact. rewrite Z.mul_1_r, uwrap_small, N2Z.id by lia.
    destruct fuel as [|fuel]; [done|]. simpl.
    rewrite uwrap_small by lia.
    replace (Z.to_N (Z.of_N (N.of_nat c) - 1)) with (N.of_nat (c - 1)) by lia.
    replace (c - 1 - 0) with (c - 1) by lia.
    by rewrite N.ltb_irrefl.
  - destruct fuel as [|fuel]; [lia|]. simpl orth_poly.mult_loop.
    rewrite uwrap_small by lia.
    replace (Z.to_N (Z.of_N (N.of_nat c) - 1)) with (N.of_nat (c - 1)) by lia.
    assert (Hlt : (N.of_nat (c - 1 - S k) <? N.of_nat (c - 1))%N = true)
      by (apply N.ltb_lt; lia).
    rewrite Hlt.
    replace (c - 1 - S k) with (c - 1 - 1 - k) by lia.
    rewrite IH; [|lia|lia|lia|].
    + destruct c as [|[|c]]; [lia|lia|].
      replace (S (S c) - 1) with (S c) by lia.
      replace (S c - 1) with c by lia.
      rewrite ffact_top, Z_of_uwrap. unfold orth_poly.uwrap. f_equal.
      rewrite Z.mul_mod_idemp_l by done. f_equal. lia.
    + unfold orth_poly.uwrap.
      pose proof (Z.mod_pos_bound
        (Z.of_N mult * Z.of_N (N.of_nat (c - 1)))
        (Z.of_N vajoint_uint_modulus) eq_refl). lia.
Qed.

Lemma falling_spec (c ders : nat) :
  0 < ders ≤ c → (Z.of_nat c < Z.of_N vajoint_uint_modulus)%Z →
  orth_poly.falling c (Z.of_nat c - Z.of_nat ders)
  = inject_Z (ffact c ders mod Z.of_N vajoint_uint_modulus).
Proof.
  intros Hd Hc. unfold orth_poly.falling. f_equal.
  rewrite uwrap_small by lia.
  replace (Z.to_N (Z.of_nat c - Z.of_nat ders))
    with (N.of_nat (c - 1 - (ders - 1))) by lia.
  rewrite mult_loop_spec by lia. rewrite Z_of_uwrap. f_equal.
  destruct c as [|c]; [lia|]. destruct ders as [|ders]; [lia|].
  rewrite ffact_top. replace (S c - 1) with c by lia.
  replace (S ders - 1) with ders by lia. lia.
Qed.

Lemma falling_wrapped_bound (c ders : nat) :
  c + 1 < ders → (Z.of_nat ders < Z.of_N vajoint_uint_modulus)%Z →
  orth_poly.falling (c + 1) (Z.of_nat c - Z.of_nat ders + 1)
  = inject_Z (Z.of_nat (c + 1)).
Proof.
  intros Hd Hc. unfold orth_poly.falling. f_equal.
  cbn [orth_poly.mult_loop].
  rewrite (uwrap_small (Z.of_N (N.of_nat (c + 1)) - 1)) by lia.
  assert (E : orth_poly.uwrap (Z.of_nat c - Z.of_nat ders + 1)
              = Z.to_N (Z.of_N vajoint_uint_modulus
                        + (Z.of_nat c - Z.of_nat ders + 1))).
  { unfold orth_poly.uwrap. f_equal. symmetry.
    apply Z.mod_unique with (q := (-1)%Z); lia. }
  rewrite E.
  assert (Hge : (Z.to_N (Z.of_N vajoint_uint_modulus
                         + (Z.of_nat c - Z.of_nat ders + 1))
                 <? Z.to_N (Z.of_N (N.of_nat (c + 1)) - 1))%N = false)
    by (apply N.ltb_ge; lia).
  rewrite Hge. lia.
Qed.

(** ** Raw polynomials: derivatives *)

(** X2: with an intercept, entry [c] of the derivative of order
    [ders > 0] of a raw polynomial is zero for [c < ders]; from [c = ders]
    on it is [x^(c - ders)] times the falling factorial
    [c (c - 1) ... (c - ders + 1)], reduced modulo the width of
    [vajoint_uint], the type in which the code forms the product. *)
Theorem raw_derivative_with_intercept (p : orth_poly.t) (x : Q) (ders : nat) :
  orth_poly.raw p = true →
  orth_poly.intercept p = true →
  0 < ders →
  (Z.of_nat (orth_poly.n_basis_v p) < Z.of_N vajoint_uint_modulus)%Z →
  ∃ l, eval_vec (orth_poly_ p) x (Z.of_nat ders) = Ok l ∧
       length l = n_basis (orth_poly_ p) ∧
       ∀ c, c < n_basis (orth_poly_ p) →
         ∃ q, l !! c = Some (Fin q) ∧
              (q == if c <? ders then 0
                    else inject_Z (ffact c ders
                                   mod Z.of_N vajoint_uint_modulus)
                         * x ^ Z.of_nat (c - ders))%Q.
Proof.
  intros Hraw Hint Hd Hn. unfold eval_vec. simpl.
  unfold orth_poly.eval, orth_poly.n_basis, orth_poly.eval_raw.
  rewrite Hraw, Hint.
  destruct (Z.eqb_spec (Z.of_nat ders) 0) as [E|_]; [lia|].
  destruct (Z.ltb_spec (Z.of_nat ders) 0) as [E|_]; [lia|].
  unfold orth_poly.raw_deriv_inter. rewrite Nat2Z.id.
  set (n := orth_poly.n_basis_v p) in *.
  name_body body.
  destruct (for_up_ind
    (λ c (st : buf * Q), st.2 = qpow x (c - ders) ∧
       ∀ i, st.1 !! i =
            if decide (i < ders) then Some (Fin 0)
            else if decide (i < c) then
              Some (Fin (orth_poly.falling i (Z.of_nat i - Z.of_nat ders)
                         * qpow x (i - ders)))
            else None)
    body ders (n - ders) (fill ∅ ders (Fin 0), 1%Q))
    as ([m v] & -> & Hv & Hm).
  - intros c [m v] Hc [Hv Hm]. unfold body. cbn [fst snd] in *. subst v.
    eexists. split; [reflexivity|]. cbn [fst snd]. split.
    + by replace (S c - ders) with (S (c - ders)) by lia.
    + intros i. destruct (decide (i = c)) as [->|Hne].
      * rewrite lookup_insert_eq.
        rewrite decide_False, decide_True by lia. done.
      * rewrite lookup_insert_ne by done. rewrite Hm.
        destruct (decide (i < ders)); [done|].
        destruct (decide (i < c)), (decide (i < S c)); try done; lia.
  - cbn [fst snd]. split; [by rewrite Nat.sub_diag|].
    intros i. rewrite lookup_fill.
    destruct (decide (i < ders)); [done|]. apply lookup_empty.
  - cbn [fst snd] in *. simpl.
    destruct (rd_range_all m 0 n) as (l & -> & Hl & Hc).
    { intros i Hi. rewrite Hm. destruct (decide (i < ders)); [done|].
      rewrite decide_True by lia. done. }
    exists l. split; [done|]. split; [done|]. intros c Hlt.
    rewrite Hc by done. simpl. rewrite Hm.
    destruct (decide (c < ders)) as [Hcd|Hcd].
    + exists 0%Q. split; [done|].
      apply Nat.ltb_lt in Hcd. rewrite Hcd. reflexivity.
    + rewrite decide_True by lia. eexists. split; [done|].
      assert (Hcd' : (c <? ders) = false) by (apply Nat.ltb_ge; lia).
      rewrite Hcd', falling_spec by lia.
      by rewrite (qpow_spec x (c - ders)).
Qed.

Lemma raw_derivative_with_intercept_witness :
  ∃ l, eval_vec (orth_poly_ (orth_poly.mk 0 [] [] [] true true 4 [])) 2 2
       = Ok l ∧ length l = 4.
Proof.
  destruct (raw_derivative_with_intercept
              (orth_poly.mk 0 [] [] [] true true 4 []) 2 2)
    as (l & Hl & Hlen & _); [reflexivity|reflexivity|lia|simpl; lia|].
  exists l. split; [exact Hl|exact Hlen].
Defined.

(** X3: without an intercept, entry [c] of the derivative of order
    [ders > 0] is a multiple of [x^c] whatever the order. The factor is
    the falling factorial [(c + 1) c ... (c + 2 - ders)] modulo the width
    of [vajoint_uint] when [ders <= c + 1], and [c + 1] when
    [ders > c + 1], where the unsigned bound of the loop wraps. For
    [ders = 1] the entry is the derivative [(c + 1) x^c]. *)
Theorem raw_derivative_without_intercept (p : orth_poly.t) (x : Q)
    (ders : nat) :
  orth_poly.raw p = true →
  orth_poly.intercept p = false →
  0 < ders →
  (Z.of_nat (orth_poly.n_basis_v p) < Z.of_N vajoint_uint_modulus - 1)%Z →
  (Z.of_nat ders < Z.of_N vajoint_uint_modulus)%Z →
  ∃ l, eval_vec (orth_poly_ p) x (Z.of_nat ders) = Ok l ∧
       length l = n_basis (orth_poly_ p) ∧
       ∀ c, c < n_basis (orth_poly_ p) →
         ∃ q, l !! c = Some (Fin q) ∧
              (q == inject_Z (if ders <=? c + 1
                              then ffact (c + 1) ders
                                   mod Z.of_N vajoint_uint_modulus
                              else Z.of_nat (c + 1))
                    * x ^ Z.of_nat c)%Q.
Proof.
  intros Hraw Hint Hd Hn Hdm. unfold eval_vec. simpl.
  unfold orth_poly.eval, orth_poly.n_basis, orth_poly.eval_raw.
  rewrite Hraw, Hint.
  destruct (Z.eqb_spec (Z.of_nat ders) 0) as [E|_]; [lia|].
  destruct (Z.ltb_spec (Z.of_nat ders) 0) as [E|_]; [lia|].
  unfold orth_poly.raw_deriv_no_inter. rewrite Nat2Z.id.
  set (n := orth_poly.n_basis_v p) in *.
  name_body body.
  destruct (for_up_ind
    (λ c (st : buf * Q), st.2 = qpow x c ∧
       ∀ i, i < c → st.1 !! i =
         Some (Fin (orth_poly.falling (i + 1)
                      (Z.of_nat i - Z.of_nat ders + 1) * qpow x i)))
    body 0 n (fill ∅ (ders - 1) (Fin 0), 1%Q))
    as ([m v] & -> & Hv & Hm).
  - intros c [m v] Hc [Hv Hm]. unfold body. cbn [fst snd] in *. subst v.
    eexists. split; [reflexivity|]. cbn [fst snd]. split; [done|].
    intros i Hi. destruct (decide (i = c)) as [->|Hne].
    + by rewrite lookup_insert_eq.
    + rewrite lookup_insert_ne by done. apply Hm. lia.
  - cbn [fst snd]. split; [done|]. intros i Hi. lia.
  - cbn [fst snd] in *. simpl.
    destruct (rd_range_all m 0 n) as (l & -> & Hl & Hc).
    { intros i Hi. rewrite Hm by lia. done. }
    exists l. split; [done|]. split; [done|]. intros c Hlt.
    rewrite Hc by done. simpl. rewrite Hm by lia.
    eexists. split; [done|]. rewrite (qpow_spec x c).
    destruct (Nat.leb_spec ders (c + 1)) as [Hle|Hgt].
    + replace (Z.of_nat c - Z.of_nat ders + 1)%Z
        with (Z.of_nat (c + 1) - Z.of_nat ders)%Z by lia.
      rewrite falling_spec by lia. reflexivity.
    + rewrite falling_wrapped_bound by lia. reflexivity.
Qed.

Lemma raw_derivative_without_intercept_witness :
  ∃ l, eval_vec (orth_poly_ (orth_poly.mk 0 [] [] [] true false 3 [])) 2 2
       = Ok l ∧ length l = 3.
Proof.
  destruct (raw_derivative_without_intercept
              (orth_poly.mk 0 [] [] [] true false 3 []) 2 2)
    as (l & Hl & Hlen & _);
    [reflexivity|reflexivity|lia|simpl; lia|simpl; lia|].
  exists l. split; [exact Hl|exact Hlen].
Defined.

(** ** Raw polynomials: antiderivatives at the lower limit *)

(** [v - v] in binary64: zero for a finite [v], NaN for an infinite one
    and for NaN. *)
Lemma sub_self_spec (v : PrimFloat.float) :
  PrimFloat.sub v v = PrimFloat.zero
  ∨ PrimFloat.is_nan (PrimFloat.sub v v) = true.
Proof.
  assert (H : SpecFloat.SFsub FloatOps.prec FloatOps.emax
                (FloatOps.Prim2SF v) (FloatOps.Prim2SF v)
              = SpecFloat.S754_zero false
              ∨ SpecFloat.SFsub FloatOps.prec FloatOps.emax
                  (FloatOps.Prim2SF v) (FloatOps.Prim2SF v)
                = SpecFloat.S754_nan).
  { destruct (FloatOps.Prim2SF v) as [s|s| |s m e]; simpl.
    - left. by destruct s.
    - right. by destruct s.
    - by right.
    - left. rewrite Z.min_id. unfold SpecFloat.shl_align.
      rewrite Z.sub_diag. destruct s; simpl; rewrite ?Z.pos_sub_diag;
        reflexivity. }
  destruct H as [H|H].
  - left. apply FloatAxioms.Prim2SF_inj. rewrite FloatAxioms.sub_spec.
    exact H.
  - right. unfold PrimFloat.is_nan.
    rewrite FloatAxioms.eqb_spec, FloatAxioms.sub_spec.
    unfold FloatAxioms.SF64sub. rewrite H. reflexivity.
Qed.

(** X4: in binary64 arithmetic, every antiderivative of a raw polynomial
    evaluated at the stored lower limit returns, whatever the order, the
    intercept and the cells of [out] before the call, [n_basis] entries
    each of which is the zero [+0] or a NaN: the two running products are
    the same number [v], and the entry is [v - v]. *)
Theorem raw_integral_zero_or_nan (n : nat) (ll : PrimFloat.float)
    (inter : bool) (out : gmap nat PrimFloat.float) (uders : nat) :
  ∃ out',
    binary64.raw_integral n ll out ll inter uders = Ok out' ∧
    ∀ c, c < n →
      ∃ v, out' !! c = Some v
           ∧ (v = PrimFloat.zero ∨ PrimFloat.is_nan v = true).
Proof.
  unfold binary64.raw_integral.
  match goal with |- context [for_up 2 _ ?f _] => set (body1 := f) end.
  destruct (for_up_ind (λ _ (st : PrimFloat.float * PrimFloat.float),
              st.1 = st.2) body1 2 (uders - 1) (ll, ll))
    as ([vu vl] & -> & Hv); [|done|].
  { intros i [a b] _ Hab. simpl in Hab. subst b. unfold body1.
    eexists. split; [reflexivity|done]. }
  simpl in Hv. subst vl. cbn [mbind outcome_bind].
  set (start := if inter then (vu, vu) else _).
  assert (Hs : start.1 = start.2) by (unfold start; by destruct inter).
  destruct start as [wu wl]. simpl in Hs. subst wl.
  name_body body2.
  destruct (for_up_ind
    (λ c (st : gmap nat PrimFloat.float * PrimFloat.float * PrimFloat.float),
       st.1.2 = st.2 ∧
       ∀ i, i < c → ∃ v, st.1.1 !! i = Some v
                         ∧ (v = PrimFloat.zero ∨ PrimFloat.is_nan v = true))
    body2 0 n (out, wu, wu)) as ([[m a] b] & -> & Hab & Hm); [| |].
  - intros c [[m a] b] _ [Hab Hm]. simpl in Hab. subst b. unfold body2.
    assert (Hcell : ∀ i, i < S c →
      ∃ v, <[c := PrimFloat.sub a a]> m !! i = Some v
           ∧ (v = PrimFloat.zero ∨ PrimFloat.is_nan v = true)).
    { intros i Hi. destruct (decide (i = c)) as [->|Hne].
      - rewrite lookup_insert_eq. eexists. split; [done|].
        apply sub_self_spec.
      - rewrite lookup_insert_ne by done. apply Hm. lia. }
    destruct (uders <? c + 1 - orth_poly.b2n inter);
      (eexists; split; [reflexivity|]); split; done.
  - split; [done|]. intros i Hi. lia.
  - exists m. split; [done|]. exact Hm.
Qed.

(** Both cases occur: with an intercept, order -1 and three basis
    functions, the entries at the lower limit 2 are three zeros, and at the
    lower limit [2^600] they are a zero followed by two NaN, the running
    product [x * (x / 2)] being infinite from the second entry on. *)
Lemma raw_integral_at_lower_limit_examples :
  (r ← binary64.raw_integral 3 (binary64.of_uint 2) ∅ (binary64.of_uint 2)
         true 1;
   Ok ((λ c, PrimFloat.is_zero <$> r !! c) <$> [0; 1; 2]))
  = Ok [Some true; Some true; Some true] ∧
  (r ← binary64.raw_integral 3 binary64.two_600 ∅ binary64.two_600 true 1;
   Ok ((λ c, (λ v, (PrimFloat.is_zero v, PrimFloat.is_nan v)) <$> r !! c)
         <$> [0; 1; 2]))
  = Ok [Some (true, false); Some (false, true); Some (false, true)].
Proof. split; vm_compute; reflexivity. Qed.

(** ** The cursor of the knot-based basis *)

Lemma Qle_bool_false (a b : Q) : Qle_bool a b = false ↔ (b < a)%Q.
Proof.
  split.
  - intros H. apply Qnot_le_lt. intros Hle. apply Qle_bool_iff in Hle.
    congruence.
  - intros H. destruct (Qle_bool a b) eqn:E; [|done].
    apply Qle_bool_iff in E. exfalso. eapply Qlt_not_le; eauto.
Qed.

Lemma cursor_scan_first_above (ks : list Q) (i : nat) (x : Q) (curs j : nat)
    (v : Q) :
  ks !! j = Some v → (x < v)%Q →
  (∀ t u, t < j → ks !! t = Some u → (u <= x)%Q) →
  SplineBasis.cursor_scan ks i x curs = i + j.
Proof.
  revert i curs j. induction ks as [|k ks IH]; intros i curs j Hj Hx Hb;
    [done|].
  destruct j as [|j]; simpl in *.
  - simplify_eq. apply Qltb_lt in Hx as Hx'. rewrite Hx'.
    assert (Hle : Qle_bool x v = true)
      by (apply Qle_bool_iff; by apply Qlt_le_weak).
    rewrite Hle. lia.
  - assert (Hk : Qltb x k = false).
    { apply Qltb_ge. apply (Hb 0); [lia|done]. }
    rewrite Hk, (IH (S i) _ j Hj Hx); [lia|].
    intros t u Ht Hu. apply (Hb (S t)); [lia|done].
Qed.

Lemma cursor_scan_all_below (ks : list Q) (i : nat) (x : Q) (curs : nat) :
  Forall (λ u, (u < x)%Q) ks → SplineBasis.cursor_scan ks i x curs = curs.
Proof.
  revert i. induction ks as [|k ks IH]; intros i H; [done|].
  apply Forall_cons in H as [Hk H]. simpl.
  assert (H1 : Qle_bool x k = false) by by apply Qle_bool_false.
  assert (H2 : Qltb x k = false) by (apply Qltb_ge; by apply Qlt_le_weak).
  rewrite H1, H2. by apply IH.
Qed.

(** X5: when knot [k] is greater than [x], no knot before it is, and [k]
    is at most [ncoef], [set_cursor] returns [k] and does not flag the
    boundary. *)
Theorem set_cursor_first_knot_above (s : SplineBasis.t) (x : Q) (k : nat)
    (v : Q) :
  SplineBasis.knots s !! k = Some v → (x < v)%Q →
  (∀ t u, t < k → SplineBasis.knots s !! t = Some u → (u <= x)%Q) →
  k ≤ SplineBasis.ncoef s →
  SplineBasis.set_cursor s x = Ok (k, false).
Proof.
  intros Hk Hx Hb Hn. unfold SplineBasis.set_cursor.
  rewrite (cursor_scan_first_above _ 0 x 0 k v Hk Hx Hb). simpl.
  assert (E : (SplineBasis.ncoef s <? k) = false) by (apply Nat.ltb_ge; lia).
  by rewrite E.
Qed.

Lemma set_cursor_first_knot_above_witness :
  SplineBasis.set_cursor (bs.base (unit_cubic true)) 0.5 = Ok (4, false).
Proof.
  apply (set_cursor_first_knot_above (bs.base (unit_cubic true)) 0.5 4 1).
  - reflexivity.
  - reflexivity.
  - intros [|[|[|[|t]]]] u Ht Hu; simpl in Hu; simplify_eq;
      try discriminate; lia.
  - vm_compute. lia.
Defined.

(** X6: for a positive order, at a point above all knots or below the
    first knot the knot-based basis returns [n_basis] zeros, for every
    order of derivative. *)
Theorem SplineBasis_zero_outside_knots (s : SplineBasis.t) (x : Q)
    (ders : Z) :
  0 < SplineBasis.order s →
  Forall (λ u, (u < x)%Q) (SplineBasis.knots s)
  ∨ (∃ v, SplineBasis.knots s !! 0 = Some v ∧ (x < v)%Q) →
  eval_vec (SplineBasis_ s) x ders
  = Ok (replicate (n_basis (SplineBasis_ s)) (Fin 0)).
Proof.
  intros Ho Hx. unfold eval_vec. simpl. unfold SplineBasis.eval.
  assert (Hc : SplineBasis.set_cursor s x = Ok (0, false)).
  { unfold SplineBasis.set_cursor.
    assert (E : SplineBasis.cursor_scan (SplineBasis.knots s) 0 x 0 = 0).
    { destruct Hx as [Hx|(v & Hv & Hx)].
      - by apply cursor_scan_all_below.
      - apply (cursor_scan_first_above _ 0 x 0 0 v Hv Hx). intros; lia. }
    rewrite E. done. }
  rewrite Hc. simpl.
  assert (E : (0 <? SplineBasis.order s) = true) by by apply Nat.ltb_lt.
  rewrite E. simpl. apply rd_range_fill.
Qed.

Lemma SplineBasis_zero_outside_knots_witness :
  eval_vec (SplineBasis_ (bs.base (unit_cubic true))) 2 1
  = Ok (replicate 4 (Fin 0)).
Proof.
  apply (SplineBasis_zero_outside_knots (bs.base (unit_cubic true)) 2 1).
  - simpl. lia.
  - left. repeat constructor.
Defined.

Lemma set_cursor_boundary (s : SplineBasis.t) (x : Q) (curs : nat) :
  SplineBasis.set_cursor s x = Ok (curs, true) → curs = SplineBasis.ncoef s.
Proof.
  unfold SplineBasis.set_cursor.
  destruct (_ <? _); [|intros; simplify_eq].
  destruct (rd _ _); simpl; [|done..].
  destruct (Qeq_bool _ _); intros; by simplify_eq.
Qed.

(** X7: when [set_cursor] flags the boundary ([x] is the knot of index
    [ncoef] and the scan ran past it), the derivative of order
    [order - 1] is returned as zero in every entry. *)
Theorem SplineBasis_boundary_top_derivative (s : SplineBasis.t) (x : Q)
    (curs : nat) :
  SplineBasis.set_cursor s x = Ok (curs, true) →
  0 < SplineBasis.ordm1 s →
  eval_vec (SplineBasis_ s) x (Z.of_nat (SplineBasis.ordm1 s))
  = Ok (replicate (n_basis (SplineBasis_ s)) (Fin 0)).
Proof.
  intros Hc Ho. pose proof (set_cursor_boundary _ _ _ Hc) as ->.
  unfold eval_vec. simpl. unfold SplineBasis.eval. rewrite Hc. simpl.
  set (n := SplineBasis.ncoef s).
  assert (Hall : ∀ m : buf,
    (∀ i, i < n → m !! i = Some (Fin 0)) →
    rd_range m 0 (SplineBasis.n_basis s) = Ok (replicate n (Fin 0))).
  { intros m Hm. rewrite (rd_range_ok _ _ _ (λ _, Fin 0)).
    - by rewrite fmap_const_seq.
    - intros i Hi. apply Hm. unfold SplineBasis.n_basis in Hi. lia. }
  assert (Hfill : ∀ i, i < n →
    fill ∅ (SplineBasis.n_basis s) (Fin 0) !! i = Some (Fin 0)).
  { intros i Hi. rewrite lookup_fill. by rewrite decide_True. }
  destruct (_ || _) eqn:Eb; simpl; [by apply Hall|].
  apply orb_false_iff in Eb as [Eb1 Eb2].
  apply Nat.ltb_ge in Eb1.
  assert (Ed : (0 <? Z.of_nat (SplineBasis.ordm1 s))%Z = true)
    by (apply Z.ltb_lt; lia).
  rewrite Ed. name_body body.
  destruct (for_up_ind (λ _ (m : buf), ∀ i, i < n → m !! i = Some (Fin 0))
              body 0 (SplineBasis.order s)
              (fill ∅ (SplineBasis.n_basis s) (Fin 0)))
    as (m & -> & Hm); [|done|by apply Hall].
  intros i m Hi Hm. unfold body, SplineBasis.slow_evaluate.
  rewrite Nat2Z.id, Nat.eqb_refl. simpl. eexists. split; [reflexivity|].
  intros j Hj. destruct (decide (j = i + (n - SplineBasis.order s)))
    as [->|Hne].
  - by rewrite lookup_insert_eq.
  - rewrite lookup_insert_ne by done. by apply Hm.
Qed.

Lemma SplineBasis_boundary_top_derivative_witness :
  eval_vec (SplineBasis_ (bs.base (unit_cubic true))) 1 3
  = Ok (replicate 4 (Fin 0)).
Proof.
  apply (SplineBasis_boundary_top_derivative
           (bs.base (unit_cubic true)) 1 4).
  - reflexivity.
  - vm_compute. lia.
Defined.

(** ** The table of knot differences *)

Lemma diff_table_from_ok (ks : list Q) (curs : nat) (x : Q) (i n : nat) :
  curs + i + n ≤ length ks → i + n ≤ curs →
  ∃ ldel rdel,
    SplineBasis.diff_table_from ks curs x i n = Ok (ldel, rdel) ∧
    length ldel = n ∧ length rdel = n ∧
    ∀ t, t < n → ∃ kr kl,
      ks !! (curs + (i + t)) = Some kr ∧
      ks !! (curs - (i + t + 1)) = Some kl ∧
      rdel !! t = Some (kr - x)%Q ∧ ldel !! t = Some (x - kl)%Q.
Proof.
  revert i. induction n as [|n IH]; intros i H1 H2; simpl.
  - exists [], []. repeat split; try done. intros; lia.
  - destruct (lookup_lt_is_Some_2 ks (curs + i)) as [kr Hkr]; [lia|].
    destruct (lookup_lt_is_Some_2 ks (curs - (i + 1))) as [kl Hkl]; [lia|].
    unfold rd. rewrite Hkr, usub_le, Hkl by lia. simpl.
    destruct (IH (S i)) as (ldel & rdel & -> & Hl & Hr & Ht); [lia|lia|].
    simpl. exists ((x - kl)%Q :: ldel), ((kr - x)%Q :: rdel).
    split; [done|]. split; [simpl; lia|]. split; [simpl; lia|].
    intros [|t] Hlt.
    + exists kr, kl. rewrite Nat.add_0_r. done.
    + destruct (Ht t) as (kr' & kl' & ? & ? & ? & ?); [lia|].
      exists kr', kl'. simpl.
      replace (i + S t) with (S i + t) by lia. done.
Qed.

Lemma Qneqb_comp (a b : Q) : (a == b)%Q → Qneqb a 0 = Qneqb b 0.
Proof.
  intros H. unfold Qneqb. f_equal.
  destruct (Qeq_bool a 0) eqn:Ea, (Qeq_bool b 0) eqn:Eb; try done.
  - apply Qeq_bool_iff in Ea. rewrite H in Ea.
    apply Qeq_bool_iff in Ea. congruence.
  - apply Qeq_bool_iff in Eb. rewrite <- H in Eb.
    apply Qeq_bool_iff in Eb. congruence.
Qed.

(** What [set_no_div_zero] has checked. *)
Lemma set_no_div_zero_den (order : nat) (ks : list Q) (curs j r : nat)
    (kr kl x : Q) :
  0 < order →
  SplineBasis.set_no_div_zero order ks = true →
  order ≤ curs → curs + order ≤ length ks →
  1 ≤ j ≤ order - 1 → r < j →
  ks !! (curs + r) = Some kr → ks !! (curs - (j - 1 - r + 1)) = Some kl →
  Qneqb ((kr - x) + (x - kl)) 0 = true.
Proof.
  intros Ho H Hc Hn Hj Hr Hkr Hkl.
  unfold SplineBasis.set_no_div_zero in H.
  rewrite usub_le in H by lia.
  assert (E : (order - 1 <? length ks) = true) by (apply Nat.ltb_lt; lia).
  rewrite E in H.
  rewrite forallb_forall in H.
  specialize (H curs ltac:(apply in_seq; lia)).
  rewrite forallb_forall in H.
  specialize (H j ltac:(apply in_seq; lia)).
  rewrite forallb_forall in H.
  specialize (H r ltac:(apply in_seq; lia)).
  rewrite Hkr, usub_le, Hkl in H by lia.
  rewrite <- H. apply Qneqb_comp. ring.
Qed.

(** ** The value recurrence away from zero denominators *)

Lemma for_up_ext {St} (f g : nat → St → outcome St) (lo n : nat) (s : St) :
  (∀ i s, lo ≤ i < lo + n → f i s = g i s) →
  for_up lo n f s = for_up lo n g s.
Proof.
  revert lo s. induction n as [|n IH]; intros lo s H; simpl; [done|].
  rewrite H by lia. destruct (g lo s); simpl; [|done..].
  apply IH. intros i s' Hi. apply H. lia.
Qed.

Lemma step_agree (ldel rdel : list Q) (j r : nat) (st : buf * dbl)
    (rr ll : Q) :
  rdel !! r = Some rr → ldel !! (j - 1 - r) = Some ll →
  Qneqb (rr + ll) 0 = true →
  SplineBasis.basis_funcs_safe_step ldel rdel j r st
  = SplineBasis.basis_funcs_fast_step ldel rdel j r st.
Proof.
  intros Hr Hl Hden. destruct st as [b saved].
  unfold SplineBasis.basis_funcs_safe_step, SplineBasis.basis_funcs_fast_step,
    rd.
  rewrite Hr, Hl. simpl. rewrite Hden.
  by destruct (rdb b r).
Qed.

Lemma Qsum_app (l1 l2 : list Q) : (Qsum (l1 ++ l2) == Qsum l1 + Qsum l2)%Q.
Proof.
  induction l1 as [|a l1 IH]; simpl; [ring|]. rewrite IH. ring.
Qed.

Lemma Qsum_insert (l : list Q) (r : nat) (q p : Q) :
  l !! r = Some q → (Qsum (<[r := p]> l) == Qsum l - q + p)%Q.
Proof.
  revert r. induction l as [|a l IH]; intros [|r] H; simpl in *;
    simplify_eq; [ring|].
  rewrite (IH r) by done. ring.
Qed.

Section value_recurrence.
Context (ldel rdel : list Q) (ordm1 : nat).
Context (Hldel : length ldel = ordm1) (Hrdel : length rdel = ordm1).
Context (Hden : ∀ j r rr ll, 1 ≤ j ≤ ordm1 → r < j →
           rdel !! r = Some rr → ldel !! (j - 1 - r) = Some ll →
           Qneqb (rr + ll) 0 = true).

Lemma fast_inner (j : nat) (b : buf) (qs : list Q) :
  1 ≤ j ≤ ordm1 → length qs = j → holds b qs →
  ∃ b' qs' s,
    for_up 0 j (SplineBasis.basis_funcs_fast_step ldel rdel j) (b, Fin 0)
    = Ok (b', Fin s) ∧
    length qs' = j ∧ holds b' qs' ∧ (Qsum qs' + s == Qsum qs)%Q.
Proof.
  intros Hj Hlen Hb.
  destruct (for_up_ind
    (λ r (st : buf * dbl), ∃ qs' s,
       st.2 = Fin s ∧ length qs' = j ∧ holds st.1 qs' ∧
       (∀ i, r ≤ i → qs' !! i = qs !! i) ∧
       (Qsum qs' + s == Qsum qs)%Q)
    (SplineBasis.basis_funcs_fast_step ldel rdel j) 0 j (b, Fin 0))
    as ([b' saved] & Hfor & qs' & s & Hs & Hl' & Hb' & _ & Hsum).
  - intros r [b1 saved] Hr (qs1 & s1 & Hs1 & Hl1 & Hb1 & Hsame & Hsum).
    cbn [fst snd] in *. subst saved.
    destruct (lookup_lt_is_Some_2 rdel r) as [rr Hrr]; [lia|].
    destruct (lookup_lt_is_Some_2 ldel (j - 1 - r)) as [ll Hll]; [lia|].
    destruct (lookup_lt_is_Some_2 qs1 r) as [q Hq]; [lia|].
    pose proof (Hden j r rr ll Hj ltac:(lia) Hrr Hll) as Hne.
    unfold SplineBasis.basis_funcs_fast_step, rd, rdb.
    rewrite Hrr, Hll, (Hb1 r q Hq). simpl.
    unfold Qneqb in Hne. apply negb_true_iff in Hne. rewrite Hne.
    eexists. split; [reflexivity|].
    exists (<[r := (s1 + rr * (q / (rr + ll)))%Q]> qs1), (ll * (q / (rr + ll)))%Q.
    cbn [fst snd]. split; [done|]. split; [by rewrite length_insert|].
    split; [|split].
    + intros i p Hi. destruct (decide (i = r)) as [->|Hir].
      * rewrite list_lookup_insert_eq in Hi by lia. simplify_eq.
        by rewrite lookup_insert_eq.
      * rewrite list_lookup_insert_ne in Hi by done.
        rewrite lookup_insert_ne by done. by apply Hb1.
    + intros i Hi. rewrite list_lookup_insert_ne by lia. apply Hsame. lia.
    + rewrite (Qsum_insert _ _ q) by done. rewrite <- Hsum.
      assert (Hnz : ¬ (rr + ll == 0)%Q).
      { intros E. apply Qeq_bool_iff in E. congruence. }
      field. done.
  - exists qs, 0%Q. cbn [fst snd]. repeat split; try done. ring.
  - cbn [fst snd] in *. subst saved. exists b', qs', s. done.
Qed.

Lemma fast_outer :
  ∃ b qs,
    for_up 1 ordm1 (λ j b,
      '(b, saved) ← for_up 0 j
         (SplineBasis.basis_funcs_fast_step ldel rdel j) (b, Fin 0);
      Ok (<[j := saved]> b)) {[ 0 := Fin 1 ]} = Ok b ∧
    length qs = 1 + ordm1 ∧ holds b qs ∧ (Qsum qs == 1)%Q.
Proof.
  name_body body.
  destruct (for_up_ind
    (λ j (b : buf), ∃ qs, length qs = j ∧ holds b qs ∧ (Qsum qs == 1)%Q)
    body 1 ordm1 {[ 0 := Fin 1 ]}) as (b & Hfor & qs & Hl & Hb & Hsum).
  - intros j b Hj (qs & Hl & Hb & Hsum). unfold body.
    destruct (fast_inner j b qs) as (b' & qs' & s & -> & Hl' & Hb' & Hs');
      [lia|done|done|].
    simpl. eexists. split; [reflexivity|]. exists (qs' ++ [s]).
    split; [rewrite length_app; simpl; lia|]. split.
    + intros i q Hi. destruct (decide (i = j)) as [->|Hij].
      * rewrite lookup_app_r, Hl', Nat.sub_diag in Hi by lia.
        simpl in Hi. simplify_eq. by rewrite lookup_insert_eq.
      * rewrite lookup_insert_ne by done. apply Hb'.
        assert (i < length (qs' ++ [s])) by by eapply lookup_lt_Some.
        rewrite length_app in *. simpl in *.
        rewrite lookup_app_l in Hi by lia. done.
    + rewrite Qsum_app. simpl. rewrite <- Hsum, <- Hs'. ring.
  - exists [1%Q]. split; [done|]. split.
    + intros [|i] q Hi; simpl in Hi; simplify_eq.
      by rewrite lookup_singleton_eq.
    + simpl. ring.
  - exists b, qs. done.
Qed.

End value_recurrence.

Lemma in_range_bounds (s : SplineBasis.t) (curs : nat) :
  0 < SplineBasis.order s →
  SplineBasis.order s ≤ curs ≤ SplineBasis.ncoef s →
  SplineBasis.ordm1 s = SplineBasis.order s - 1 ∧
  curs + SplineBasis.order s ≤ length (SplineBasis.knots s) ∧
  SplineBasis.ncoef s + SplineBasis.order s = length (SplineBasis.knots s).
Proof.
  intros Ho Hc. unfold SplineBasis.ordm1, SplineBasis.ncoef,
    SplineBasis.nknots in *.
  rewrite usub_le by lia.
  destruct (Nat.ltb_spec (SplineBasis.order s)
              (length (SplineBasis.knots s))); lia.
Qed.

Lemma basis_funcs_in_range (s : SplineBasis.t) (curs : nat) (x : Q) :
  0 < SplineBasis.order s →
  SplineBasis.set_no_div_zero (SplineBasis.order s) (SplineBasis.knots s)
  = true →
  SplineBasis.order s ≤ curs ≤ SplineBasis.ncoef s →
  ∃ b qs,
    SplineBasis.basis_funcs s curs x = Ok b ∧
    length qs = SplineBasis.order s ∧ holds b qs ∧ (Qsum qs == 1)%Q ∧
    SplineBasis.basis_funcs
      (SplineBasis.mk (SplineBasis.lower_limit s) (SplineBasis.order s)
         (SplineBasis.knots s) (negb (SplineBasis.no_div_zero s))) curs x
    = Ok b.
Proof.
  intros Ho Hflag Hc.
  destruct (in_range_bounds s curs Ho Hc) as (Hm1 & Hk & Hn).
  destruct (diff_table_from_ok (SplineBasis.knots s) curs x 0
              (SplineBasis.ordm1 s)) as (ldel & rdel & Hdt & Hl & Hr & Ht);
    [lia|lia|].
  assert (Hden : ∀ j r rr ll, 1 ≤ j ≤ SplineBasis.ordm1 s → r < j →
            rdel !! r = Some rr → ldel !! (j - 1 - r) = Some ll →
            Qneqb (rr + ll) 0 = true).
  { intros j r rr ll Hj Hrj Hrr Hll.
    destruct (Ht r) as (kr & _ & Hkr & _ & Hrr' & _); [lia|].
    destruct (Ht (j - 1 - r)) as (_ & kl & _ & Hkl & _ & Hll'); [lia|].
    simpl in *. rewrite Hrr in Hrr'. rewrite Hll in Hll'. simplify_eq.
    apply (set_no_div_zero_den (SplineBasis.order s) (SplineBasis.knots s)
             curs j r); try done; lia. }
  destruct (fast_outer ldel rdel (SplineBasis.ordm1 s) Hl Hr Hden)
    as (b & qs & Hfor & Hlen & Hb & Hsum).
  assert (Hsafe :
    for_up 1 (SplineBasis.ordm1 s) (λ j b,
      '(b, saved) ← for_up 0 j
         (SplineBasis.basis_funcs_safe_step ldel rdel j) (b, Fin 0);
      Ok (<[j := saved]> b)) {[ 0 := Fin 1 ]} = Ok b).
  { rewrite <- Hfor. apply for_up_ext. intros j b1 Hj.
    rewrite (for_up_ext _ (SplineBasis.basis_funcs_fast_step ldel rdel j));
      [done|].
    intros r st Hrj.
    destruct (lookup_lt_is_Some_2 rdel r) as [rr Hrr]; [lia|].
    destruct (lookup_lt_is_Some_2 ldel (j - 1 - r)) as [ll Hll]; [lia|].
    apply (step_agree _ _ _ _ _ rr ll); [done|done|].
    apply (Hden j r rr ll); [lia|lia|done|done]. }
  exists b, qs. split; [|split; [lia|split; [done|split; [done|]]]].
  - unfold SplineBasis.basis_funcs, SplineBasis.diff_table. rewrite Hdt.
    simpl. by destruct (SplineBasis.no_div_zero s).
  - unfold SplineBasis.basis_funcs, SplineBasis.diff_table. simpl.
    change (SplineBasis.ordm1 _) with (SplineBasis.ordm1 s).
    rewrite Hdt. simpl. by destruct (SplineBasis.no_div_zero s).
Qed.

(** X9: when [set_no_div_zero] finds no zero denominator and the cursor of
    [x] is at most [ncoef], the evaluation is the same with [no_div_zero]
    set and cleared: the fast and the guarded path agree. *)
Theorem SplineBasis_paths_agree (s : SplineBasis.t) (flag : bool) (out : buf)
    (x : Q) (ders : Z) (curs : nat) (bd : bool) :
  0 < SplineBasis.order s →
  SplineBasis.set_no_div_zero (SplineBasis.order s) (SplineBasis.knots s)
  = true →
  SplineBasis.set_cursor s x = Ok (curs, bd) →
  curs ≤ SplineBasis.ncoef s →
  SplineBasis.eval (with_flag s flag) out x ders
  = SplineBasis.eval s out x ders.
Proof.
  intros Ho Hflag Hc Hn. unfold SplineBasis.eval.
  change (SplineBasis.set_cursor (with_flag s flag) x)
    with (SplineBasis.set_cursor s x).
  change (SplineBasis.n_basis (with_flag s flag))
    with (SplineBasis.n_basis s).
  rewrite Hc. simpl.
  change (SplineBasis.nknots (with_flag s flag)) with (SplineBasis.nknots s).
  destruct (_ || _) eqn:Eb; [done|].
  apply orb_false_iff in Eb as [Eb _]. apply Nat.ltb_ge in Eb.
  destruct (0 <? ders)%Z; [done|].
  destruct (basis_funcs_in_range s curs x Ho Hflag ltac:(lia))
    as (b & qs & H1 & _ & _ & _ & H2).
  assert (E : SplineBasis.basis_funcs (with_flag s flag) curs x
              = SplineBasis.basis_funcs s curs x).
  { rewrite H1. destruct (decide (flag = SplineBasis.no_div_zero s)) as [->|Hf].
    - rewrite <- H1. by destruct s.
    - rewrite <- H2. unfold with_flag. f_equal. f_equal.
      destruct flag, (SplineBasis.no_div_zero s); done. }
  by rewrite E.
Qed.

Lemma SplineBasis_paths_agree_witness :
  SplineBasis.eval (with_flag (bs.base (unit_cubic true)) false) ∅ 0.5 0
  = SplineBasis.eval (bs.base (unit_cubic true)) ∅ 0.5 0.
Proof.
  apply (SplineBasis_paths_agree (bs.base (unit_cubic true)) false ∅ 0.5 0
           4 false).
  - simpl. lia.
  - reflexivity.
  - reflexivity.
  - vm_compute. lia.
Defined.

(** ** When the fast path is taken *)

Lemma chain_le_sorted (ks : list Q) :
  chainb Qle_bool ks = true →
  ∀ d i a b, ks !! i = Some a → ks !! (i + d) = Some b → (a <= b)%Q.
Proof.
  intros Hc. induction d as [|d IH]; intros i a b Ha Hb.
  - rewrite Nat.add_0_r in Hb. simplify_eq. apply Qle_refl.
  - destruct (lookup_lt_is_Some_2 ks (i + d)) as [c Hcd].
    { apply lookup_lt_Some in Hb. lia. }
    apply Qle_trans with c; [by eapply IH|].
    apply Qle_bool_iff.
    apply (chainb_adjacent Qle_bool ks (i + d)); [done|done|].
    by replace (S (i + d)) with (i + S d) by lia.
Qed.

(** X11: for a positive order, if the knots are in non-decreasing order
    and those of index [order - 1] to [ncoef] (the last lower boundary
    knot, the interior knots, the first upper boundary knot) are strictly
    increasing, [set_no_div_zero] finds no zero denominator. *)
Theorem set_no_div_zero_distinct_knots (order : nat) (ks : list Q) :
  0 < order →
  chainb Qle_bool ks = true →
  chainb Qltb (take (length ks + 2 - 2 * order) (drop (order - 1) ks))
  = true →
  SplineBasis.set_no_div_zero order ks = true.
Proof.
  intros Ho Hle Hlt. unfold SplineBasis.set_no_div_zero.
  rewrite usub_le by lia.
  apply forallb_forall. intros curs Hcurs. apply in_seq in Hcurs.
  apply forallb_forall. intros j Hj. apply in_seq in Hj.
  apply forallb_forall. intros r Hr. apply in_seq in Hr.
  assert (Hend : order - 1 < length ks ∧ curs < length ks - (order - 1)).
  { destruct (Nat.ltb_spec (order - 1) (length ks)); lia. }
  destruct Hend as [Hend1 Hend2].
  rewrite usub_le by lia.
  destruct (ks !! (curs + r)) as [kr|] eqn:Ekr; [|done].
  destruct (ks !! (curs - (j - 1 - r + 1))) as [kl|] eqn:Ekl; [|done].
  destruct (lookup_lt_is_Some_2 ks (curs - 1)) as [a Ha]; [lia|].
  destruct (lookup_lt_is_Some_2 ks curs) as [b Hb]; [lia|].
  assert (H1 : (kl <= a)%Q).
  { apply (chain_le_sorted ks Hle (j - 1 - r) (curs - (j - 1 - r + 1)));
      [done|]. by replace (curs - (j - 1 - r + 1) + (j - 1 - r))
                    with (curs - 1) by lia. }
  assert (H2 : (b <= kr)%Q) by by apply (chain_le_sorted ks Hle r curs).
  assert (H3 : (a < b)%Q).
  { apply Qltb_lt.
    apply (chainb_adjacent Qltb
             (take (length ks + 2 - 2 * order) (drop (order - 1) ks))
             (curs - order)); [done|..].
    - rewrite lookup_take_lt, lookup_drop by lia.
      by replace (order - 1 + (curs - order)) with (curs - 1) by lia.
    - rewrite lookup_take_lt, lookup_drop by lia.
      by replace (order - 1 + S (curs - order)) with curs by lia. }
  unfold Qneqb. apply negb_true_iff.
  destruct (Qeq_bool (kr + - kl) 0) eqn:E; [|done].
  apply Qeq_bool_iff in E. exfalso.
  assert (H4 : (kl < kr)%Q).
  { eapply Qle_lt_trans; [exact H1|]. eapply Qlt_le_trans; eauto. }
  apply (Qlt_irrefl kl). apply Qlt_le_trans with kr; [done|].
  assert (E' : (kr == kl)%Q).
  { rewrite <- (Qplus_0_l kl), <- E. ring. }
  rewrite E'. apply Qle_refl.
Qed.

Lemma set_no_div_zero_distinct_knots_witness :
  SplineBasis.set_no_div_zero 4 [0; 0; 0; 0; 0.3; 0.6; 1; 1; 1; 1]%Q = true.
Proof.
  apply (set_no_div_zero_distinct_knots 4
           [0; 0; 0; 0; 0.3; 0.6; 1; 1; 1; 1]%Q);
    [lia|reflexivity|reflexivity].
Defined.

(** ** B-splines without an intercept *)

(** X12: inside the boundary knots a B-spline returns the entries of its
    knot-based basis at the same point and order, all of them with an
    intercept and all but the first without. *)
Theorem bs_without_intercept_drops_first (b : bs.t) (x : Q) (ders : Z)
    (l : list dbl) :
  bs.outside b x = Ok false →
  eval_vec (SplineBasis_ (bs.base b)) x ders = Ok l →
  (bs.intercept b = false → 0 < length l) →
  eval_vec (bs_ b) x ders = Ok (if bs.intercept b then l else drop 1 l).
Proof.
  intros Hin Hl Hpos. unfold eval_vec in *. simpl in *.
  unfold bs.eval. rewrite Hin. simpl. unfold bs.eval_inside, bs.n_basis.
  apply bind_Ok_inv in Hl as (my & Hmy & Hl).
  destruct (bs.intercept b).
  - rewrite Hmy. simpl. unfold usub. simpl. by rewrite Nat.sub_0_r.
  - rewrite Hmy. simpl.
    apply rd_range_inv in Hl as [Hlen Hl]. specialize (Hpos eq_refl).
    set (n := SplineBasis.n_basis (bs.base b)) in *.
    rewrite usub_le by lia. name_body body.
    destruct (for_up_ind
      (λ i (m : buf), ∀ k, m !! k =
         if decide (k < i - 1) then my !! (k + 1) else None)
      body 1 (n - 1) ∅) as (out & -> & Hout).
    + intros i m Hi Hm. unfold body, rdb.
      destruct (Hl i) as (w & Hw & _); [lia|]. simpl in Hw. rewrite Hw.
      simpl. eexists. split; [reflexivity|]. intros k.
      destruct (decide (k = i - 1)) as [->|Hne].
      * rewrite lookup_insert_eq. destruct (decide (i - 1 < i - 0)); [|lia].
        by replace (i - 1 + 1) with i by lia.
      * rewrite lookup_insert_ne by done. rewrite Hm.
        destruct (decide (k < i - 1)), (decide (k < i - 0)); try done; lia.
    + intros k. by rewrite decide_False by lia.
    + simpl.
      rewrite (rd_range_ok _ _ _ (λ k, default NonFin (l !! (k + 1)))).
      * f_equal. apply list_eq. intros k.
        rewrite list_lookup_fmap, lookup_drop.
        destruct (decide (k < n - 1)) as [Hk|Hk].
        -- rewrite lookup_seq_lt by done. simpl.
           destruct (Hl (k + 1)) as (w & _ & Hw); [lia|].
           replace (S k) with (k + 1) by lia. by rewrite Hw.
        -- rewrite lookup_seq_ge by lia. simpl. symmetry.
           apply lookup_ge_None_2. lia.
      * intros k Hk. rewrite Hout, decide_True by lia.
        destruct (Hl (k + 1)) as (w & Hw & Hlw); [lia|].
        simpl in Hw. rewrite Hw, Hlw. done.
Qed.

Lemma bs_without_intercept_drops_first_witness :
  ∃ l, eval_vec (SplineBasis_ (bs.base (unit_cubic false))) 0.5 1 = Ok l ∧
       eval_vec (bs_ (unit_cubic false)) 0.5 1 = Ok (drop 1 l).
Proof.
  destruct (eval_vec (SplineBasis_ (bs.base (unit_cubic false))) 0.5 1)
    as [l| |] eqn:E; [|vm_compute in E; discriminate..].
  exists l. split; [reflexivity|].
  apply (bs_without_intercept_drops_first (unit_cubic false) 0.5 1 l
           eq_refl E).
  intros _. apply bind_Ok_inv in E as (out & _ & E).
  apply rd_range_inv in E as [E _]. rewrite E. vm_compute. lia.
Defined.

(** ** The matrix of a basis *)

Lemma basis_rows_shape (b : basisMixin) (ders : Z) (centering : list dbl)
    (wrk : buf) (xs : list Q) (rows : list (list dbl)) :
  length centering = n_basis b →
  basis_rows b ders centering wrk xs = Ok rows →
  length rows = length xs ∧ Forall (λ r, length r = n_basis b) rows.
Proof.
  intros Hc. revert wrk rows.
  induction xs as [|x xs IH]; intros wrk rows H; simpl in H.
  - by simplify_eq.
  - apply bind_Ok_inv in H as (wrk' & _ & H).
    apply bind_Ok_inv in H as (row & Hrow & H).
    apply bind_Ok_inv in H as (rows' & Hrows & H). simplify_eq.
    apply IH in Hrows as [Hlen Hall].
    apply rd_range_inv in Hrow as [Hrow _].
    split; [simpl; lia|]. constructor; [|done].
    rewrite length_zip_with. lia.
Qed.

(** X13: a call of [basis] that returns gives one row per point, each of
    [n_basis] entries. *)
Theorem basis_shape (b : basisMixin) (xs : list Q) (ders : Z)
    (centre : option Q) (rows : list (list dbl)) :
  basis b xs ders centre = Ok rows →
  length rows = length xs ∧ Forall (λ r, length r = n_basis b) rows.
Proof.
  unfold basis. intros H.
  apply bind_Ok_inv in H as (centering & Hc & H).
  apply (basis_rows_shape b ders centering ∅); [|done].
  destruct centre as [c|]; [destruct (0 <? ders)%Z|];
    try (simplify_eq; by rewrite length_replicate).
  unfold eval_vec in Hc. apply bind_Ok_inv in Hc as (out & _ & Hc).
  by apply rd_range_inv in Hc as [Hc _].
Qed.

Lemma basis_shape_witness :
  ∃ rows,
    basis (orth_poly_ (orth_poly.mk 0 [] [] [] true true 3 [])) [1; 2; 3]%Q 0
      (Some 0.5%Q) = Ok rows ∧ length rows = 3.
Proof.
  eexists. split; [vm_compute; reflexivity|].
  eapply (basis_shape (orth_poly_ (orth_poly.mk 0 [] [] [] true true 3 []))
            [1; 2; 3]%Q 0 (Some 0.5%Q)).
  vm_compute. reflexivity.
Defined.

(** X14: when the basis has finite values at [c], the matrix of [basis]
    for the single point [c], order 0 and centre [c] is one row of
    [n_basis] zeros. *)
Theorem basis_vanishes_at_centre (b : basisMixin) (c : Q) (v : list dbl) :
  eval_vec b c 0 = Ok v →
  Forall (λ d, is_finite d = true) v →
  ∃ row, basis b [c] 0 (Some c) = Ok [row] ∧
         length row = n_basis b ∧ Forall is_zero row.
Proof.
  intros Hv Hfin. unfold basis. simpl. rewrite Hv. simpl.
  unfold eval_vec in Hv. apply bind_Ok_inv in Hv as (out & -> & Hout).
  simpl. rewrite Hout. simpl. eexists. split; [reflexivity|].
  apply rd_range_inv in Hout as [Hlen _].
  split; [rewrite length_zip_with; lia|].
  clear Hlen. induction Hfin as [|d v Hd Hfin IH]; [constructor|].
  simpl. constructor; [|done].
  destruct d as [q|]; [|done]. exists (q - q)%Q. split; [done|]. ring.
Qed.

Lemma basis_vanishes_at_centre_witness :
  ∃ row, basis (bs_ (unit_cubic true)) [0.5%Q] 0 (Some 0.5%Q) = Ok [row] ∧
         Forall is_zero row.
Proof.
  destruct (eval_vec (bs_ (unit_cubic true)) 0.5 0) as [v| |] eqn:E;
    [|vm_compute in E; discriminate..].
  destruct (basis_vanishes_at_centre (bs_ (unit_cubic true)) 0.5 v E)
    as (row & Hrow & _ & Hz).
  - vm_compute in E. injection E as <-. repeat constructor.
  - exists row. split; [exact Hrow|exact Hz].
Defined.

(** ** B-splines outside the boundary knots *)

Lemma add_scaled_lookup (f : Q) (acc v : list dbl) (i : nat) (o m : dbl) :
  acc !! i = Some o → v !! i = Some m →
  add_scaled f acc v !! i = Some (dadd o (dmul (Fin f) m)).
Proof.
  intros Ho Hm. unfold add_scaled. rewrite lookup_zip_with, Ho. simpl.
  by rewrite Hm.
Qed.

Lemma add_term_cells (b : bs.t) (p : Q) (d : Z) (f : Q) (out : buf)
    (acc v : list dbl) :
  bs.outside b p = Ok false →
  eval_vec (bs_ b) p d = Ok v →
  length acc = bs.n_basis b →
  (∀ i, i < bs.n_basis b → out !! i = acc !! i) →
  ∃ out', bs.add_term b p d f out = Ok out' ∧
    length (add_scaled f acc v) = bs.n_basis b ∧
    ∀ i, i < bs.n_basis b → out' !! i = add_scaled f acc v !! i.
Proof.
  intros Hin Hv Hlen Hout. unfold eval_vec in Hv. simpl in Hv.
  unfold bs.eval in Hv. rewrite Hin in Hv. simpl in Hv.
  apply bind_Ok_inv in Hv as (my & Hmy & Hv).
  apply rd_range_inv in Hv as [Hvl Hv].
  unfold bs.add_term, bs.eval_pivot. rewrite Hin. simpl. rewrite Hmy. simpl.
  name_body body.
  destruct (for_up_update body
    (λ i w, dadd w (dmul (Fin f) (default NonFin (my !! i))))
    0 (bs.n_basis b) out) as (out' & -> & Hout').
  - intros i Hi. rewrite Hout by lia. apply lookup_lt_is_Some_2. lia.
  - intros i m' w Hi Hw. unfold body, rdb. rewrite Hw. simpl.
    destruct (Hv i) as (w' & Hw' & _); [lia|]. simpl in Hw'.
    by rewrite Hw'.
  - exists out'. split; [done|]. split.
    + unfold add_scaled. rewrite length_zip_with. lia.
    + intros i Hi. rewrite Hout', decide_True by lia.
      destruct (Hv i) as (w' & Hw' & Hvi); [lia|]. simpl in Hw'.
      destruct (lookup_lt_is_Some_2 acc i) as [o Ho]; [lia|].
      rewrite Hout, Ho, Hw' by lia. simpl.
      by rewrite (add_scaled_lookup f acc v i o w').
Qed.

Lemma rd_range_list (m : buf) (l : list dbl) (n : nat) :
  length l = n → (∀ i, i < n → m !! i = l !! i) → rd_range m 0 n = Ok l.
Proof.
  intros Hl Hm.
  rewrite (rd_range_ok _ _ _ (λ i, default NonFin (l !! i))).
  - f_equal. apply list_eq. intros i. rewrite list_lookup_fmap.
    destruct (decide (i < n)) as [Hi|Hi].
    + rewrite lookup_seq_lt by done. simpl.
      destruct (lookup_lt_is_Some_2 l i) as [w ->]; [lia|]. done.
    + rewrite lookup_seq_ge by lia. simpl. symmetry.
      apply lookup_ge_None_2. lia.
  - intros i Hi. rewrite Hm by lia.
    destruct (lookup_lt_is_Some_2 l i) as [w ->]; [lia|]. done.
Qed.

Lemma bs_outside_false (b : bs.t) (b0 b1 p : Q) :
  bs.boundary_knots b = [b0; b1] → (b0 <= p)%Q → (p <= b1)%Q →
  bs.outside b p = Ok false.
Proof.
  intros Hb H0 H1. unfold bs.outside, rd. rewrite Hb. simpl.
  assert (E0 : Qltb p b0 = false) by by apply Qltb_ge.
  assert (E1 : Qltb b1 p = false) by by apply Qltb_ge.
  by rewrite E0, E1.
Qed.

Lemma bs_eval_outside (b : bs.t) (b0 b1 x k : Q) (out : buf) (ders : Z) :
  let p :=
    (if Qltb x b0 then 0.75 * b0 + 0.25 * k else 0.75 * b1 + 0.25 * k)%Q in
  let delta := (x - p)%Q in
  let start := fill out (bs.n_basis b) (Fin 0) in
  bs.boundary_knots b = [b0; b1] →
  (x < b0 ∨ b1 < x)%Q →
  bs.knots b !! (if Qltb x b0 then bs.order b
                 else usub (usub (length (bs.knots b)) (bs.order b)) 2)
  = Some k →
  bs.eval b out x ders
  = match ders with
    | 0%Z =>
        out ← bs.add_term b p 0 1 start;
        out ← bs.add_term b p 1 delta out;
        out ← bs.add_term b p 2 (delta * delta / 2) out;
        bs.add_term b p 3 (delta * delta * delta / 6) out
    | 1%Z =>
        out ← bs.add_term b p 1 1 start;
        out ← bs.add_term b p 2 delta out;
        bs.add_term b p 3 (delta * delta / 2) out
    | 2%Z =>
        out ← bs.add_term b p 2 1 start;
        bs.add_term b p 3 delta out
    | 3%Z => bs.add_term b p 3 1 start
    | _ => Throw "ders not implemented"
    end.
Proof.
  intros p delta out' Hbk Hx Hk. unfold bs.eval, bs.outside, rd.
  rewrite Hbk. cbn [lookup list_lookup mbind outcome_bind].
  subst p delta out'. destruct (Qltb x b0) eqn:E.
  - cbn [mbind outcome_bind]. rewrite Hk. cbn [mbind outcome_bind].
    destruct ders as [|[[?|?|]|[?|?|]|]|?]; reflexivity.
  - destruct Hx as [Hx|Hx]; [apply Qltb_lt in Hx; congruence|].
    apply Qltb_lt in Hx. rewrite Hx. cbn [mbind outcome_bind].
    rewrite Hk. cbn [mbind outcome_bind].
    destruct ders as [|[[?|?|]|[?|?|]|]|?]; reflexivity.
Qed.

(** X15: outside the boundary knots a B-spline is its Taylor polynomial of
    degree 3 about the pivot [p], a quarter of the way from the boundary
    knot on the side of [x] to the knot [k] the code reads
    ([knots[order]] below, [knots[n_elem - order - 2]] above). With
    [v0 .. v3] the derivatives of order 0 to 3 at the pivot, which lies
    between the boundary knots, and [delta = x - p], the orders 0 to 3
    at [x] are the sums [v0 + delta v1 + delta^2/2 v2 + delta^3/6 v3],
    [v1 + delta v2 + delta^2/2 v3], [v2 + delta v3] and [v3], added cell
    by cell to zero in this order. *)
Theorem bs_extrapolation_is_taylor (b : bs.t) (b0 b1 x k : Q)
    (v0 v1 v2 v3 : list dbl) :
  let p :=
    (if Qltb x b0 then 0.75 * b0 + 0.25 * k else 0.75 * b1 + 0.25 * k)%Q in
  let delta := (x - p)%Q in
  let zero := replicate (bs.n_basis b) (Fin 0) in
  bs.boundary_knots b = [b0; b1] →
  (x < b0 ∨ b1 < x)%Q →
  bs.knots b !! (if Qltb x b0 then bs.order b
                 else usub (usub (length (bs.knots b)) (bs.order b)) 2)
  = Some k →
  (b0 <= p)%Q → (p <= b1)%Q →
  eval_vec (bs_ b) p 0 = Ok v0 → eval_vec (bs_ b) p 1 = Ok v1 →
  eval_vec (bs_ b) p 2 = Ok v2 → eval_vec (bs_ b) p 3 = Ok v3 →
  eval_vec (bs_ b) x 0
  = Ok (add_scaled (delta * delta * delta / 6)
          (add_scaled (delta * delta / 2)
             (add_scaled delta (add_scaled 1 zero v0) v1) v2) v3) ∧
  eval_vec (bs_ b) x 1
  = Ok (add_scaled (delta * delta / 2)
          (add_scaled delta (add_scaled 1 zero v1) v2) v3) ∧
  eval_vec (bs_ b) x 2 = Ok (add_scaled delta (add_scaled 1 zero v2) v3) ∧
  eval_vec (bs_ b) x 3 = Ok (add_scaled 1 zero v3).
Proof.
  intros p delta zero Hbk Hx Hk Hp0 Hp1 H0 H1 H2 H3.
  pose proof (bs_outside_false b b0 b1 p Hbk Hp0 Hp1) as Hin.
  assert (Hz : ∀ i, i < bs.n_basis b →
            fill ∅ (bs.n_basis b) (Fin 0) !! i = zero !! i).
  { intros i Hi. rewrite lookup_fill, decide_True by done.
    unfold zero. by rewrite lookup_replicate_2. }
  assert (Hzl : length zero = bs.n_basis b) by apply length_replicate.
  unfold eval_vec, eval.
  rewrite !(bs_eval_outside b b0 b1 x k ∅ _ Hbk Hx Hk). fold p delta.
  repeat split.
  - destruct (add_term_cells b p 0 1 _ zero v0 Hin H0 Hzl Hz)
      as (o1 & -> & L1 & C1). simpl.
    destruct (add_term_cells b p 1 delta _ _ v1 Hin H1 L1 C1)
      as (o2 & -> & L2 & C2). simpl.
    destruct (add_term_cells b p 2 (delta * delta / 2) _ _ v2 Hin H2 L2 C2)
      as (o3 & -> & L3 & C3). simpl.
    destruct (add_term_cells b p 3 (delta * delta * delta / 6) _ _ v3
                Hin H3 L3 C3) as (o4 & -> & L4 & C4). simpl.
    by apply rd_range_list.
  - destruct (add_term_cells b p 1 1 _ zero v1 Hin H1 Hzl Hz)
      as (o1 & -> & L1 & C1). simpl.
    destruct (add_term_cells b p 2 delta _ _ v2 Hin H2 L1 C1)
      as (o2 & -> & L2 & C2). simpl.
    destruct (add_term_cells b p 3 (delta * delta / 2) _ _ v3 Hin H3 L2 C2)
      as (o3 & -> & L3 & C3). simpl.
    by apply rd_range_list.
  - destruct (add_term_cells b p 2 1 _ zero v2 Hin H2 Hzl Hz)
      as (o1 & -> & L1 & C1). simpl.
    destruct (add_term_cells b p 3 delta _ _ v3 Hin H3 L1 C1)
      as (o2 & -> & L2 & C2). simpl.
    by apply rd_range_list.
  - destruct (add_term_cells b p 3 1 _ zero v3 Hin H3 Hzl Hz)
      as (o1 & -> & L1 & C1). simpl.
    by apply rd_range_list.
Qed.

Lemma bs_extrapolation_is_taylor_witness :
  ∃ v3,
    eval_vec (bs_ (unit_cubic true)) (0.75 * 1 + 0.25 * 0) 3 = Ok v3 ∧
    eval_vec (bs_ (unit_cubic true)) 1.5 3
    = Ok (add_scaled 1 (replicate 4 (Fin 0)) v3).
Proof.
  destruct (eval_vec (bs_ (unit_cubic true)) (0.75 * 1 + 0.25 * 0) 0)
    as [v0| |] eqn:E0; [|vm_compute in E0; discriminate..].
  destruct (eval_vec (bs_ (unit_cubic true)) (0.75 * 1 + 0.25 * 0) 1)
    as [v1| |] eqn:E1; [|vm_compute in E1; discriminate..].
  destruct (eval_vec (bs_ (unit_cubic true)) (0.75 * 1 + 0.25 * 0) 2)
    as [v2| |] eqn:E2; [|vm_compute in E2; discriminate..].
  destruct (eval_vec (bs_ (unit_cubic true)) (0.75 * 1 + 0.25 * 0) 3)
    as [v3| |] eqn:E3; [|vm_compute in E3; discriminate..].
  exists v3. split; [reflexivity|].
  destruct (bs_extrapolation_is_taylor (unit_cubic true) 0 1 1.5 0
              v0 v1 v2 v3) as (_ & _ & _ & H);
    [reflexivity|right; reflexivity|reflexivity|discriminate|discriminate
    |exact E0|exact E1|exact E2|exact E3|exact H].
Defined.

(** ** Loops that count down *)

Lemma for_down_ind {St} (P : nat → St → Prop) (body : nat → St → outcome St)
    (n : nat) (s : St) :
  (∀ i s, i < n → P (S i) s → ∃ s', body i s = Ok s' ∧ P i s') →
  P n s →
  ∃ s', for_down n body s = Ok s' ∧ P 0 s'.
Proof.
  revert s. induction n as [|n IH]; intros s Hb Hs; simpl.
  - by exists s.
  - destruct (Hb n s) as (s1 & -> & H1); [lia|done|]. simpl.
    apply IH; [|done]. intros i s2 Hi. apply Hb. lia.
Qed.

(** ** The cells written by the knot-based basis *)

Lemma for_up_inv_ind {St} (P : nat → St → Prop)
    (body : nat → St → outcome St) (lo n : nat) (s s' : St) :
  (∀ i s s', lo ≤ i < lo + n → P i s → body i s = Ok s' → P (S i) s') →
  P lo s → for_up lo n body s = Ok s' → P (lo + n) s'.
Proof.
  revert lo s. induction n as [|n IH]; intros lo s Hb Hs H; simpl in H.
  - simplify_eq. by rewrite Nat.add_0_r.
  - apply bind_Ok_inv in H as (s1 & H1 & H).
    replace (lo + S n) with (S lo + n) by lia.
    apply (IH (S lo) s1); [|by eapply (Hb lo); [lia|..]|done].
    intros i s2 s3 Hi. apply Hb. lia.
Qed.

(** X17: an evaluation of the knot-based basis that starts on a buffer
    with no cell written and returns has written the cells
    [0 .. n_basis - 1] and, when the test on the cursor lets it evaluate
    ([order <= curs] and [curs - order <= nknots]), the [order] cells
    from [curs - order] on, and no other cell. *)
Theorem SplineBasis_cells_written (s : SplineBasis.t) (x : Q) (ders : Z)
    (curs : nat) (bd : bool) (out : buf) :
  SplineBasis.set_cursor s x = Ok (curs, bd) →
  SplineBasis.eval s ∅ x ders = Ok out →
  dom out
  = set_seq 0 (SplineBasis.n_basis s)
    ∪ (if (curs <? SplineBasis.order s)
          || (SplineBasis.nknots s <? curs - SplineBasis.order s)
       then ∅
       else set_seq (curs - SplineBasis.order s) (SplineBasis.order s)).
Proof.
  intros Hc H. unfold SplineBasis.eval in H. rewrite Hc in H. simpl in H.
  assert (Hfill : dom (fill (∅ : buf) (SplineBasis.n_basis s) (Fin 0))
                  = set_seq 0 (SplineBasis.n_basis s)).
  { by rewrite dom_fill, dom_empty_L, union_empty_r_L. }
  destruct (_ || _); [simplify_eq; by rewrite Hfill, union_empty_r_L|].
  set (io := curs - SplineBasis.order s) in *.
  assert (Hloop : ∀ (body : nat → buf → outcome buf),
    (∀ i m m', body i m = Ok m' → ∃ v, m' = <[i + io := v]> m) →
    for_up 0 (SplineBasis.order s) body
      (fill ∅ (SplineBasis.n_basis s) (Fin 0)) = Ok out →
    dom out = set_seq 0 (SplineBasis.n_basis s)
              ∪ set_seq io (SplineBasis.order s)).
  { intros body Hbody Hfor.
    apply (for_up_inv_ind
      (λ i (m : buf), dom m = set_seq 0 (SplineBasis.n_basis s) ∪ set_seq io i)
      body 0 (SplineBasis.order s) _ out) in Hfor; [done| |].
    - intros i m m' _ Hm Hb. apply Hbody in Hb as [v ->].
      rewrite dom_insert_L, Hm, set_seq_S_end_union_L.
      rewrite (Nat.add_comm i io), !(assoc_L (∪)).
      by rewrite (comm_L (∪) {[io + i]}).
    - rewrite Hfill. cbn [set_seq]. by rewrite union_empty_r_L. }
  destruct (0 <? ders)%Z.
  - eapply Hloop; [|exact H]. intros i m m' Hb.
    apply bind_Ok_inv in Hb as (v & _ & Hb). exists v. by simplify_eq.
  - apply bind_Ok_inv in H as (wrk & _ & H).
    eapply Hloop; [|exact H]. intros i m m' Hb.
    apply bind_Ok_inv in Hb as (v & _ & Hb). exists v. by simplify_eq.
Qed.

Lemma SplineBasis_cells_written_witness :
  ∃ out, SplineBasis.eval (bs.base (unit_cubic true)) ∅ 0.5 0 = Ok out ∧
         dom out = set_seq 0 4 ∪ set_seq 0 4.
Proof.
  destruct (SplineBasis.eval (bs.base (unit_cubic true)) ∅ 0.5 0)
    as [out| |] eqn:E; [|vm_compute in E; discriminate..].
  exists out. split; [reflexivity|].
  apply (SplineBasis_cells_written (bs.base (unit_cubic true)) 0.5 0 4 false
           out eq_refl E).
Defined.

(** With knots that are not repeated at the upper end the cursor can pass
    [ncoef], and the evaluation then writes the cell after the last one. *)
Lemma SplineBasis_open_knots_overrun :
  let s := SplineBasis.mk 0 3 [0; 1; 2; 3; 4; 5; 6]%Q true in
  SplineBasis.n_basis s = 4 ∧
  SplineBasis.set_cursor s 4.5 = Ok (5, false) ∧
  ∃ out, SplineBasis.eval s ∅ 4.5 0 = Ok out ∧ is_Some (out !! 4).
Proof.
  split; [reflexivity|]. split; [reflexivity|].
  eexists. split; [reflexivity|]. vm_compute. eauto.
Qed.

(** ** I-splines inside the unit interval *)

Lemma length_running_sums (js k : nat) (l : list dbl) :
  length (running_sums js k l) = length l.
Proof. revert k. induction l as [|v l IH]; intros k; simpl; [done|]. by rewrite IH. Qed.

Lemma running_sums_lookup (js k : nat) (l : list dbl) (i : nat) (v : dbl) :
  l !! i = Some v →
  running_sums js k l !! i
  = Some (if js <? k + i then Fin 0
          else match running_sums js k l !! S i with
               | Some r => dadd v r
               | None => v
               end).
Proof.
  revert k i. induction l as [|w l IH]; intros k i Hi; [done|].
  destruct i as [|i]; simpl in *.
  - simplify_eq. rewrite Nat.add_0_r. by destruct (running_sums js (S k) l).
  - rewrite (IH (S k) i Hi). by replace (S k + i) with (k + S i) by lia.
Qed.

Lemma rd_range_list_from (m : buf) (l : list dbl) (lo n : nat) :
  length l = n → (∀ i, i < n → m !! (lo + i) = l !! i) →
  rd_range m lo n = Ok l.
Proof.
  intros Hl Hm.
  rewrite (rd_range_ok _ _ _ (λ i, default NonFin (l !! (i - lo)))).
  - f_equal. apply list_eq. intros i. rewrite list_lookup_fmap.
    destruct (decide (i < n)) as [Hi|Hi].
    + rewrite lookup_seq_lt by done. simpl.
      replace (lo + i - lo) with i by lia.
      destruct (lookup_lt_is_Some_2 l i) as [w ->]; [lia|]. done.
    + rewrite lookup_seq_ge by lia. simpl. symmetry.
      apply lookup_ge_None_2. lia.
  - intros i Hi. replace i with (lo + (i - lo)) at 1 by lia.
    rewrite Hm by lia.
    destruct (lookup_lt_is_Some_2 l (i - lo)) as [w ->]; [lia|]. done.
Qed.

(** X18: inside the unit interval an I-spline is computed from the entries
    of its B-spline at the same point and order: from right to left, an
    entry whose index is above the cut [js] becomes zero and every other
    entry but the last is added to the result on its right; for
    [ders = 0] every entry but the last whose index plus [order + 1] is
    below the cut is then set to one; without an intercept the first
    entry is dropped. [js] is the number of leading knots, the last knot
    left out, that are below [x], or [order + 1] without interior
    knots. *)
Theorem iSpline_is_running_sum (s : iSpline.t) (x : Q) (ders : Z)
    (bl : list dbl) :
  let B := iSpline.bspline s in
  let js :=
    if 0 <? length (bs.interior_knots B)
    then lower_bound (bs.knots B) (length (bs.knots B) - 1) x
    else iSpline.order s + 1 in
  let sums := running_sums js 0 bl in
  let cells :=
    if (ders =? 0)%Z then saturated (iSpline.order s) js sums else sums in
  (0 <= x)%Q → (x <= 1)%Q →
  eval_vec (bs_ B) x ders = Ok bl →
  0 < length bl →
  eval_vec (iSpline_ s) x ders
  = Ok (if iSpline.intercept s then cells else drop 1 cells).
Proof.
  intros B js sums cells Hx0 Hx1 Hbl Hpos.
  unfold eval_vec in Hbl. apply bind_Ok_inv in Hbl as (b & Hb & Hbl).
  simpl in Hb. apply rd_range_inv in Hbl as [Hlen Hcell].
  change (n_basis (bs_ B)) with (bs.n_basis B) in Hlen, Hcell.
  set (n_b := bs.n_basis B) in *.
  assert (Hb0 : ∀ k, k < n_b → b !! k = bl !! k).
  { intros k Hk. destruct (Hcell k Hk) as (w & Hw & Hlw).
    simpl in Hw. by rewrite Hw, Hlw. }
  assert (Hsl : length sums = n_b)
    by (unfold sums; by rewrite length_running_sums).
  unfold eval_vec. simpl. unfold iSpline.eval. fold B n_b.
  assert (E0 : Qltb x 0 = false) by by apply Qltb_ge.
  assert (E1 : Qle_bool x 1 = true) by by apply Qle_bool_iff.
  rewrite E0, E1, Hb. simpl. fold js.
  (* the running sums *)
  match goal with |- context [for_down n_b ?f b] => set (body1 := f) end.
  destruct (for_down_ind
    (λ j (m : buf), ∀ k, k < n_b →
       m !! k = if decide (j ≤ k) then sums !! k else bl !! k)
    body1 n_b b) as (b1 & -> & Hb1).
  { intros j m Hj Hm. unfold body1.
    destruct (lookup_lt_is_Some_2 bl j) as [v Hv]; [lia|].
    pose proof (running_sums_lookup js 0 bl j v Hv) as Hs. fold sums in Hs.
    simpl in Hs.
    destruct (js <? j) eqn:Ejs.
    - eexists. split; [reflexivity|]. intros k Hk.
      destruct (decide (k = j)) as [->|Hne].
      + by rewrite lookup_insert_eq, decide_True, Hs by lia.
      + rewrite lookup_insert_ne by done. rewrite Hm by done.
        destruct (decide (S j ≤ k)), (decide (j ≤ k)); try done; lia.
    - destruct (Nat.eqb_spec j (n_b - 1)) as [Ej|Ej]; simpl.
      + eexists. split; [reflexivity|]. intros k Hk. rewrite Hm by done.
        destruct (decide (k = j)) as [->|Hne].
        * rewrite decide_False, decide_True by lia. rewrite Hs, Hv.
          rewrite (lookup_ge_None_2 sums (S j)) by lia. done.
        * destruct (decide (S j ≤ k)), (decide (j ≤ k)); try done; lia.
      + unfold rdb. rewrite (Hm j), decide_False, Hv by lia. simpl.
        rewrite (Hm (j + 1)), decide_True by lia.
        destruct (lookup_lt_is_Some_2 sums (j + 1)) as [r Hr]; [lia|].
        rewrite Hr. simpl. eexists. split; [reflexivity|].
        intros k Hk. destruct (decide (k = j)) as [->|Hne].
        * rewrite lookup_insert_eq, decide_True, Hs by lia.
          replace (S j) with (j + 1) by lia. by rewrite Hr.
        * rewrite lookup_insert_ne by done. rewrite Hm by done.
          destruct (decide (S j ≤ k)), (decide (j ≤ k)); try done; lia. }
  { intros k Hk. rewrite decide_False by lia. by apply Hb0. }
  simpl.
  assert (Hb1' : ∀ k, k < n_b → b1 !! k = sums !! k).
  { intros k Hk. rewrite Hb1 by done. by rewrite decide_True by lia. }
  clear Hb1.
  (* the cells set to one *)
  assert (Hsat : ∃ b2,
    (if (ders =? 0)%Z
     then for_down (usub n_b 1) (λ j b,
            if j + iSpline.order s + 1 <? js then Ok (<[j := Fin 1]> b)
            else Ok b) b1
     else Ok b1) = Ok b2 ∧ ∀ k, k < n_b → b2 !! k = cells !! k).
  { unfold cells. destruct (ders =? 0)%Z; [|by exists b1].
    rewrite usub_le by lia.
    match goal with |- context [for_down _ ?f b1] => set (body2 := f) end.
    destruct (for_down_ind
      (λ j (m : buf), ∀ k, k < n_b →
         m !! k = if decide (j ≤ k)
                  then saturated (iSpline.order s) js sums !! k
                  else sums !! k)
      body2 (n_b - 1) b1) as (b2 & -> & Hb2).
    - intros j m Hj Hm. unfold body2.
      assert (Hsj : saturated (iSpline.order s) js sums !! j
                    = (λ v, if j + iSpline.order s + 1 <? js then Fin 1
                            else v) <$> sums !! j).
      { unfold saturated. rewrite list_lookup_imap.
        destruct (lookup_lt_is_Some_2 sums j) as [w ->]; [lia|]. simpl.
        assert (E : (S j <? length sums) = true)
          by (apply Nat.ltb_lt; lia).
        by rewrite E. }
      destruct (lookup_lt_is_Some_2 sums j) as [w Hw]; [lia|].
      rewrite Hw in Hsj. simpl in Hsj.
      destruct (j + iSpline.order s + 1 <? js);
        (eexists; split; [reflexivity|]; intros k Hk;
         destruct (decide (k = j)) as [->|Hne];
         [|try rewrite lookup_insert_ne by done; rewrite Hm by done;
           destruct (decide (S j ≤ k)), (decide (j ≤ k)); try done; lia]).
      + by rewrite lookup_insert_eq, decide_True, Hsj by lia.
      + rewrite Hm by done. by rewrite decide_False, decide_True, Hsj by lia.
    - intros k Hk. rewrite Hb1' by done.
      destruct (decide (n_b - 1 ≤ k)); [|done].
      unfold saturated. rewrite list_lookup_imap.
      destruct (sums !! k) as [w|]; [|done]. simpl.
      assert (E : (S k <? length sums) = false)
        by (apply Nat.ltb_ge; lia).
      by rewrite E.
    - exists b2. split; [done|]. intros k Hk. rewrite Hb2 by done.
      by rewrite decide_True by lia. }
  destruct Hsat as (b2 & -> & Hb2). simpl.
  assert (Hcl : length cells = n_b).
  { unfold cells, saturated. destruct (ders =? 0)%Z; [|done].
    by rewrite length_imap. }
  unfold iSpline.n_basis. fold B n_b.
  destruct (iSpline.intercept s).
  - assert (Hrd : rd_range b2 0 n_b = Ok cells)
      by by apply rd_range_list.
    rewrite Hrd. simpl. rewrite usub_le, Nat.sub_0_r by lia.
    by apply (rd_range_copy b2 0).
  - assert (En : (n_b =? 0) = false) by (apply Nat.eqb_neq; lia).
    rewrite En.
    assert (Hrd : rd_range b2 1 (n_b - 1) = Ok (drop 1 cells)).
    { apply rd_range_list_from; [rewrite length_drop; lia|].
      intros i Hi. rewrite Hb2 by lia. by rewrite lookup_drop. }
    rewrite Hrd. simpl. rewrite usub_le by lia.
    by apply (rd_range_copy b2 1).
Qed.

Lemma iSpline_is_running_sum_witness :
  ∃ bl, eval_vec (bs_ (unit_cubic false)) 0.3 0 = Ok bl ∧
        eval_vec (iSpline_ (iSpline.mk 0 true 3 (unit_cubic false))) 0.3 0
        = Ok (saturated 3 4 (running_sums 4 0 bl)).
Proof.
  destruct (eval_vec (bs_ (unit_cubic false)) 0.3 0) as [bl| |] eqn:E;
    [|vm_compute in E; discriminate..].
  exists bl. split; [reflexivity|].
  apply (iSpline_is_running_sum (iSpline.mk 0 true 3 (unit_cubic false))
           0.3 0 bl); [discriminate|discriminate|exact E|].
  apply bind_Ok_inv in E as (out & _ & E).
  apply rd_range_inv in E as [E _]. rewrite E. vm_compute. lia.
Defined.

(** ** The cells written by a raw polynomial *)

Lemma dom_prefix (m : buf) (n : nat) :
  (∀ i, is_Some (m !! i) ↔ i < n) → dom m = set_seq 0 n.
Proof.
  intros H. apply set_eq. intros i.
  rewrite elem_of_dom, elem_of_set_seq, H. lia.
Qed.

Lemma raw_integral_dom (p : orth_poly.t) (x : Q) (inter : bool) (uders : nat) :
  ∃ out, orth_poly.raw_integral p ∅ x inter uders = Ok out ∧
         dom out = set_seq 0 (orth_poly.n_basis_v p).
Proof.
  unfold orth_poly.raw_integral.
  match goal with |- context [for_up 2 _ ?f _] => set (body1 := f) end.
  destruct (for_up_ind (λ _ (_ : Q * Q), True) body1 2 (uders - 1)
              (x, orth_poly.lower_limit p)) as ([vu vl] & -> & _); [|done|].
  { intros i [vu vl] _ _. unfold body1. eexists. split; [reflexivity|done]. }
  simpl.
  destruct (if inter then (vu, vl) else _) as [wu wl].
  match goal with |- context [for_up 0 _ ?f _] => set (body2 := f) end.
  destruct (for_up_ind
    (λ c (st : buf * Q * Q), ∀ i, is_Some (st.1.1 !! i) ↔ i < c)
    body2 0 (orth_poly.n_basis_v p) (∅, wu, wl))
    as ([[m vu'] vl'] & -> & Hm).
  - intros c [[m vu'] vl'] Hc Hm. unfold body2. cbn [fst snd] in *.
    destruct (uders <? c + 1 - orth_poly.b2n inter);
      (eexists; split; [reflexivity|]; cbn [fst snd]; intros i;
       destruct (decide (i = c)) as [->|Hne];
       [rewrite lookup_insert_eq; split; [lia|eauto]
       |rewrite lookup_insert_ne by done; rewrite Hm; lia]).
  - intros i. cbn [fst snd]. rewrite lookup_empty. split; [by intros []|lia].
  - simpl. exists m. split; [done|]. by apply dom_prefix.
Qed.

Lemma raw_deriv_inter_dom (p : orth_poly.t) (x : Q) (ders : nat) :
  ∃ out, orth_poly.raw_deriv_inter p ∅ x ders = Ok out ∧
         dom out = set_seq 0 (ders + (orth_poly.n_basis_v p - ders)).
Proof.
  unfold orth_poly.raw_deriv_inter. name_body body.
  destruct (for_up_ind
    (λ c (st : buf * Q), ∀ i, is_Some (st.1 !! i) ↔ i < c)
    body ders (orth_poly.n_basis_v p - ders) (fill ∅ ders (Fin 0), 1%Q))
    as ([m v] & -> & Hm).
  - intros c [m v] Hc Hm. unfold body. cbn [fst snd] in *.
    eexists. split; [reflexivity|]. cbn [fst snd]. intros i.
    destruct (decide (i = c)) as [->|Hne].
    + rewrite lookup_insert_eq. split; [lia|eauto].
    + rewrite lookup_insert_ne by done. rewrite Hm. lia.
  - intros i. cbn [fst snd]. rewrite lookup_fill.
    destruct (decide (i < ders)); [split; [done|eauto]|].
    rewrite lookup_empty. split; [by intros []|lia].
  - simpl. exists m. split; [done|]. by apply dom_prefix.
Qed.

Lemma raw_deriv_no_inter_dom (p : orth_poly.t) (x : Q) (ders : nat) :
  ∃ out, orth_poly.raw_deriv_no_inter p ∅ x ders = Ok out ∧
         dom out = set_seq 0 (max (ders - 1) (orth_poly.n_basis_v p)).
Proof.
  unfold orth_poly.raw_deriv_no_inter. name_body body.
  destruct (for_up_ind
    (λ c (st : buf * Q), ∀ i, is_Some (st.1 !! i) ↔ i < max (ders - 1) c)
    body 0 (orth_poly.n_basis_v p) (fill ∅ (ders - 1) (Fin 0), 1%Q))
    as ([m v] & -> & Hm).
  - intros c [m v] Hc Hm. unfold body. cbn [fst snd] in *.
    eexists. split; [reflexivity|]. cbn [fst snd]. intros i.
    destruct (decide (i = c)) as [->|Hne].
    + rewrite lookup_insert_eq. split; [lia|eauto].
    + rewrite lookup_insert_ne by done. rewrite Hm. lia.
  - intros i. cbn [fst snd]. rewrite lookup_fill.
    destruct (decide (i < ders - 1)); [split; [lia|eauto]|].
    rewrite lookup_empty. split; [by intros []|lia].
  - simpl. exists m. split; [done|]. by apply dom_prefix.
Qed.

(** X19: a raw polynomial always returns, having written the cells
    [0 .. max n_basis forced - 1], where [forced] is 1 for order 0 with an
    intercept, [ders] for a derivative with an intercept, [ders - 1] for a
    derivative without, and 0 otherwise: exactly [n_basis] cells when
    [forced <= n_basis]. *)
Theorem raw_cells_written (p : orth_poly.t) (x : Q) (ders : Z) :
  orth_poly.raw p = true →
  let forced :=
    if (ders =? 0)%Z then orth_poly.b2n (orth_poly.intercept p)
    else if (ders <? 0)%Z then 0
    else Z.to_nat ders - (1 - orth_poly.b2n (orth_poly.intercept p)) in
  ∃ out, eval (orth_poly_ p) ∅ x ders = Ok out ∧
         dom out = set_seq 0 (max (n_basis (orth_poly_ p)) forced).
Proof.
  intros Hraw forced. simpl. unfold orth_poly.eval, orth_poly.eval_raw,
    orth_poly.n_basis. rewrite Hraw. unfold forced.
  destruct (ders =? 0)%Z; [|destruct (ders <? 0)%Z].
  - destruct (orth_poly.intercept p).
    + destruct (raw_value_inter_cells p ∅ x) as (m & -> & Hm).
      exists m. split; [done|]. apply dom_prefix. intros i. rewrite Hm.
      destruct (decide _); simpl in *; [split; [lia|eauto]|].
      rewrite lookup_empty. split; [by intros []|lia].
    + destruct (raw_value_no_inter_cells p ∅ x) as (m & -> & Hm).
      exists m. split; [done|]. apply dom_prefix. intros i. rewrite Hm.
      destruct (decide _); simpl in *; [split; [lia|eauto]|].
      rewrite lookup_empty. split; [by intros []|lia].
  - destruct (raw_integral_dom p x (orth_poly.intercept p)
                (Z.to_nat (- ders))) as (m & -> & Hm).
    exists m. split; [done|]. by rewrite Nat.max_0_r.
  - destruct (orth_poly.intercept p).
    + destruct (raw_deriv_inter_dom p x (Z.to_nat ders)) as (m & -> & Hm).
      exists m. split; [done|]. rewrite Hm. f_equal. simpl. lia.
    + destruct (raw_deriv_no_inter_dom p x (Z.to_nat ders)) as (m & -> & Hm).
      exists m. split; [done|]. rewrite Hm. f_equal. simpl. lia.
Qed.

Lemma raw_cells_written_witness :
  ∃ out,
    eval (orth_poly_ (orth_poly.mk 0 [] [] [] true true 3 [])) ∅ 1 2 = Ok out
    ∧ dom out = set_seq 0 3.
Proof.
  apply (raw_cells_written (orth_poly.mk 0 [] [] [] true true 3 []) 1 2).
  reflexivity.
Defined.
